(** * Private-access speedtest: statistics engine, echo bookkeeping,
      run orchestration and the download / upload endpoints

    A shallow embedding of
    - [metricsCalculator.js]  (class [MetricsCalculator]),
    - [testOrchestrator.js]   (class [TestOrchestrator]),
    - [backend/server.js], [backend/server-secure.js] and
      [middleware/security.js] (the [/download] and [/upload] handlers).

    Conventions.  Byte counts, millisecond timestamps and round-trip
    times are the integers the call sites pass ([Date.now()],
    [chunk.length], differences of those) and are modelled in [Z].
    Derived quantities (rates, percentiles, the jitter estimate, the loss
    percentage) are JavaScript numbers computed with [/] and [*]; they are
    modelled as exact rationals [Q], compared with [==].  Rounding of
    IEEE-754 doubles is outside the model.  A read past the end of an
    array yields [undefined] and poisons the arithmetic with NaN: such
    results are [None]. *)

From stdpp Require Import base option list gmap strings sorting pretty.
From Stdlib Require Import ZArith QArith Qround Qminmax Qabs Lia Lqa.
From Stdlib Require Import Sorting.Sorted Sorting.Permutation.

Local Open Scope Z_scope.

(** ** JavaScript array helpers *)

Module Js.

(** [arr[i]] for an integral index [i]; [None] stands for [undefined]. *)
Definition aget {A} (arr : list A) (i : Z) : option A :=
  if i <? 0 then None else nth_error arr (Z.to_nat i).

(** [Array.prototype.sort(cmp)] is a stable sort.  [leb a b] is
    [cmp(a, b) <= 0].  An element is inserted in front of the first
    element of the sorted tail that it does not exceed, so elements that
    compare equal keep their original order. *)
Fixpoint insert {A} (leb : A -> A -> bool) (x : A) (l : list A) : list A :=
  match l with
  | [] => [x]
  | y :: r => if leb x y then x :: y :: r else y :: insert leb x r
  end.

Fixpoint sort {A} (leb : A -> A -> bool) (l : list A) : list A :=
  match l with
  | [] => []
  | x :: r => insert leb x (sort leb r)
  end.

(** The order that a comparator induces. *)
Definition ordered {A} (leb : A -> A -> bool) (a b : A) : Prop := leb a b = true.

(** [a > b] on numbers. *)
Definition gt (a b : Q) : bool := negb (Qle_bool a b).

(** [Math.round]: nearest integer, halves towards +infinity. *)
Definition round (x : Q) : Z := Qfloor (x + (1 # 2))%Q.

End Js.

(** ** metricsCalculator.js *)

Module MetricsCalculator.

Record ThroughputSample := { bytes : Z; timestamp : Z }.
Record RttSample := { rtt : Z; rttTimestamp : Z }.

Record t := {
  throughputSamples : list ThroughputSample;
  bucketSize : Z;
  windowSize : Z;
  rttSamples : list RttSample;
  jitterEstimate : Q;
  jitterSamples : list Z;
  lostEchoes : Z;
  sentEchoes : Z;
  lastRtt : Z
}.

Definition reset : t :=
  {| throughputSamples := [];
     bucketSize := 250;
     windowSize := 1000;
     rttSamples := [];
     jitterEstimate := 0;
     jitterSamples := [];
     lostEchoes := 0;
     sentEchoes := 0;
     lastRtt := 0 |}.

Definition addThroughputSample (m : t) (b ts : Z) : t :=
  {| throughputSamples := throughputSamples m ++ [{| bytes := b; timestamp := ts |}];
     bucketSize := bucketSize m;
     windowSize := windowSize m;
     rttSamples := rttSamples m;
     jitterEstimate := jitterEstimate m;
     jitterSamples := jitterSamples m;
     lostEchoes := lostEchoes m;
     sentEchoes := sentEchoes m;
     lastRtt := lastRtt m |}.

Definition addRttSample (m : t) (r ts : Z) : t :=
  let hasPrev := 0 <? lastRtt m in
  let D := Z.abs (r - lastRtt m) in
  {| throughputSamples := throughputSamples m;
     bucketSize := bucketSize m;
     windowSize := windowSize m;
     rttSamples := rttSamples m ++ [{| rtt := r; rttTimestamp := ts |}];
     jitterEstimate :=
       if hasPrev
       then (jitterEstimate m + (inject_Z D - jitterEstimate m) / 16)%Q
       else jitterEstimate m;
     jitterSamples :=
       if hasPrev then jitterSamples m ++ [D] else jitterSamples m;
     lostEchoes := lostEchoes m;
     sentEchoes := sentEchoes m + 1;
     lastRtt := r |}.

Definition addLostEcho (m : t) : t :=
  {| throughputSamples := throughputSamples m;
     bucketSize := bucketSize m;
     windowSize := windowSize m;
     rttSamples := rttSamples m;
     jitterEstimate := jitterEstimate m;
     jitterSamples := jitterSamples m;
     lostEchoes := lostEchoes m + 1;
     sentEchoes := sentEchoes m + 1;
     lastRtt := lastRtt m |}.

(** [percentile(sortedArray, percentile)] *)
Definition percentile (sortedArray : list Q) (p : Q) : option Q :=
  match sortedArray with
  | [] => Some 0%Q
  | [x] => Some x
  | _ =>
    let index := ((p / 100) * (inject_Z (Z.of_nat (length sortedArray)) - 1))%Q in
    let lower := Qfloor index in
    let upper := Qceiling index in
    let weight := (index - inject_Z lower)%Q in
    a ← Js.aget sortedArray lower;
    b ← Js.aget sortedArray upper;
    Some (a * (1 - weight) + b * weight)%Q
  end.

Record ThroughputMetrics := {
  medianMbps : Q; p95Mbps : Q; p99Mbps : Q; avgMbps : Q; maxMbps : Q
}.

Definition zeroThroughput : ThroughputMetrics :=
  {| medianMbps := 0; p95Mbps := 0; p99Mbps := 0; avgMbps := 0; maxMbps := 0 |}.

(** The inner [for (j = i; ...)] loop: accumulate bytes until the first
    sample at or past [windowEnd], then [break]. *)
Fixpoint bytesInWindowFrom (windowEnd : Z) (acc : Z) (from : list ThroughputSample) : Z :=
  match from with
  | [] => acc
  | s :: r =>
    if timestamp s <? windowEnd
    then bytesInWindowFrom windowEnd (acc + bytes s) r
    else acc
  end.

Definition toMbps (w : Z) (bytesInWindow : Z) : Q :=
  (inject_Z (bytesInWindow * 8) / (inject_Z w / 1000) / 1000000)%Q.

(** The outer [for (i = 0; ...)] loop: one rate per anchor sample, the
    inner loop scanning from the anchor onwards. *)
Fixpoint windowRates (w : Z) (measuredSamples : list ThroughputSample) : list Q :=
  match measuredSamples with
  | [] => []
  | s :: r =>
    toMbps w (bytesInWindowFrom (timestamp s + w) 0 (s :: r)) :: windowRates w r
  end.

Definition byTimestamp (a b : ThroughputSample) : bool := timestamp a <=? timestamp b.
Definition numerically (a b : Q) : bool := Qle_bool a b.

Definition sumQ (l : list Q) : Q := fold_left Qplus l 0%Q.

(** [Math.max(...xs)]; the empty spread is -Infinity, not a rational. *)
Definition maxOf (l : list Q) : option Q :=
  match l with
  | [] => None
  | x :: r => Some (fold_left Qmax r x)
  end.

(** The statistics block at the end of [calculateThroughput]. *)
Definition summarize (rates : list Q) : option ThroughputMetrics :=
  let sortedRates := Js.sort numerically rates in
  median ← percentile sortedRates 50;
  p95 ← percentile sortedRates 95;
  p99 ← percentile sortedRates 99;
  let avg := (sumQ sortedRates / inject_Z (Z.of_nat (length sortedRates)))%Q in
  mx ← maxOf sortedRates;
  Some {| medianMbps := median; p95Mbps := p95; p99Mbps := p99;
          avgMbps := avg; maxMbps := mx |}.

Definition measuredOf (samples : list ThroughputSample) (warmupMs : Z)
  : list ThroughputSample :=
  let sorted := Js.sort byTimestamp samples in
  match sorted with
  | [] => []
  | first :: _ =>
    let startTime := timestamp first + warmupMs in
    List.filter (fun s => startTime <=? timestamp s) sorted
  end.

Definition calculateThroughput (m : t) (warmupMs : Z) : option ThroughputMetrics :=
  match throughputSamples m with
  | [] => Some zeroThroughput
  | _ =>
    match measuredOf (throughputSamples m) warmupMs with
    | [] => Some zeroThroughput
    | measuredSamples => summarize (windowRates (windowSize m) measuredSamples)
    end
  end.

Definition defaultWarmupMs : Z := 3000.

Record LatencyMetrics := {
  minMs : Q; avgMs : Q; medianMs : Q; p95Ms : Q; p99Ms : Q
}.

Definition zeroLatency : LatencyMetrics :=
  {| minMs := 0; avgMs := 0; medianMs := 0; p95Ms := 0; p99Ms := 0 |}.

Definition calculateLatency (m : t) : option LatencyMetrics :=
  match rttSamples m with
  | [] => Some zeroLatency
  | _ =>
    let rtts := map (fun s => inject_Z (rtt s)) (rttSamples m) in
    let sortedRtts := Js.sort numerically rtts in
    mn ← Js.aget sortedRtts 0;
    med ← percentile sortedRtts 50;
    p95 ← percentile sortedRtts 95;
    p99 ← percentile sortedRtts 99;
    Some {| minMs := mn;
            avgMs := (sumQ rtts / inject_Z (Z.of_nat (length rtts)))%Q;
            medianMs := med; p95Ms := p95; p99Ms := p99 |}
  end.

Record JitterMetrics := { meanMs : Q; jitterP95Ms : Q }.

Definition calculateJitter (m : t) : option JitterMetrics :=
  match jitterSamples m with
  | [] => Some {| meanMs := 0; jitterP95Ms := 0 |}
  | _ =>
    let sortedJitter := Js.sort numerically (map inject_Z (jitterSamples m)) in
    p95 ← percentile sortedJitter 95;
    Some {| meanMs := jitterEstimate m; jitterP95Ms := p95 |}
  end.

Definition calculatePacketLoss (m : t) : Q :=
  if sentEchoes m =? 0 then 0%Q
  else ((inject_Z (lostEchoes m) / inject_Z (sentEchoes m)) * 100)%Q.

Definition calculateStability (m : t) (warmupMs : Z) : option Z :=
  throughput ← calculateThroughput m warmupMs;
  latency ← calculateLatency m;
  let cv :=
    if Js.gt (avgMbps throughput) 0
    then (Qabs (medianMbps throughput - avgMbps throughput) / avgMbps throughput)%Q
    else 0%Q in
  let latencyPenalty := Qmin (p95Ms latency / 10) 50 in
  let score := Qmax 0 (Qmin 100 (100 - (cv * 100) - latencyPenalty)) in
  Some (Js.round score).

End MetricsCalculator.

(** ** testOrchestrator.js *)

Module TestOrchestrator.

Definition DEFAULT_CONCURRENCY : Z := 6.
Definition MAX_CONCURRENCY : Z := 12.
Definition SAMPLE_INTERVAL : Z := 250.
Definition ECHO_INTERVAL : Z := 250.
Definition ECHO_TIMEOUT : Z := 1000.
Definition WARMUP_DURATION : Z := 2000.
Definition RAMP_DURATION : Z := 2000.
Definition MEASURE_DURATION : Z := 5000.
Definition COOLDOWN_DURATION : Z := 1000.
Definition UPLOAD_CHUNK_SIZE : Z := 64 * 1024.

Inductive Phase :=
  discovery | warmup | ramp | measure_download | measure_upload | cooldown.

(** The events handed to [emit]. *)
Inductive Emitted :=
  PhaseChange (p : Phase) | Capabilities | MetricsUpdate
  | Complete | Cancelled | Error.

Definition terminal (e : Emitted) : bool :=
  match e with Complete | Cancelled | Error => true | _ => false end.

Inductive ReadyState := CONNECTING | OPEN | CLOSED.

Record PendingEcho := { sendTimestamp : Z; timeoutId : Z }.

(** The orchestrator object.  [abortController] tells whether
    [this.abortController] is non-null; [signalAborted] is the state of
    the [AbortSignal] that [start] created and that the stream tasks
    captured.  [ws] tells whether [this.ws] is non-null and [socket] is
    the state of the WebSocket it was created with.  [timers] are the
    armed [setTimeout] timers of the echo probes, [echoTimer] the armed
    [setInterval].  [emitted] logs the calls of [emit], oldest first. *)
Record t := {
  phase : option Phase;
  abortController : bool;
  signalAborted : bool;
  metrics : MetricsCalculator.t;
  concurrency : Z;
  ws : bool;
  socket : ReadyState;
  echoTimer : bool;
  echoSeq : Z;
  pendingEchoes : gmap Z PendingEcho;
  timers : gset Z;
  emitted : list Emitted
}.

Definition set_phase v o :=
  Build_t
    v (abortController o) (signalAborted o) (metrics o) (concurrency o)
    (ws o) (socket o) (echoTimer o) (echoSeq o) (pendingEchoes o) (timers o)
    (emitted o).
Definition set_abortController v o :=
  Build_t
    (phase o) v (signalAborted o) (metrics o) (concurrency o) (ws o)
    (socket o) (echoTimer o) (echoSeq o) (pendingEchoes o) (timers o)
    (emitted o).
Definition set_signalAborted v o :=
  Build_t
    (phase o) (abortController o) v (metrics o) (concurrency o) (ws o)
    (socket o) (echoTimer o) (echoSeq o) (pendingEchoes o) (timers o)
    (emitted o).
Definition set_metrics v o :=
  Build_t
    (phase o) (abortController o) (signalAborted o) v (concurrency o) (ws o)
    (socket o) (echoTimer o) (echoSeq o) (pendingEchoes o) (timers o)
    (emitted o).
Definition set_concurrency v o :=
  Build_t
    (phase o) (abortController o) (signalAborted o) (metrics o) v (ws o)
    (socket o) (echoTimer o) (echoSeq o) (pendingEchoes o) (timers o)
    (emitted o).
Definition set_ws v o :=
  Build_t
    (phase o) (abortController o) (signalAborted o) (metrics o)
    (concurrency o) v (socket o) (echoTimer o) (echoSeq o) (pendingEchoes o)
    (timers o) (emitted o).
Definition set_socket v o :=
  Build_t
    (phase o) (abortController o) (signalAborted o) (metrics o)
    (concurrency o) (ws o) v (echoTimer o) (echoSeq o) (pendingEchoes o)
    (timers o) (emitted o).
Definition set_echoTimer v o :=
  Build_t
    (phase o) (abortController o) (signalAborted o) (metrics o)
    (concurrency o) (ws o) (socket o) v (echoSeq o) (pendingEchoes o)
    (timers o) (emitted o).
Definition set_echoSeq v o :=
  Build_t
    (phase o) (abortController o) (signalAborted o) (metrics o)
    (concurrency o) (ws o) (socket o) (echoTimer o) v (pendingEchoes o)
    (timers o) (emitted o).
Definition set_pendingEchoes v o :=
  Build_t
    (phase o) (abortController o) (signalAborted o) (metrics o)
    (concurrency o) (ws o) (socket o) (echoTimer o) (echoSeq o) v (timers o)
    (emitted o).
Definition set_timers v o :=
  Build_t
    (phase o) (abortController o) (signalAborted o) (metrics o)
    (concurrency o) (ws o) (socket o) (echoTimer o) (echoSeq o)
    (pendingEchoes o) v (emitted o).
Definition set_emitted v o :=
  Build_t
    (phase o) (abortController o) (signalAborted o) (metrics o)
    (concurrency o) (ws o) (socket o) (echoTimer o) (echoSeq o)
    (pendingEchoes o) (timers o) v.

(** [reset()]; the registered callbacks, and with them the log of what
    was emitted, survive it. *)
Definition reset (o : t) : t :=
  {| phase := None;
     abortController := false;
     signalAborted := false;
     metrics := MetricsCalculator.reset;
     concurrency := DEFAULT_CONCURRENCY;
     ws := false;
     socket := socket o;
     echoTimer := false;
     echoSeq := 0;
     pendingEchoes := ∅;
     timers := timers o;
     emitted := emitted o |}.

(** A freshly constructed orchestrator. *)
Definition new : t :=
  {| phase := None;
     abortController := false;
     signalAborted := false;
     metrics := MetricsCalculator.reset;
     concurrency := DEFAULT_CONCURRENCY;
     ws := false;
     socket := CLOSED;
     echoTimer := false;
     echoSeq := 0;
     pendingEchoes := ∅;
     timers := ∅;
     emitted := [] |}.

Definition emit (e : Emitted) (o : t) : t := set_emitted (emitted o ++ [e]) o.

(** *** Echo probes *)

(** [sendEcho()] at time [now]: the timer armed for the probe is
    identified by the probe's sequence number. *)
Definition sendEcho (now : Z) (o : t) : t :=
  let seq := echoSeq o in
  let o := set_echoSeq (seq + 1) o in
  let o := set_timers ({[seq]} ∪ timers o) o in
  set_pendingEchoes
    (<[seq := {| sendTimestamp := now; timeoutId := seq |}]> (pendingEchoes o)) o.

(** The callback given to [setInterval] in [startEchoLoop]. *)
Definition echoTick (now : Z) (o : t) : t :=
  if echoTimer o
  then match ws o, socket o with
       | true, OPEN => sendEcho now o
       | _, _ => o
       end
  else o.

(** The callback given to [setTimeout] in [sendEcho] for probe [seq]. *)
Definition echoTimeout (seq : Z) (o : t) : t :=
  match pendingEchoes o !! seq with
  | Some _ =>
    let o := set_pendingEchoes (delete seq (pendingEchoes o)) o in
    let o := set_metrics (MetricsCalculator.addLostEcho (metrics o)) o in
    emit MetricsUpdate o
  | None => o
  end.

(** The browser fires an armed timer once and disarms it. *)
Definition fireTimer (id : Z) (o : t) : t :=
  if decide (id ∈ timers o)
  then echoTimeout id (set_timers (timers o ∖ {[id]}) o)
  else o.

(** [handleEchoResponse(data)]: [data] is [None] when [JSON.parse]
    throws (the error is caught and logged), otherwise the parsed
    [seq] and [timestamp]; [receiveTime] is [Date.now()]. *)
Definition handleEchoResponse (data : option (Z * Z)) (receiveTime : Z) (o : t) : t :=
  match data with
  | None => o
  | Some (seq, sendTime) =>
    match pendingEchoes o !! seq with
    | Some pe =>
      let o := set_timers (timers o ∖ {[timeoutId pe]}) o in
      let o := set_pendingEchoes (delete seq (pendingEchoes o)) o in
      let rtt := receiveTime - sendTime in
      let o := set_metrics (MetricsCalculator.addRttSample (metrics o) rtt receiveTime) o in
      emit MetricsUpdate o
    | None => o
    end
  end.

(** [cleanup()] *)
Definition cleanup (o : t) : t :=
  let o := if ws o then set_ws false (set_socket CLOSED o) else o in
  let o := if echoTimer o then set_echoTimer false o else o in
  let o := set_timers (timers o ∖ map_img (timeoutId <$> pendingEchoes o)) o in
  let o := set_pendingEchoes ∅ o in
  if abortController o
  then set_abortController false (set_signalAborted true o)
  else o.

(** [stop()] *)
Definition stop (o : t) : t :=
  let o := if abortController o then set_signalAborted true o else o in
  cleanup o.

(** What can happen to the echo bookkeeping while a run is in flight. *)
Inductive EchoEvent :=
  | Tick (now : Z)
  | Response (data : option (Z * Z)) (receiveTime : Z)
  | TimerFires (id : Z)
  | Cleanup.

Definition echoStep (o : t) (e : EchoEvent) : t :=
  match e with
  | Tick now => echoTick now o
  | Response data receiveTime => handleEchoResponse data receiveTime o
  | TimerFires id => fireTimer id o
  | Cleanup => cleanup o
  end.

Definition echoRun (o : t) (tr : list EchoEvent) : t := fold_left echoStep tr o.

(** The orchestrator once [startLatencyTest] has resolved: the socket is
    open and the echo interval is armed. *)
Definition echoing : t :=
  set_echoTimer true (set_socket OPEN (set_ws true (set_abortController true new))).

(** Does event [e] concern probe [seq]? *)
Definition concerns (seq : Z) (e : EchoEvent) : bool :=
  match e with
  | Response (Some (s, _)) _ => bool_decide (s = seq)
  | TimerFires id => bool_decide (id = seq)
  | _ => false
  end.

(** RTT samples and lost-echo increments recorded by one step. *)
Definition rttDelta (o : t) (e : EchoEvent) : Z :=
  Z.of_nat (length (MetricsCalculator.rttSamples (metrics (echoStep o e))))
  - Z.of_nat (length (MetricsCalculator.rttSamples (metrics o))).

Definition lostDelta (o : t) (e : EchoEvent) : Z :=
  MetricsCalculator.lostEchoes (metrics (echoStep o e))
  - MetricsCalculator.lostEchoes (metrics o).

(** Totals over a trace of the steps that concern probe [seq]. *)
Fixpoint outcomes (seq : Z) (o : t) (tr : list EchoEvent) : Z * Z :=
  match tr with
  | [] => (0, 0)
  | e :: r =>
    let '(rs, ls) := outcomes seq (echoStep o e) r in
    if concerns seq e then (rttDelta o e + rs, lostDelta o e + ls) else (rs, ls)
  end.

Definition ticks (tr : list EchoEvent) : Z :=
  Z.of_nat (length (List.filter (fun e => match e with Tick _ => true | _ => false end) tr)).

(** *** Stream tasks *)

Inductive ErrorName := AbortError | TypeError | OtherError.

(** How an awaited body ends. *)
Inductive Completion := Normal | Throw (e : ErrorName).

Definition Task := t -> Completion * t.

Definition andThen (f g : Task) : Task :=
  fun o => match f o with
           | (Normal, o') => g o'
           | (Throw e, o') => (Throw e, o')
           end.

Definition perform (f : t -> t) : Task := fun o => (Normal, f o).

(** [try { body } catch (error) { handler(error) }] *)
Definition tryCatch (body : Task) (handler : ErrorName -> Task) : Task :=
  fun o => match body o with
           | (Normal, o') => (Normal, o')
           | (Throw e, o') => handler e o'
           end.

(** [try { body } finally { fin }]; [fin] does not throw. *)
Definition tryFinally (body : Task) (fin : t -> t) : Task :=
  fun o => let '(c, o') := body o in (c, fin o').

Inductive FetchOutcome := FetchOk | FetchNotOk | FetchReject (e : ErrorName).
Inductive ReadEnd := ReadDone (now : Z) | ReadFail (e : ErrorName).

(** What the network does to one download stream: the outcome of
    [fetch], [Date.now()] when the reader is obtained, the chunks read
    (length, [Date.now()] after the read) and how reading ends. *)
Record DownloadScript := {
  dlFetch : FetchOutcome;
  dlStart : Z;
  dlReads : list (Z * Z);
  dlEnd : ReadEnd
}.

Definition recordSample (b now : Z) (o : t) : t :=
  set_metrics (MetricsCalculator.addThroughputSample (metrics o) b now) o.

(** The [while (true)] read loop of [runSingleDownloadStream]; returns
    the bytes of the bucket still open when the chunks run out. *)
Fixpoint readLoop (isWarmup : bool) (reads : list (Z * Z))
    (lastSampleTime bucketBytes : Z) (o : t) : Z * t :=
  match reads with
  | [] => (bucketBytes, o)
  | (len, now) :: r =>
    let bucketBytes := bucketBytes + len in
    if SAMPLE_INTERVAL <=? now - lastSampleTime
    then
      let o := if isWarmup then o
               else emit MetricsUpdate (recordSample bucketBytes now o) in
      readLoop isWarmup r now 0 o
    else readLoop isWarmup r lastSampleTime bucketBytes o
  end.

Definition downloadBody (s : DownloadScript) (isWarmup : bool) : Task :=
  fun o =>
    if abortController o
    then match dlFetch s with
         | FetchReject e => (Throw e, o)
         | FetchNotOk => (Throw OtherError, o)
         | FetchOk =>
           let '(bucketBytes, o) := readLoop isWarmup (dlReads s) (dlStart s) 0 o in
           match dlEnd s with
           | ReadFail e => (Throw e, o)
           | ReadDone now =>
             if (0 <? bucketBytes) && negb isWarmup
             then (Normal, recordSample bucketBytes now o)
             else (Normal, o)
           end
         end
    else (Throw TypeError, o).

(** [runSingleDownloadStream]: the whole body sits in a [try] whose
    [catch] logs every error but [AbortError] and rethrows none. *)
Definition runSingleDownloadStream (s : DownloadScript) (isWarmup : bool) : Task :=
  tryCatch (downloadBody s isWarmup) (fun _ => perform id).

(** One turn of the upload loop: [Date.now()] at the loop test, the
    outcome of the POST and [Date.now()] after it. *)
Record UploadTurn := { ulNow : Z; ulFetch : FetchOutcome; ulAfter : Z }.
Record UploadScript := { ulStart : Z; ulTurns : list UploadTurn }.

Fixpoint uploadLoop (endTime : Z) (turns : list UploadTurn) : Task :=
  fun o =>
    match turns with
    | [] => (Normal, o)
    | u :: r =>
      if (ulNow u <? endTime) && (negb (abortController o) || negb (signalAborted o))
      then match ulFetch u with
           | FetchReject e => (Throw e, o)
           | FetchNotOk => (Throw OtherError, o)
           | FetchOk =>
             uploadLoop endTime r
               (emit MetricsUpdate (recordSample UPLOAD_CHUNK_SIZE (ulAfter u) o))
           end
      else (Normal, o)
    end.

Definition runSingleUploadStream (s : UploadScript) (duration : Z) : Task :=
  tryCatch (uploadLoop (ulStart s + duration) (ulTurns s)) (fun _ => perform id).

(** [Promise.all] over the stream tasks.  The tasks never reject, and
    they touch only the sample list and the event log, so they are run
    one after the other in index order. *)
Fixpoint allOf (tasks : list Task) : Task :=
  match tasks with
  | [] => perform id
  | k :: r => andThen k (allOf r)
  end.

Definition streamIds (numStreams : Z) : list nat := seq 0 (Z.to_nat numStreams).

Definition runDownloadStreams (script : nat -> DownloadScript)
    (numStreams : Z) (isWarmup : bool) : Task :=
  allOf (map (fun i => runSingleDownloadStream (script i) isWarmup) (streamIds numStreams)).

Definition runUploadStreams (script : nat -> UploadScript)
    (numStreams duration : Z) : Task :=
  allOf (map (fun i => runSingleUploadStream (script i) duration) (streamIds numStreams)).

(** *** The run *)

(** The awaits of [start], in order. *)
Inductive Stage :=
  AtDiscovery | AtConnect | AtWarmup | AtRamp
  | AtMeasureDownload | AtMeasureUpload | AtCooldown.

Global Instance Stage_eq_dec : EqDecision Stage.
Proof. solve_decision. Defined.

(** The world around one run: [getCapabilities] resolves with
    [maxConcurrency] ([0] when the field is missing) or rejects; the
    WebSocket opens or fails; the streams of each phase follow their
    scripts; the timer and socket callbacks of [echoDuring s] run while
    [start] is suspended in stage [s]; [stop()] is called while [start]
    is suspended in [stopDuring], if at all. *)
Record Env := {
  capsOutcome : option Z;
  wsOpens : bool;
  warmupStreams : nat -> DownloadScript;
  rampStreams : nat -> DownloadScript;
  measureStreams : nat -> DownloadScript;
  uploadStreams : nat -> UploadScript;
  optionsDuration : Z;
  echoDuring : Stage -> list EchoEvent;
  stopDuring : option Stage
}.

(** What happens while [start] is suspended in stage [s]: the echo
    callbacks of that stretch run, and a [stop()] that arrives during the
    stage runs before the awaited promise of the stage settles. *)
Definition interrupt (env : Env) (s : Stage) : Task :=
  perform (fun o =>
    let o := echoRun o (echoDuring env s) in
    if decide (stopDuring env = Some s) then stop o else o).

Definition runDiscovery (env : Env) : Task :=
  andThen (perform (fun o => emit (PhaseChange discovery) (set_phase (Some discovery) o)))
    (tryCatch
       (andThen (interrupt env AtDiscovery)
          (fun o =>
             match capsOutcome env with
             | None => (Throw OtherError, o)
             | Some maxConcurrency =>
               let c := if maxConcurrency =? 0 then DEFAULT_CONCURRENCY else maxConcurrency in
               (Normal, emit Capabilities (set_concurrency (Z.min c MAX_CONCURRENCY) o))
             end))
       (fun _ o => (Throw OtherError, o))).

Definition startLatencyTest (env : Env) : Task :=
  andThen (perform (fun o => set_socket CONNECTING (set_ws true o)))
    (andThen (interrupt env AtConnect)
       (fun o =>
          if wsOpens env
          then (Normal, set_echoTimer true (set_socket OPEN o))
          else (Throw OtherError, o))).

Definition runWarmup (env : Env) : Task :=
  andThen (perform (fun o => emit (PhaseChange warmup) (set_phase (Some warmup) o)))
    (fun o =>
       let initialStreams := Z.max 2 (concurrency o / 2) in
       andThen (runDownloadStreams (warmupStreams env) initialStreams true)
         (interrupt env AtWarmup) o).

Definition runRamp (env : Env) : Task :=
  andThen (perform (fun o => emit (PhaseChange ramp) (set_phase (Some ramp) o)))
    (fun o =>
       andThen (runDownloadStreams (rampStreams env) (concurrency o) false)
         (interrupt env AtRamp) o).

Definition runMeasureDownload (env : Env) (duration : Z) : Task :=
  andThen (perform (fun o => emit (PhaseChange measure_download)
                               (set_phase (Some measure_download) o)))
    (fun o =>
       andThen (runDownloadStreams (measureStreams env) (concurrency o) false)
         (interrupt env AtMeasureDownload) o).

Definition runMeasureUpload (env : Env) (duration : Z) : Task :=
  andThen (perform (fun o => emit (PhaseChange measure_upload)
                               (set_phase (Some measure_upload) o)))
    (fun o =>
       andThen (runUploadStreams (uploadStreams env) (concurrency o) duration)
         (interrupt env AtMeasureUpload) o).

Definition runCooldown (env : Env) : Task :=
  andThen (perform (fun o => emit (PhaseChange cooldown) (set_phase (Some cooldown) o)))
    (interrupt env AtCooldown).

(** [start(options)] *)
Definition start (env : Env) (o : t) : t :=
  let o := set_signalAborted false (set_abortController true (reset o)) in
  let testDuration :=
    if optionsDuration env =? 0 then MEASURE_DURATION else optionsDuration env in
  snd (tryFinally
         (tryCatch
            (andThen (runDiscovery env)
            (andThen (startLatencyTest env)
            (andThen (runWarmup env)
            (andThen (runRamp env)
            (andThen (runMeasureDownload env testDuration)
            (andThen (runMeasureUpload env testDuration)
            (andThen (runCooldown env)
                     (perform (emit Complete)))))))))
            (fun e => match e with
                      | AbortError => perform (emit Cancelled)
                      | _ => perform (emit Error)
                      end))
         cleanup o).

End TestOrchestrator.

(** ** backend/server.js, backend/server-secure.js, middleware/security.js *)

Module Server.

Definition MAX_BYTES_PER_STREAM : Z := 25 * 1024 * 1024.
Definition MAX_UPLOAD_SIZE : Z := 100 * 1024 * 1024.
Definition CHUNK_SIZE : Z := 256 * 1024.

(** *** GET /download *)

(** [Math.min(parseInt(req.query.seconds) || 15, 120)]; [parsed] is
    [None] when [parseInt] yields NaN (parameter missing or not a
    number). *)
Definition downloadSeconds (parsed : option Z) : Z :=
  Z.min (match parsed with
         | Some n => if n =? 0 then 15 else n
         | None => 15
         end) 120.

(** What one call of [sendChunk] observes: [Date.now()] and
    [res.writableEnded]. *)
Record Tick := { now : Z; writableEnded : bool }.

(** [Buffer.prototype.slice(0, end).length] for a buffer of [len] bytes
    and an [end] that is not negative. *)
Definition sliceLength (len e : Z) : Z := Z.max 0 (Z.min e len).

Inductive Loop :=
  | Running (bytesSent : Z) (writes : list Z)
  | Stopped (bytesSent : Z) (writes : list Z).

Definition stopTest (endTime : Z) (k : Tick) (bytesSent : Z) : bool :=
  (endTime <=? now k) || (MAX_BYTES_PER_STREAM <=? bytesSent) || writableEnded k.

(** [sendChunk], called once per tick ([setImmediate] or ['drain']
    re-enters it); [writes] are the lengths handed to [res.write]. *)
Fixpoint sendChunk (endTime : Z) (ticks : list Tick) (bytesSent : Z)
    (writes : list Z) : Loop :=
  match ticks with
  | [] => Running bytesSent writes
  | k :: r =>
    if stopTest endTime k bytesSent
    then Stopped bytesSent writes
    else
      let chunkToSend :=
        if MAX_BYTES_PER_STREAM <? bytesSent + CHUNK_SIZE
        then sliceLength CHUNK_SIZE (MAX_BYTES_PER_STREAM - bytesSent)
        else CHUNK_SIZE in
      sendChunk endTime r (bytesSent + chunkToSend) (writes ++ [chunkToSend])
  end.

(** The handler: [requestTime] is [Date.now()] when the request arrives. *)
Definition download (parsed : option Z) (requestTime : Z) (ticks : list Tick) : Loop :=
  sendChunk (requestTime + downloadSeconds parsed * 1000) ticks 0 [].

Definition loopBytes (l : Loop) : Z :=
  match l with Running b _ | Stopped b _ => b end.
Definition loopWrites (l : Loop) : list Z :=
  match l with Running _ w | Stopped _ w => w end.
Definition loopStopped (l : Loop) : bool :=
  match l with Stopped _ _ => true | Running _ _ => false end.

(** *** POST /upload *)

Inductive Reply := Json (receivedBytes durationMs : Z) | Status413.

(** The request as the handler sees it.  [paused] and [destroyed] belong
    to the request stream: a paused or destroyed stream delivers neither
    ['data'] nor ['end']. *)
Record Upload := {
  startTime : Z;
  receivedBytes : Z;
  paused : bool;
  destroyed : bool;
  reply : option Reply;
  activeUploads : Z
}.

Inductive ReqEvent := Data (len : Z) | End (now : Z) | Close.

Definition accept (requestTime : Z) : Upload :=
  {| startTime := requestTime; receivedBytes := 0; paused := false;
     destroyed := false; reply := None; activeUploads := 1 |}.

(** The ['end'] and ['close'] listeners are the same in both servers. *)
Definition onEnd (now : Z) (u : Upload) : Upload :=
  {| startTime := startTime u; receivedBytes := receivedBytes u;
     paused := paused u; destroyed := destroyed u;
     reply := Some (Json (receivedBytes u) (now - startTime u));
     activeUploads := activeUploads u - 1 |}.

Definition onClose (u : Upload) : Upload :=
  match reply u with
  | Some _ => u
  | None =>
    {| startTime := startTime u; receivedBytes := receivedBytes u;
       paused := paused u; destroyed := destroyed u; reply := reply u;
       activeUploads := activeUploads u - 1 |}
  end.

(** server.js: [req.pause(); req.unpipe();] *)
Definition onDataBasic (len : Z) (u : Upload) : Upload :=
  let received := receivedBytes u + len in
  {| startTime := startTime u; receivedBytes := received;
     paused := if MAX_BYTES_PER_STREAM <? received then true else paused u;
     destroyed := destroyed u; reply := reply u;
     activeUploads := activeUploads u |}.

(** server-secure.js, and the listener that [createUploadLimiter(maxBytes)]
    installs: [req.pause(); res.status(413).json(...);
    req.connection.destroy();] *)
Definition onDataLimited (maxBytes : Z) (len : Z) (u : Upload) : Upload :=
  let received := receivedBytes u + len in
  if maxBytes <? received
  then {| startTime := startTime u; receivedBytes := received;
          paused := true; destroyed := true; reply := Some Status413;
          activeUploads := activeUploads u |}
  else {| startTime := startTime u; receivedBytes := received;
          paused := paused u; destroyed := destroyed u; reply := reply u;
          activeUploads := activeUploads u |}.

Definition deliver (onData : Z -> Upload -> Upload) (u : Upload) (e : ReqEvent) : Upload :=
  match e with
  | Data len => if paused u || destroyed u then u else onData len u
  | End now => if paused u || destroyed u then u else onEnd now u
  | Close => onClose u
  end.

Definition uploadBasic (requestTime : Z) (events : list ReqEvent) : Upload :=
  fold_left (deliver onDataBasic) events (accept requestTime).

Definition uploadSecure (requestTime : Z) (events : list ReqEvent) : Upload :=
  fold_left (deliver (onDataLimited MAX_UPLOAD_SIZE)) events (accept requestTime).

Definition createUploadLimiter (maxBytes : Z) (requestTime : Z)
    (events : list ReqEvent) : Upload :=
  fold_left (deliver (onDataLimited maxBytes)) events (accept requestTime).

End Server.

(** ** The specification's wording, for comparison with the code *)

Module Spec.
Import MetricsCalculator.

(** "all samples whose timestamp falls within the window starting at
    that anchor" *)
Definition inWindow (w : Z) (anchor s : ThroughputSample) : bool :=
  (timestamp anchor <=? timestamp s) && (timestamp s <? timestamp anchor + w).

Definition sumBytes (l : list ThroughputSample) : Z :=
  fold_right Z.add 0 (map bytes l).

(** One rate per anchor, over every recorded sample in the anchor's
    window. *)
Definition windowRatesAll (w : Z) (samples measured : list ThroughputSample) : list Q :=
  map (fun a => toMbps w (sumBytes (List.filter (inWindow w a) samples))) measured.

Definition throughput (samples : list ThroughputSample) (w warmupMs : Z)
  : option ThroughputMetrics :=
  match measuredOf samples warmupMs with
  | [] => Some zeroThroughput
  | measured => summarize (windowRatesAll w samples measured)
  end.



(** The RFC-3550 recurrence over consecutive RTTs: the first sample only
    sets the previous RTT. *)
Fixpoint jitterFrom (previousRtt : Z) (estimate : Q) (rtts : list Z) : Q :=
  match rtts with
  | [] => estimate
  | r :: rest =>
    let D := Z.abs (r - previousRtt) in
    jitterFrom r (estimate + (inject_Z D - estimate) / 16)%Q rest
  end.

Definition jitter (rtts : list Z) : Q :=
  match rtts with
  | [] => 0%Q
  | first :: rest => jitterFrom first 0%Q rest
  end.

Fixpoint differencesFrom (previousRtt : Z) (rtts : list Z) : list Z :=
  match rtts with
  | [] => []
  | r :: rest => Z.abs (r - previousRtt) :: differencesFrom r rest
  end.

Definition differences (rtts : list Z) : list Z :=
  match rtts with
  | [] => []
  | first :: rest => differencesFrom first rest
  end.

(** [addRttSample] called once per RTT, on a fresh calculator. *)
Definition feed (rtts : list Z) : t :=
  fold_left (fun m r => addRttSample m r 0) rtts reset.

(** "cv = |median - avg| / avg (0 if avg is 0); penalty = min(p95/10, 50);
    score = clamp(100 - cv*100 - penalty, 0, 100), rounded" *)
Definition stability (medianMbps avgMbps p95RttMs : Q) : Z :=
  let cv := if Qeq_bool avgMbps 0 then 0%Q
            else (Qabs (medianMbps - avgMbps) / avgMbps)%Q in
  let latencyPenalty := Qmin (p95RttMs / 10) 50 in
  Js.round (Qmax 0 (Qmin 100 (100 - cv * 100 - latencyPenalty))).

(** "the p-th percentile index is p/100 * (L-1); if this is
    non-integral, linearly interpolate between the floor and ceiling
    elements by the fractional weight" *)
Definition fractionalIndex (L : nat) (p : Q) : Q :=
  (p / 100 * (inject_Z (Z.of_nat L) - 1))%Q.

Definition percentile (sorted : list Q) (p : Q) : option Q :=
  let i := fractionalIndex (length sorted) p in
  if Qeq_bool (inject_Z (Qfloor i)) i
  then Js.aget sorted (Qfloor i)
  else
    a ← Js.aget sorted (Qfloor i);
    b ← Js.aget sorted (Qceiling i);
    Some (a + (i - inject_Z (Qfloor i)) * (b - a))%Q.


End Spec.

(** ** Invariants and scenarios *)

Module Scenario.
Import MetricsCalculator.

Definition tsLe (a b : ThroughputSample) : Prop := byTimestamp a b = true.
Definition tsLt (a b : ThroughputSample) : Prop := timestamp a < timestamp b.

(** Two streams that report in the same millisecond. *)
Definition tiedSamples : MetricsCalculator.t :=
  addThroughputSample
    (addThroughputSample
       (addThroughputSample MetricsCalculator.reset 50 0) 100 3000) 200 3000.

(** The same samples, the tied two arriving in the other order. *)
Definition tiedSamplesSwapped : MetricsCalculator.t :=
  addThroughputSample
    (addThroughputSample
       (addThroughputSample MetricsCalculator.reset 50 0) 200 3000) 100 3000.

(** Three samples with distinct timestamps, the last two past warm-up. *)
Definition spacedSamples : MetricsCalculator.t :=
  addThroughputSample
    (addThroughputSample
       (addThroughputSample MetricsCalculator.reset 50 0) 100 3000) 200 3250.

(** What holds of the echo bookkeeping between callbacks: pending probes
    carry sequence numbers already handed out and own the timer of that
    number; the armed timers are those of the pending probes; every
    counted echo is a recorded round trip or a loss; no more echoes are
    counted or pending than were sent. *)
Record EchoInv (o : TestOrchestrator.t) : Prop := {
  inv_keys : forall k pe,
    TestOrchestrator.pendingEchoes o !! k = Some pe ->
    k < TestOrchestrator.echoSeq o /\ TestOrchestrator.timeoutId pe = k;
  inv_timers :
    TestOrchestrator.timers o = dom (TestOrchestrator.pendingEchoes o);
  inv_sent :
    sentEchoes (TestOrchestrator.metrics o)
    = Z.of_nat (length (rttSamples (TestOrchestrator.metrics o)))
      + lostEchoes (TestOrchestrator.metrics o);
  inv_bound :
    sentEchoes (TestOrchestrator.metrics o)
    + Z.of_nat (size (TestOrchestrator.pendingEchoes o))
    <= TestOrchestrator.echoSeq o
}.

(** While nothing is cleaned up the echo loop stays live and every sent
    probe is either counted or pending. *)
Definition balanced (o : TestOrchestrator.t) : Prop :=
  TestOrchestrator.echoTimer o = true /\ TestOrchestrator.ws o = true
  /\ TestOrchestrator.socket o = TestOrchestrator.OPEN
  /\ TestOrchestrator.echoSeq o
     = sentEchoes (TestOrchestrator.metrics o)
       + Z.of_nat (size (TestOrchestrator.pendingEchoes o)).

Definition noCleanup (e : TestOrchestrator.EchoEvent) : Prop :=
  e <> TestOrchestrator.Cleanup.

(** Ten probes: seven answered, two timed out, the last still pending. *)
Definition tenProbes : list TestOrchestrator.EchoEvent :=
  map (fun i => TestOrchestrator.Tick (250 * Z.of_nat i)) (seq 0 10)
  ++ map (fun i => TestOrchestrator.Response
                     (Some (Z.of_nat i, 250 * Z.of_nat i)) (250 * Z.of_nat i + 20))
       (seq 0 7)
  ++ [TestOrchestrator.TimerFires 7; TestOrchestrator.TimerFires 8].

(** The samples one download stream hands to [addThroughputSample]
    outside warm-up: a bucket whenever at least [SAMPLE_INTERVAL] ms have
    passed since the last one, and the bucket left open at the end when
    the stream ends normally with bytes in it. *)
Fixpoint buckets (reads : list (Z * Z)) (lastSampleTime bucketBytes : Z)
  : list ThroughputSample * Z :=
  match reads with
  | [] => ([], bucketBytes)
  | (len, now) :: r =>
    if TestOrchestrator.SAMPLE_INTERVAL <=? now - lastSampleTime
    then let '(l, b) := buckets r now 0 in
         ({| bytes := bucketBytes + len; timestamp := now |} :: l, b)
    else buckets r lastSampleTime (bucketBytes + len)
  end.

Definition downloadSamples (s : TestOrchestrator.DownloadScript)
  : list ThroughputSample :=
  match TestOrchestrator.dlFetch s with
  | TestOrchestrator.FetchOk =>
    let '(l, b) := buckets (TestOrchestrator.dlReads s) (TestOrchestrator.dlStart s) 0 in
    match TestOrchestrator.dlEnd s with
    | TestOrchestrator.ReadDone now =>
      if 0 <? b then l ++ [{| bytes := b; timestamp := now |}] else l
    | TestOrchestrator.ReadFail _ => l
    end
  | _ => []
  end.





Definition measureDuration (env : TestOrchestrator.Env) : Z :=
  if TestOrchestrator.optionsDuration env =? 0
  then TestOrchestrator.MEASURE_DURATION
  else TestOrchestrator.optionsDuration env.


Definition sumZ (l : list Z) : Z := fold_right Z.add 0 l.



(** [o'] has emitted what [o] had, followed by events that end no run. *)
Definition extends (o o' : TestOrchestrator.t) : Prop :=
  exists evs,
    TestOrchestrator.emitted o' = TestOrchestrator.emitted o ++ evs
    /\ Forall (fun e => TestOrchestrator.terminal e = false) evs.

(** A task that emits no terminal event; one that never throws; one that
    throws nothing but an ordinary error. *)
Definition quiet (k : TestOrchestrator.Task) : Prop := forall o, extends o (k o).2.
Definition calm (k : TestOrchestrator.Task) : Prop :=
  forall o, (k o).1 = TestOrchestrator.Normal.
Definition tame (k : TestOrchestrator.Task) : Prop :=
  forall o, (k o).1 = TestOrchestrator.Normal
            \/ (k o).1 = TestOrchestrator.Throw TestOrchestrator.OtherError.

(** The awaited phases of [start], up to the final [emit]. *)
Definition phases (env : TestOrchestrator.Env) : TestOrchestrator.Task :=
  TestOrchestrator.andThen (TestOrchestrator.runDiscovery env)
  (TestOrchestrator.andThen (TestOrchestrator.startLatencyTest env)
  (TestOrchestrator.andThen (TestOrchestrator.runWarmup env)
  (TestOrchestrator.andThen (TestOrchestrator.runRamp env)
  (TestOrchestrator.andThen (TestOrchestrator.runMeasureDownload env (measureDuration env))
  (TestOrchestrator.andThen (TestOrchestrator.runMeasureUpload env (measureDuration env))
                            (TestOrchestrator.runCooldown env)))))).

(** The streams of a run against a healthy server: every download
    stream delivers two chunks 300 ms apart, every upload stream posts
    two chunks. *)
Definition steadyDownload (t0 : Z) : TestOrchestrator.DownloadScript :=
  {| TestOrchestrator.dlFetch := TestOrchestrator.FetchOk;
     TestOrchestrator.dlStart := t0;
     TestOrchestrator.dlReads := [(262144, t0 + 300); (262144, t0 + 600)];
     TestOrchestrator.dlEnd := TestOrchestrator.ReadDone (t0 + 700) |}.

Definition steadyUpload (t0 : Z) : TestOrchestrator.UploadScript :=
  {| TestOrchestrator.ulStart := t0;
     TestOrchestrator.ulTurns :=
       [ {| TestOrchestrator.ulNow := t0;
            TestOrchestrator.ulFetch := TestOrchestrator.FetchOk;
            TestOrchestrator.ulAfter := t0 + 40 |};
         {| TestOrchestrator.ulNow := t0 + 40;
            TestOrchestrator.ulFetch := TestOrchestrator.FetchOk;
            TestOrchestrator.ulAfter := t0 + 80 |};
         {| TestOrchestrator.ulNow := t0 + 5000;
            TestOrchestrator.ulFetch := TestOrchestrator.FetchOk;
            TestOrchestrator.ulAfter := t0 + 5040 |} ] |}.

Definition healthy (stopDuring : option TestOrchestrator.Stage) : TestOrchestrator.Env :=
  {| TestOrchestrator.capsOutcome := Some 2;
     TestOrchestrator.wsOpens := true;
     TestOrchestrator.warmupStreams := fun _ => steadyDownload 1000;
     TestOrchestrator.rampStreams := fun _ => steadyDownload 3000;
     TestOrchestrator.measureStreams := fun _ => steadyDownload 5000;
     TestOrchestrator.uploadStreams := fun _ => steadyUpload 10000;
     TestOrchestrator.optionsDuration := 0;
     TestOrchestrator.echoDuring := fun _ => [];
     TestOrchestrator.stopDuring := stopDuring |}.

End Scenario.

(** ** metricsCalculator.js: the snapshot and sequences of calls *)

Module Snapshot.
Import MetricsCalculator.

Record Metrics := {
  throughput : ThroughputMetrics;
  latency : LatencyMetrics;
  jitter : JitterMetrics;
  packetLoss : Q;
  stability : Z
}.

(** [getMetrics()] *)
Definition getMetrics (m : MetricsCalculator.t) : option Metrics :=
  th ← calculateThroughput m defaultWarmupMs;
  la ← calculateLatency m;
  ji ← calculateJitter m;
  st ← calculateStability m defaultWarmupMs;
  Some {| throughput := th; latency := la; jitter := ji;
          packetLoss := calculatePacketLoss m; stability := st |}.

(** The mutating methods of the calculator. *)
Inductive Call :=
  | AddThroughputSample (b ts : Z)
  | AddRttSample (r ts : Z)
  | AddLostEcho
  | Reset.

Definition call (m : MetricsCalculator.t) (c : Call) : MetricsCalculator.t :=
  match c with
  | AddThroughputSample b ts => addThroughputSample m b ts
  | AddRttSample r ts => addRttSample m r ts
  | AddLostEcho => addLostEcho m
  | Reset => MetricsCalculator.reset
  end.

(** A calculator as constructed, after a sequence of calls. *)
Definition after (cs : list Call) : MetricsCalculator.t :=
  fold_left call cs MetricsCalculator.reset.

(** The greatest of a list of integers, [0] for none. *)
Definition greatest (l : list Z) : Z := fold_right Z.max 0 l.

End Snapshot.

(** ** testOrchestrator.js: [getProgress] *)

Module Progress.

(** The durations of [PHASES], in the order of the object's keys. *)
Definition PHASES : list Z :=
  [1000; TestOrchestrator.WARMUP_DURATION; TestOrchestrator.RAMP_DURATION;
   TestOrchestrator.MEASURE_DURATION; TestOrchestrator.COOLDOWN_DURATION].

Definition totalDuration : Z :=
  fold_left Z.add PHASES 0 + TestOrchestrator.MEASURE_DURATION.

(** [getProgress()]: [startTime] is [this.startTime] ([None] for [null]),
    [now] is [Date.now()]. *)
Definition getProgress (startTime : option Z) (now : Z) : Q :=
  match startTime with
  | None => 0%Q
  | Some st =>
    if st =? 0 then 0%Q
    else Qmin 100 (inject_Z (now - st) / inject_Z totalDuration * 100)%Q
  end.

End Progress.

(** ** backend/server.js: connection tracking *)

Module Connections.

(** [activeConnections] and the [ipConnections] map. *)
Record t := {
  activeConnections : Z;
  ipConnections : gmap string Z
}.

Definition empty : t := {| activeConnections := 0; ipConnections := ∅ |}.

(** [ipConnections.get(ip) || 0] *)
Definition countOf (ip : string) (c : t) : Z :=
  match ipConnections c !! ip with
  | Some n => if n =? 0 then 0 else n
  | None => 0
  end.

Definition checkRateLimit (maxConcurrency : Z) (ip : string) (c : t) : bool :=
  countOf ip c <? maxConcurrency.

Definition incrementConnection (ip : string) (c : t) : t :=
  {| activeConnections := activeConnections c + 1;
     ipConnections := <[ip := countOf ip c + 1]> (ipConnections c) |}.

Definition decrementConnection (ip : string) (c : t) : t :=
  let count := countOf ip c in
  {| activeConnections := activeConnections c - 1;
     ipConnections :=
       if count <=? 1 then delete ip (ipConnections c)
       else <[ip := count - 1]> (ipConnections c) |}.

(** What the handlers do to the tracker: a request from [ip] arrives
    (it is admitted and counted, or refused with 429 and not counted),
    or an admitted request of [ip] reaches one of its terminal paths. *)
Inductive Event := Arrives (ip : string) | Finishes (ip : string).

Definition step (maxConcurrency : Z) (c : t) (e : Event) : t :=
  match e with
  | Arrives ip =>
    if checkRateLimit maxConcurrency ip c then incrementConnection ip c else c
  | Finishes ip => decrementConnection ip c
  end.

(** The requests of [ip] admitted by a trace and not yet finished; a
    trace is orderly when nothing finishes that was not admitted. *)
Fixpoint orderlyFrom (maxConcurrency : Z) (c : t) (tr : list Event) : bool :=
  match tr with
  | [] => true
  | Arrives ip :: r => orderlyFrom maxConcurrency (step maxConcurrency c (Arrives ip)) r
  | Finishes ip :: r =>
    (0 <? countOf ip c)
    && orderlyFrom maxConcurrency (step maxConcurrency c (Finishes ip)) r
  end.

Definition run (maxConcurrency : Z) (tr : list Event) : t :=
  fold_left (step maxConcurrency) tr empty.

(** Every stored count is at least one, and the total is their sum. *)
Definition sound (c : t) : Prop :=
  map_Forall (fun _ n => 1 <= n) (ipConnections c)
  /\ activeConnections c = map_fold (fun _ n acc => n + acc) 0 (ipConnections c).

End Connections.

(** ** backend/server-secure.js *)

Module SecureServer.

(** A query parameter that [parseInt] is applied to: absent, or present
    with the result of [parseInt] ([None] for NaN). *)
Inductive Seconds := Absent | Present (parsed : option Z).

Inductive Verdict := Next | BadRequest.

Definition alphanumericOrHyphen (a : Ascii.ascii) : bool :=
  let n := Ascii.nat_of_ascii a in
  ((97 <=? n) && (n <=? 122))%nat || ((65 <=? n) && (n <=? 90))%nat
  || ((48 <=? n) && (n <=? 57))%nat || (n =? 45)%nat.

(** [/^[a-zA-Z0-9-]{1,50}$/.test(streamId)] *)
Definition streamIdMatches (streamId : string) : bool :=
  let cs := String.list_ascii_of_string streamId in
  ((1 <=? length cs) && (length cs <=? 50))%nat && forallb alphanumericOrHyphen cs.

(** [validateTestParams] *)
Definition validateTestParams (seconds : Seconds) (streamId : option string) : Verdict :=
  let secondsOk :=
    match seconds with
    | Absent => true
    | Present None => false
    | Present (Some sec) => negb ((sec <? 1) || (120 <? sec))
    end in
  if secondsOk
  then match streamId with
       | None => Next
       | Some id => if streamIdMatches id then Next else BadRequest
       end
  else BadRequest.

(** What [parseInt(req.query.seconds)] gives the handler. *)
Definition parsedSeconds (seconds : Seconds) : option Z :=
  match seconds with Absent => None | Present p => p end.

(** The [sendChunk] of the secure server: no byte ceiling, always the
    whole buffer. *)
Fixpoint sendChunk (endTime : Z) (ticks : list Server.Tick) (bytesSent : Z)
    (writes : list Z) : Server.Loop :=
  match ticks with
  | [] => Server.Running bytesSent writes
  | k :: r =>
    if (endTime <=? Server.now k) || Server.writableEnded k
    then Server.Stopped bytesSent writes
    else sendChunk endTime r (bytesSent + Server.CHUNK_SIZE)
           (writes ++ [Server.CHUNK_SIZE])
  end.

(** The [/download] route for a request that the rate limits admit:
    the validator, then the handler. *)
Definition download (seconds : Seconds) (streamId : option string)
    (requestTime : Z) (ticks : list Server.Tick) : option Server.Loop :=
  match validateTestParams seconds streamId with
  | BadRequest => None
  | Next =>
    Some (sendChunk (requestTime + Server.downloadSeconds (parsedSeconds seconds) * 1000)
            ticks 0 [])
  end.

End SecureServer.

(** ** testOrchestrator.js: what a run reports *)

Module Reports.
Import TestOrchestrator.

(** The phases announced by a log of events, oldest first. *)
Definition phaseChanges (evs : list Emitted) : list Phase :=
  omap (fun e => match e with PhaseChange p => Some p | _ => None end) evs.

Definition allPhases : list Phase :=
  [discovery; warmup; ramp; measure_download; measure_upload; cooldown].

(** From [o] to [o'] the echo bookkeeping stayed consistent and the
    phases [ps] were announced, in this order. *)
Definition advances (ps : list Phase) (o o' : t) : Prop :=
  (Scenario.EchoInv o -> Scenario.EchoInv o')
  /\ phaseChanges (emitted o') = phaseChanges (emitted o) ++ ps.

Definition marks (ps : list Phase) (k : Task) : Prop :=
  forall o, advances ps o (k o).2.

(** No probe is pending and the echo interval is not armed. *)
Definition idle (o : t) : Prop := pendingEchoes o = ∅ /\ echoTimer o = false.

(** The bytes of all throughput samples recorded so far. *)
Definition recordedBytes (o : t) : Z :=
  Scenario.sumZ (map MetricsCalculator.bytes
                   (MetricsCalculator.throughputSamples (metrics o))).

(** Did discovery and the WebSocket connection succeed? *)
Definition connected (env : Env) : bool :=
  match capsOutcome env with Some _ => wsOpens env | None => false end.

End Reports.

(** ** backend: the life of an upload request *)

Module Requests.
Import Server.

(** How a request ends: its body is received in full (['end'], then
    ['close']), or the connection goes away first (['close'] only). *)
Inductive Ending := Completes (now : Z) | Aborts.

Definition lifecycle (chunks : list Z) (e : Ending) : list ReqEvent :=
  map Data chunks
  ++ match e with Completes now => [End now; Close] | Aborts => [Close] end.

(** Does the running total of the chunk lengths, starting from
    [received], ever exceed [maxBytes]? *)
Fixpoint overruns (maxBytes received : Z) (chunks : list Z) : bool :=
  match chunks with
  | [] => false
  | c :: r => (maxBytes <? received + c) || overruns maxBytes (received + c) r
  end.

(** The ticks of a download during which the time is not up and the
    response is still open. *)
Definition unimpeded (endTime : Z) (ticks : list Tick) : Prop :=
  Forall (fun k => now k < endTime /\ writableEnded k = false) ticks.

End Requests.

(** ** services/api.js: what the client asks of [/download] *)

Module Api.

(** [Math.ceil(duration / 1000)] in [runDownloadStreams] *)
Definition durationSec (duration : Z) : Z :=
  Qceiling (inject_Z duration / inject_Z 1000).

(** The query of [createDownloadStream(durationSec, streamId, signal)]
    as the server reads it: the template literal prints both numbers in
    decimal, and [parseInt] reads the first one back. *)
Definition downloadQuery (duration : Z) (streamId : nat)
  : SecureServer.Seconds * option string :=
  (SecureServer.Present (Some (durationSec duration)), Some (pretty streamId)).

End Api.

(** ** backend: the generator of the download payload *)

Module FastPRNG.

(** [ToInt32] and [ToUint32] of a number that holds an integer. *)
Definition toInt32 (x : Z) : Z := (x + 2 ^ 31) mod 2 ^ 32 - 2 ^ 31.
Definition toUint32 (x : Z) : Z := x mod 2 ^ 32.

(** [x << n], [x >>> n] and [x ^ y] *)
Definition shl (x n : Z) : Z := toInt32 (Z.shiftl (toInt32 x) n).
Definition shru (x n : Z) : Z := Z.shiftr (toUint32 x) n.
Definition xor (x y : Z) : Z := Z.lxor (toInt32 x) (toInt32 y).

Record t := { state0 : Z; state1 : Z }.

(** [new FastPRNG(seed)], for an integer seed such as [Date.now()] *)
Definition new (seed : Z) : t := {| state0 := seed; state1 := seed * 2 + 1 |}.

(** The four xor-shift lines of [next()], applied to the local [s1]
    (the old [state0]) with [s0] (the old [state1]). *)
Definition mix (s1 s0 : Z) : Z :=
  let s1 := xor s1 (shl s1 23) in
  let s1 := xor s1 (shru s1 17) in
  let s1 := xor s1 s0 in
  xor s1 (shru s0 26).

(** The two assignments of [next()]: [this.state0 = s0] and
    [this.state1 = s1]. *)
Definition step (g : t) : t :=
  {| state0 := state1 g; state1 := mix (state0 g) (state1 g) |}.




End FastPRNG.

(** * Facts *)

Import Scenario.

Import MetricsCalculator.

(** ** Stable insertion sort *)

Section SortFacts.
Context {A : Type} (leb : A -> A -> bool).
Hypothesis leb_total : forall x y, leb x y = false -> leb y x = true.
Hypothesis leb_trans :
  forall x y z, leb x y = true -> leb y z = true -> leb x z = true.
Local Abbreviation le := (Js.ordered leb).

Lemma insert_perm x l : Permutation (x :: l) (Js.insert leb x l).
Proof.
  induction l as [|y r IH]; simpl; [done|].
  destruct (leb x y); [done|].
  rewrite perm_swap. by constructor.
Qed.

Lemma sort_perm l : Permutation l (Js.sort leb l).
Proof.
  induction l as [|x r IH]; simpl; [done|].
  rewrite <- insert_perm. by constructor.
Qed.

Lemma sort_length l : length (Js.sort leb l) = length l.
Proof. symmetry. apply Permutation_length, sort_perm. Qed.

Lemma insert_sorted x l :
  StronglySorted le l -> StronglySorted le (Js.insert leb x l).
Proof.
  induction 1 as [|y r Hs IH Hall]; simpl.
  - repeat constructor.
  - destruct (leb x y) eqn:E.
    + constructor; [by constructor|].
      constructor; [exact E|].
      eapply Forall_impl; [exact Hall|].
      intros z Hz. unfold le in *. by eapply leb_trans.
    + constructor; [exact IH|].
      rewrite <- insert_perm. constructor; [|exact Hall].
      by apply leb_total.
Qed.

Lemma sort_sorted l : StronglySorted le (Js.sort leb l).
Proof.
  induction l as [|x r IH]; simpl; [constructor|].
  by apply insert_sorted.
Qed.
End SortFacts.

Lemma byTimestamp_total x y : byTimestamp x y = false -> byTimestamp y x = true.
Proof. unfold byTimestamp. lia. Qed.

Lemma byTimestamp_trans x y z :
  byTimestamp x y = true -> byTimestamp y z = true -> byTimestamp x z = true.
Proof. unfold byTimestamp. lia. Qed.

Lemma numerically_total x y : numerically x y = false -> numerically y x = true.
Proof.
  unfold numerically. intros H. apply Qle_bool_iff.
  destruct (Qlt_le_dec y x) as [Hlt|Hle]; [by apply Qlt_le_weak|].
  apply Qle_bool_iff in Hle. congruence.
Qed.

Lemma numerically_trans x y z :
  numerically x y = true -> numerically y z = true -> numerically x z = true.
Proof.
  unfold numerically. rewrite !Qle_bool_iff. apply Qle_trans.
Qed.

(** ** Array reads *)

Lemma aget_in_range {A} (l : list A) (i : Z) :
  0 <= i < Z.of_nat (length l) -> exists x, Js.aget l i = Some x /\ In x l.
Proof.
  intros [H0 H1]. unfold Js.aget.
  destruct (i <? 0) eqn:E; [lia|].
  destruct (nth_error l (Z.to_nat i)) as [x|] eqn:En.
  - exists x. split; [done|]. by eapply nth_error_In.
  - apply nth_error_None in En. lia.
Qed.

Lemma aget_zero {A} (l : list A) : Js.aget l 0 = head l.
Proof. by destruct l. Qed.

Lemma aget_last {A} (l : list A) :
  l <> [] -> Js.aget l (Z.of_nat (length l) - 1) = last l.
Proof.
  intros Hne. unfold Js.aget.
  destruct l as [|x r]; [done|].
  destruct (_ <? 0) eqn:E; [apply Z.ltb_lt in E; cbn [length] in E; lia|].
  replace (Z.to_nat (Z.of_nat (length (x :: r)) - 1)) with (length r)
    by (cbn [length]; lia).
  clear E Hne. revert x. induction r as [|y r IH]; intros x; [done|].
  simpl. rewrite <- (IH y). done.
Qed.

(** ** The fractional index *)

Lemma fractionalIndex_bounds (L : nat) (p : Q) :
  (0 < L)%nat -> (0 <= p <= 100)%Q ->
  (0 <= Spec.fractionalIndex L p <= inject_Z (Z.of_nat L - 1))%Q.
Proof.
  intros HL [Hp0 Hp1]. unfold Spec.fractionalIndex.
  assert (inject_Z (Z.of_nat L) - 1 == inject_Z (Z.of_nat L - 1))%Q as ->.
  { unfold Z.sub. rewrite inject_Z_plus. reflexivity. }
  assert (0 <= inject_Z (Z.of_nat L - 1))%Q as Hn.
  { change 0%Q with (inject_Z 0). rewrite <- Zle_Qle. lia. }
  assert (0 <= p / 100 <= 1)%Q as [Hq0 Hq1].
  { split.
    - apply Qle_shift_div_l; [reflexivity|]. lra.
    - apply Qle_shift_div_r; [reflexivity|]. lra. }
  split.
  - by apply Qmult_le_0_compat.
  - rewrite <- (Qmult_1_l (inject_Z (Z.of_nat L - 1))) at 2.
    by apply Qmult_le_compat_r.
Qed.

Lemma floor_ceiling_in_range (L : nat) (i : Q) :
  (0 <= i <= inject_Z (Z.of_nat L - 1))%Q ->
  0 <= Qfloor i <= Z.of_nat L - 1 /\ 0 <= Qceiling i <= Z.of_nat L - 1.
Proof.
  intros [H0 H1].
  pose proof (Qfloor_resp_le _ _ H0) as F0.
  pose proof (Qfloor_resp_le _ _ H1) as F1.
  pose proof (Qceiling_resp_le _ _ H0) as C0.
  pose proof (Qceiling_resp_le _ _ H1) as C1.
  rewrite Qfloor_Z in F1. rewrite Qceiling_Z in C1.
  change 0%Q with (inject_Z 0) in F0, C0.
  rewrite Qfloor_Z in F0. rewrite Qceiling_Z in C0.
  lia.
Qed.

Lemma integral_floor_ceiling (i : Q) (z : Z) :
  (i == inject_Z z)%Q -> Qfloor i = z /\ Qceiling i = z.
Proof.
  intros ->. by rewrite Qfloor_Z, Qceiling_Z.
Qed.

(** ** percentile *)

Lemma percentile_long (l : list Q) (p : Q) :
  (2 <= length l)%nat -> (0 <= p <= 100)%Q ->
  let i := Spec.fractionalIndex (length l) p in
  let w := (i - inject_Z (Qfloor i))%Q in
  exists a b,
    Js.aget l (Qfloor i) = Some a /\ In a l /\
    Js.aget l (Qceiling i) = Some b /\ In b l /\
    percentile l p = Some (a * (1 - w) + b * w)%Q.
Proof.
  intros HL Hp i w.
  assert (0 < length l)%nat as HL0 by lia.
  pose proof (fractionalIndex_bounds _ _ HL0 Hp) as Hi.
  destruct (floor_ceiling_in_range _ _ Hi) as [Hf Hc].
  destruct (aget_in_range l (Qfloor i)) as (a & Ha & Hina); [fold i in Hf; lia|].
  destruct (aget_in_range l (Qceiling i)) as (b & Hb & Hinb); [fold i in Hc; lia|].
  exists a, b. repeat split; try done.
  destruct l as [|x [|y r]]; [simpl in HL; lia..|].
  unfold percentile. fold (Spec.fractionalIndex (length (x :: y :: r)) p).
  fold i. rewrite Ha. simpl. rewrite Hb. done.
Qed.

Lemma sorted_head_least (l : list Q) (x : Q) :
  Sorted Qle l -> head l = Some x -> Forall (fun y => (x <= y)%Q) l.
Proof.
  intros Hs Hh.
  apply (Sorted_StronglySorted (fun a b c => Qle_trans a b c)) in Hs.
  destruct l as [|z r]; [done|]. simpl in Hh. injection Hh as ->.
  inversion Hs; subst. constructor; [apply Qle_refl|done].
Qed.

Lemma sorted_last_greatest (l : list Q) (x : Q) :
  Sorted Qle l -> last l = Some x -> Forall (fun y => (y <= x)%Q) l.
Proof.
  intros Hs.
  apply (Sorted_StronglySorted (fun a b c => Qle_trans a b c)) in Hs.
  induction Hs as [|z r Hs IH Hall]; intros Hl; [done|].
  destruct r as [|z' r'].
  - simpl in Hl. injection Hl as ->. constructor; [apply Qle_refl|done].
  - assert (last (z' :: r') = Some x) as Hl' by exact Hl.
    specialize (IH Hl'). constructor; [|done].
    inversion Hall; subst. inversion IH; subst. by eapply Qle_trans.
Qed.

(** C2.  On a non-empty ascending list and for [p] in [[0,100]],
    [percentile] reads the elements at the floor and the ceiling of the
    fractional index [p/100 * (L-1)] and returns their linear
    interpolation by the fractional weight, which is the element itself
    when the index is integral; [p = 0] gives the minimum, [p = 100] the
    maximum, and a one-element list gives its element for every [p]. *)
Theorem percentile_interpolates (l : list Q) (p : Q) :
  Sorted Qle l -> l <> [] -> (0 <= p <= 100)%Q ->
  exists v, percentile l p = Some v
    /\ (exists v', Spec.percentile l p = Some v' /\ (v == v')%Q)
    /\ ((p == 0)%Q ->
        (exists x, head l = Some x /\ (v == x)%Q) /\ Forall (fun y => (v <= y)%Q) l)
    /\ ((p == 100)%Q ->
        (exists x, last l = Some x /\ (v == x)%Q) /\ Forall (fun y => (y <= v)%Q) l)
    /\ (forall x q, l = [x] -> percentile l q = Some x).
Proof.
  intros Hs Hne Hp.
  destruct l as [|x [|y r]]; [done| |].
  - (* one element *)
    exists x. split; [done|].
    assert (Spec.fractionalIndex 1 p == inject_Z 0)%Q as Hi.
    { unfold Spec.fractionalIndex. simpl. ring. }
    destruct (integral_floor_ceiling _ _ Hi) as [Hf Hc].
    split.
    { exists x. split; [|reflexivity].
      unfold Spec.percentile. cbn [length]. rewrite Hf.
      assert (Qeq_bool (inject_Z 0) (Spec.fractionalIndex 1 p) = true) as ->.
      { apply Qeq_bool_iff. by symmetry. }
      done. }
    split; [|split].
    + intros _. split; [by exists x|]. constructor; [apply Qle_refl|done].
    + intros _. split; [by exists x|]. constructor; [apply Qle_refl|done].
    + intros x' q [= <-]. done.
  - (* two or more elements *)
    set (l := x :: y :: r) in *.
    assert (2 <= length l)%nat as HL by (subst l; simpl; lia).
    destruct (percentile_long l p HL Hp) as (a & b & Ha & _ & Hb & _ & Hv).
    set (i := Spec.fractionalIndex (length l) p) in *.
    set (w := (i - inject_Z (Qfloor i))%Q) in *.
    exists (a * (1 - w) + b * w)%Q. split; [exact Hv|].
    assert (forall z, (i == inject_Z z)%Q ->
              (a * (1 - w) + b * w == a)%Q /\ Js.aget l z = Some a) as Hint.
    { intros z Hz. destruct (integral_floor_ceiling _ _ Hz) as [Hf _].
      split; [|by rewrite <- Hf].
      assert (w == 0)%Q as ->; [|ring].
      unfold w. rewrite Hf, Hz. ring. }
    split; [|split; [|split]].
    + unfold Spec.percentile. fold i.
      destruct (Qeq_bool (inject_Z (Qfloor i)) i) eqn:E.
      * apply Qeq_bool_iff in E. symmetry in E.
        destruct (Hint _ E) as [Hva _].
        exists a. split; [exact Ha|exact Hva].
      * rewrite Ha, Hb.
        exists (a + w * (b - a))%Q. split; [reflexivity|ring].
    + intros Hp0.
      assert (i == inject_Z 0)%Q as Hi.
      { unfold i, Spec.fractionalIndex. rewrite Hp0.
        change (inject_Z 0) with 0%Q. unfold Qdiv. ring. }
      destruct (Hint _ Hi) as [Hva Hget].
      rewrite aget_zero in Hget.
      split; [exists a; by split|].
      eapply Forall_impl; [by apply (sorted_head_least l a)|].
      intros z Hz. simpl in Hz. by rewrite Hva.
    + intros Hp1.
      assert (i == inject_Z (Z.of_nat (length l) - 1))%Q as Hi.
      { unfold i, Spec.fractionalIndex. rewrite Hp1.
        unfold Z.sub. rewrite inject_Z_plus.
        change (inject_Z (- (1))) with (- (1))%Q. field. }
      destruct (Hint _ Hi) as [Hva Hget].
      rewrite aget_last in Hget by done.
      split; [exists a; by split|].
      eapply Forall_impl; [by apply (sorted_last_greatest l a)|].
      intros z Hz. simpl in Hz. by rewrite Hva.
    + intros x' q Heq. subst l. discriminate.
Qed.

Lemma percentile_interpolates_witness :
  exists v, percentile [1; 2; 4]%Q 75 = Some v
    /\ (exists v', Spec.percentile [1; 2; 4]%Q 75 = Some v' /\ (v == v')%Q)
    /\ ((75 == 0)%Q ->
        (exists x, head [1; 2; 4]%Q = Some x /\ (v == x)%Q)
        /\ Forall (fun y => (v <= y)%Q) [1; 2; 4]%Q)
    /\ ((75 == 100)%Q ->
        (exists x, last [1; 2; 4]%Q = Some x /\ (v == x)%Q)
        /\ Forall (fun y => (y <= v)%Q) [1; 2; 4]%Q)
    /\ (forall x q, [1; 2; 4]%Q = [x] -> percentile [1; 2; 4]%Q q = Some x).
Proof.
  apply (percentile_interpolates [1; 2; 4]%Q 75).
  - repeat constructor; discriminate.
  - discriminate.
  - split; discriminate.
Defined.

(** ** Rolling windows *)









Lemma sorted_nodup_strict l :
  StronglySorted tsLe l -> NoDup (map timestamp l) -> StronglySorted tsLt l.
Proof.
  induction 1 as [|a r Hs IH Hall]; intros Hnd; [constructor|].
  simpl in Hnd. apply NoDup_cons in Hnd as [Hnotin Hnd].
  constructor; [by apply IH|].
  apply List.Forall_forall. intros s Hin.
  rewrite List.Forall_forall in Hall. specialize (Hall _ Hin).
  unfold tsLe, byTimestamp in Hall. unfold tsLt.
  destruct (decide (timestamp a = timestamp s)) as [Heq|Hne]; [|lia].
  exfalso. apply Hnotin. rewrite Heq. apply list_elem_of_In.
  by apply List.in_map.
Qed.





(** The summary depends on the order in which tied samples arrive. *)
Example calculateThroughput_order_matters :
  Permutation (throughputSamples tiedSamples) (throughputSamples tiedSamplesSwapped)
  /\ exists a b,
      calculateThroughput tiedSamples defaultWarmupMs = Some a
      /\ calculateThroughput tiedSamplesSwapped defaultWarmupMs = Some b
      /\ ~ (medianMbps a == medianMbps b)%Q.
Proof.
  split.
  - unfold tiedSamples, tiedSamplesSwapped. simpl. constructor. apply perm_swap.
  - eexists _, _. split; [vm_compute; reflexivity|].
    split; [vm_compute; reflexivity|].
    intros H. vm_compute in H. discriminate.
Qed.

(** What survives the warm-up discard: the samples whose timestamp is at
    least [warmupMs] after the earliest timestamp. *)
Lemma measuredOf_keeps samples warmupMs s :
  In s (measuredOf samples warmupMs)
  <-> In s samples
      /\ exists first, In first samples
           /\ Forall (fun x => timestamp first <= timestamp x) samples
           /\ timestamp first + warmupMs <= timestamp s.
Proof.
  unfold measuredOf.
  pose proof (sort_perm byTimestamp samples) as Hperm.
  pose proof (sort_sorted byTimestamp byTimestamp_total byTimestamp_trans samples) as Hs.
  destruct (Js.sort byTimestamp samples) as [|first rest] eqn:E.
  { apply Permutation_nil_r in Hperm. subst samples. simpl.
    split; [done|]. by intros [[] _]. }
  assert (Forall (fun x => timestamp first <= timestamp x) samples) as Hmin.
  { rewrite Hperm. inversion Hs as [|? ? _ Hall]; subst.
    constructor; [lia|]. eapply Forall_impl; [exact Hall|].
    intros x Hx. unfold Js.ordered, byTimestamp in Hx. lia. }
  assert (In first samples) as Hfirst.
  { eapply Permutation_in; [symmetry; exact Hperm|by left]. }
  rewrite List.filter_In. split.
  - intros [Hin Hge]. split.
    + eapply Permutation_in; [symmetry; exact Hperm|exact Hin].
    + exists first. repeat split; try done. lia.
  - intros [Hin (f & Hf & Hfmin & Hge)]. split.
    + eapply Permutation_in; [exact Hperm|exact Hin].
    + rewrite List.Forall_forall in Hmin, Hfmin.
      specialize (Hmin f Hf). specialize (Hfmin first Hfirst). lia.
Qed.




(** ** Jitter *)

Lemma feed_positive_from (m : MetricsCalculator.t) (rtts : list Z) :
  0 < lastRtt m -> Forall (fun r => 0 < r) rtts ->
  let m' := fold_left (fun m r => addRttSample m r 0) rtts m in
  jitterEstimate m' = Spec.jitterFrom (lastRtt m) (jitterEstimate m) rtts
  /\ jitterSamples m' = jitterSamples m ++ Spec.differencesFrom (lastRtt m) rtts.
Proof.
  intros Hlast Hpos. revert m Hlast.
  induction Hpos as [|r rest Hr _ IH]; intros m Hlast; simpl.
  - by rewrite List.app_nil_r.
  - destruct (IH (addRttSample m r 0)) as [He Hs]; [exact Hr|].
    rewrite He, Hs. clear IH He Hs. simpl.
    assert ((0 <? lastRtt m) = true) as -> by lia.
    split; [done|]. by rewrite <- List.app_assoc.
Qed.

(** With strictly positive RTTs the estimate follows the recurrence of
    the specification. *)
Lemma feed_positive (rtts : list Z) :
  Forall (fun r => 0 < r) rtts ->
  jitterEstimate (Spec.feed rtts) = Spec.jitter rtts
  /\ jitterSamples (Spec.feed rtts) = Spec.differences rtts.
Proof.
  intros Hpos. unfold Spec.feed.
  destruct Hpos as [|first rest Hfirst Hrest]; [done|].
  simpl.
  destruct (feed_positive_from (addRttSample MetricsCalculator.reset first 0) rest)
    as [He Hs]; [exact Hfirst|exact Hrest|].
  simpl in He, Hs. by rewrite He, Hs.
Qed.

Example jitter_steady : (jitterEstimate (Spec.feed [100; 100; 100]%Z) == 0)%Q.
Proof. reflexivity. Qed.

Example jitter_one_step : (jitterEstimate (Spec.feed [100; 200]%Z) == 625 # 100)%Q.
Proof. reflexivity. Qed.

(** C3.  A round trip of 0 ms is taken for "no previous sample": the
    sample that follows it contributes no difference and leaves the
    estimate where it was, whereas the recurrence of the claim gives
    D = 5 and an estimate of 5/16. *)
Theorem addRttSample_after_zero_rtt :
  jitterEstimate (Spec.feed [0; 5]) = 0%Q
  /\ jitterSamples (Spec.feed [0; 5]) = []
  /\ (Spec.jitter [0; 5]%Z == 5 # 16)%Q
  /\ Spec.differences [0; 5] = [5]
  /\ jitterSamples (Spec.feed [100; 0; 50]) = [100]
  /\ Spec.differences [100; 0; 50] = [100; 50].
Proof. repeat split; reflexivity. Qed.

Lemma percentile_total (l : list Q) (p : Q) :
  (0 <= p <= 100)%Q -> exists v, percentile l p = Some v /\ (l <> [] -> In v l \/ (2 <= length l)%nat).
Proof.
  intros Hp. destruct l as [|x [|y r]].
  - exists 0%Q. by split.
  - exists x. split; [done|]. intros _. left. by left.
  - destruct (percentile_long (x :: y :: r) p) as (a & b & _ & _ & _ & _ & Hv);
      [simpl; lia|done|].
    eexists. split; [exact Hv|]. intros _. right. simpl. lia.
Qed.

(** The reported mean is the running estimate and the reported p95 is the
    percentile of the whole sorted history of differences. *)
Lemma calculateJitter_reports (rtts : list Z) :
  let m := Spec.feed rtts in
  exists j, calculateJitter m = Some j
    /\ meanMs j = jitterEstimate m
    /\ percentile (Js.sort numerically (map inject_Z (jitterSamples m))) 95
       = Some (jitterP95Ms j).
Proof.
  intros m.
  assert (jitterSamples m = [] -> jitterEstimate m = 0%Q) as Hinv.
  { unfold m, Spec.feed.
    induction rtts as [|r rest IH] using rev_ind; [done|].
    rewrite fold_left_app. simpl.
    destruct (0 <? lastRtt _); [|exact IH].
    intros H. by apply List.app_eq_nil in H as [_ ?]. }
  unfold calculateJitter.
  destruct (jitterSamples m) as [|d ds] eqn:E.
  - eexists. split; [reflexivity|]. split; [by rewrite Hinv|done].
  - destruct (percentile_total
                (Js.sort numerically (map inject_Z (d :: ds))) 95) as (v & Hv & _).
    { split; discriminate. }
    rewrite Hv. by eexists.
Qed.

(** ** Totality of the summaries, and the sign of the average *)

Lemma sort_nonempty {A} (leb : A -> A -> bool) (l : list A) :
  l <> [] -> Js.sort leb l <> [].
Proof.
  intros Hne Hs. apply Hne.
  apply (f_equal (@length A)) in Hs. rewrite sort_length in Hs.
  by destruct l.
Qed.

Lemma sumQ_nonneg_from (l : list Q) (acc : Q) :
  (0 <= acc)%Q -> Forall (fun r => (0 <= r)%Q) l -> (0 <= fold_left Qplus l acc)%Q.
Proof.
  intros Hacc Hl. revert acc Hacc.
  induction Hl as [|x r Hx _ IH]; intros acc Hacc; simpl; [done|].
  apply IH. lra.
Qed.

Lemma toMbps_nonneg (b : Z) : 0 <= b -> (0 <= toMbps 1000 b)%Q.
Proof.
  intros Hb. unfold toMbps.
  assert (0 <= inject_Z (b * 8))%Q as H8.
  { change 0%Q with (inject_Z 0). rewrite <- Zle_Qle. lia. }
  apply Qle_shift_div_l; [reflexivity|].
  apply Qle_shift_div_l; [reflexivity|]. lra.
Qed.

Lemma bytesInWindowFrom_nonneg windowEnd acc l :
  0 <= acc -> Forall (fun s => 0 <= bytes s) l ->
  0 <= bytesInWindowFrom windowEnd acc l.
Proof.
  intros Hacc Hl. revert acc Hacc.
  induction Hl as [|s r Hs _ IH]; intros acc Hacc; simpl; [done|].
  destruct (timestamp s <? windowEnd); [apply IH; lia|done].
Qed.

Lemma windowRates_nonneg l :
  Forall (fun s => 0 <= bytes s) l ->
  Forall (fun r => (0 <= r)%Q) (windowRates 1000 l).
Proof.
  induction 1 as [|s r Hs Hr IH]; simpl; [constructor|].
  constructor; [|exact IH].
  apply toMbps_nonneg.
  destruct (timestamp s <? timestamp s + 1000); [|lia].
  apply bytesInWindowFrom_nonneg; [lia|done].
Qed.

Lemma measuredOf_forall (P : ThroughputSample -> Prop) samples warmupMs :
  Forall P samples -> Forall P (measuredOf samples warmupMs).
Proof.
  intros HP. unfold measuredOf.
  pose proof (sort_perm byTimestamp samples) as Hperm.
  destruct (Js.sort byTimestamp samples) as [|first rest]; [constructor|].
  apply List.Forall_forall. intros s Hs.
  apply List.filter_In in Hs as [Hs _].
  rewrite List.Forall_forall in HP. apply HP.
  eapply Permutation_in; [symmetry; exact Hperm|exact Hs].
Qed.

Lemma summarize_total (rates : list Q) :
  rates <> [] ->
  exists median p95 p99 mx,
    summarize rates
    = Some {| medianMbps := median; p95Mbps := p95; p99Mbps := p99;
              avgMbps := (sumQ (Js.sort numerically rates)
                          / inject_Z (Z.of_nat (length (Js.sort numerically rates))))%Q;
              maxMbps := mx |}.
Proof.
  intros Hne. unfold summarize.
  pose proof (sort_nonempty numerically rates Hne) as Hs.
  destruct (percentile_total (Js.sort numerically rates) 50) as (v50 & -> & _);
    [split; discriminate|].
  destruct (percentile_total (Js.sort numerically rates) 95) as (v95 & -> & _);
    [split; discriminate|].
  destruct (percentile_total (Js.sort numerically rates) 99) as (v99 & -> & _);
    [split; discriminate|].
  destruct (Js.sort numerically rates) as [|x r] eqn:E; [done|].
  simpl. by eexists _, _, _, _.
Qed.

Lemma average_nonneg (l : list Q) :
  Forall (fun r => (0 <= r)%Q) l ->
  (0 <= sumQ l / inject_Z (Z.of_nat (length l)))%Q.
Proof.
  intros Hl. destruct l as [|x r]; [discriminate|].
  apply Qle_shift_div_l.
  - change 0%Q with (inject_Z 0). rewrite <- Zlt_Qlt. cbn [length]. lia.
  - rewrite Qmult_0_l. apply sumQ_nonneg_from; [apply Qle_refl|done].
Qed.

Lemma calculateThroughput_total (m : MetricsCalculator.t) (warmupMs : Z) :
  windowSize m = 1000 ->
  Forall (fun s => 0 <= bytes s) (throughputSamples m) ->
  exists th, calculateThroughput m warmupMs = Some th /\ (0 <= avgMbps th)%Q.
Proof.
  intros Hw Hb. unfold calculateThroughput.
  pose proof (measuredOf_forall _ _ warmupMs Hb) as Hm.
  destruct (throughputSamples m) as [|s0 rest].
  { exists zeroThroughput. split; [done|apply Qle_refl]. }
  destruct (measuredOf (s0 :: rest) warmupMs) as [|a r] eqn:E.
  { exists zeroThroughput. split; [done|apply Qle_refl]. }
  rewrite Hw.
  destruct (summarize_total (windowRates 1000 (a :: r))) as (v50 & v95 & v99 & mx & Hsum);
    [done|].
  rewrite Hsum. eexists. split; [reflexivity|]. cbn [avgMbps].
  apply average_nonneg.
  pose proof (windowRates_nonneg _ Hm) as Hnn.
  apply List.Forall_forall. intros x Hx.
  rewrite List.Forall_forall in Hnn. apply Hnn.
  eapply Permutation_in; [symmetry; apply sort_perm|exact Hx].
Qed.

Lemma calculateLatency_total (m : MetricsCalculator.t) :
  exists la, calculateLatency m = Some la.
Proof.
  unfold calculateLatency.
  destruct (rttSamples m) as [|s0 rest]; [by eexists|].
  set (rtts := map _ (s0 :: rest)).
  assert (rtts <> []) as Hne by done.
  pose proof (sort_nonempty numerically rtts Hne) as Hs.
  destruct (aget_in_range (Js.sort numerically rtts) 0) as (mn & -> & _).
  { destruct (Js.sort numerically rtts); [done|]. cbn [length]. lia. }
  destruct (percentile_total (Js.sort numerically rtts) 50) as (v50 & -> & _);
    [split; discriminate|].
  destruct (percentile_total (Js.sort numerically rtts) 95) as (v95 & -> & _);
    [split; discriminate|].
  destruct (percentile_total (Js.sort numerically rtts) 99) as (v99 & -> & _);
    [split; discriminate|].
  by eexists.
Qed.

(** ** Stability *)

Lemma round_100 (score : Q) : (score == 100)%Q -> Js.round score = 100.
Proof. intros H. unfold Js.round. rewrite H. reflexivity. Qed.

Lemma clamp_no_penalty (p95 : Q) :
  (p95 == 0)%Q ->
  (Qmax 0 (Qmin 100 (100 - 0 * 100 - Qmin (p95 / 10) 50)) == 100)%Q.
Proof.
  intros Hp.
  assert (Qmin (p95 / 10) 50 == 0)%Q as Hpen.
  { rewrite Q.min_l; [rewrite Hp; reflexivity|]. rewrite Hp. discriminate. }
  assert (100 - 0 * 100 - Qmin (p95 / 10) 50 == 100)%Q as Hx.
  { rewrite Hpen. reflexivity. }
  assert (Qmin 100 (100 - 0 * 100 - Qmin (p95 / 10) 50) == 100)%Q as Hmin.
  { rewrite Q.min_l; [reflexivity|]. rewrite Hx. apply Qle_refl. }
  rewrite Q.max_r; [exact Hmin|]. rewrite Hmin. discriminate.
Qed.

(** C5.  On samples with non-negative byte counts the stability score is
    round(clamp(100 - cv*100 - penalty, 0, 100)) with
    cv = |median - avg| / avg (0 when avg is 0) and
    penalty = min(p95 RTT / 10, 50); an average of 0 with a p95 RTT of 0
    scores exactly 100. *)
Theorem calculateStability_formula (m : MetricsCalculator.t) (warmupMs : Z) :
  windowSize m = 1000 ->
  Forall (fun s => 0 <= bytes s) (throughputSamples m) ->
  exists th la,
    calculateThroughput m warmupMs = Some th
    /\ calculateLatency m = Some la
    /\ calculateStability m warmupMs
       = Some (Spec.stability (medianMbps th) (avgMbps th) (p95Ms la))
    /\ ((avgMbps th == 0)%Q -> (p95Ms la == 0)%Q ->
        calculateStability m warmupMs = Some 100).
Proof.
  intros Hw Hb.
  destruct (calculateThroughput_total m warmupMs Hw Hb) as (th & Hth & Havg).
  destruct (calculateLatency_total m) as (la & Hla).
  exists th, la. split; [exact Hth|]. split; [exact Hla|].
  assert (calculateStability m warmupMs
          = Some (Spec.stability (medianMbps th) (avgMbps th) (p95Ms la))) as Heq.
  { unfold calculateStability. rewrite Hth, Hla. cbn [mbind option_bind].
    unfold Spec.stability, Js.gt. do 2 f_equal. f_equal. f_equal. f_equal.
    f_equal.
    destruct (Qle_bool (avgMbps th) 0) eqn:Ele; cbn [negb].
    - apply Qle_bool_iff in Ele.
      assert (avgMbps th == 0)%Q as H0 by (by apply Qle_antisym).
      apply Qeq_bool_iff in H0. by rewrite H0.
    - destruct (Qeq_bool (avgMbps th) 0) eqn:Eeq; [|done].
      apply Qeq_bool_iff in Eeq.
      assert (Qle_bool (avgMbps th) 0 = true) as Habs.
      { apply Qle_bool_iff. rewrite Eeq. apply Qle_refl. }
      congruence. }
  split; [exact Heq|].
  intros H0 Hp. rewrite Heq. f_equal.
  unfold Spec.stability.
  apply Qeq_bool_iff in H0. rewrite H0.
  apply round_100. by apply clamp_no_penalty.
Qed.

Lemma calculateStability_formula_witness :
  exists th la,
    calculateThroughput spacedSamples 3000 = Some th
    /\ calculateLatency spacedSamples = Some la
    /\ calculateStability spacedSamples 3000
       = Some (Spec.stability (medianMbps th) (avgMbps th) (p95Ms la))
    /\ ((avgMbps th == 0)%Q -> (p95Ms la == 0)%Q ->
        calculateStability spacedSamples 3000 = Some 100).
Proof.
  apply (calculateStability_formula spacedSamples 3000).
  - reflexivity.
  - repeat constructor; vm_compute; discriminate.
Defined.

Example stability_of_nothing :
  calculateStability MetricsCalculator.reset defaultWarmupMs = Some 100.
Proof. reflexivity. Qed.

(** ** Echo bookkeeping *)

Section EchoFacts.
Import TestOrchestrator.

Lemma echoing_inv : EchoInv echoing.
Proof.
  split; simpl.
  - intros k pe H. by rewrite lookup_empty in H.
  - by rewrite dom_empty_L.
  - done.
  - rewrite map_size_empty. done.
Qed.

Lemma timeout_ids_are_keys (o : t) :
  EchoInv o -> map_img (timeoutId <$> pendingEchoes o) = dom (pendingEchoes o).
Proof.
  intros Hinv. apply set_eq. intros k.
  rewrite elem_of_map_img, elem_of_dom. split.
  - intros (i & Hi). apply lookup_fmap_Some in Hi as (pe & Hid & Hpe).
    destruct (inv_keys o Hinv i pe Hpe) as [_ Hk]. rewrite <- Hid, Hk. eauto.
  - intros (pe & Hpe). exists k. rewrite lookup_fmap, Hpe. simpl.
    destruct (inv_keys o Hinv k pe Hpe) as [_ Hk]. by rewrite Hk.
Qed.

Lemma sendEcho_inv now o : EchoInv o -> EchoInv (sendEcho now o).
Proof.
  intros Hinv.
  assert (pendingEchoes o !! echoSeq o = None) as Hfresh.
  { destruct (pendingEchoes o !! echoSeq o) as [pe|] eqn:E; [|done].
    destruct (inv_keys o Hinv _ _ E). lia. }
  split; unfold sendEcho; simpl.
  - intros k pe H. apply lookup_insert_Some in H as [[<- <-]|[Hne H]].
    + simpl. lia.
    + destruct (inv_keys o Hinv _ _ H). lia.
  - rewrite dom_insert_L. by rewrite (inv_timers o Hinv).
  - apply (inv_sent o Hinv).
  - rewrite map_size_insert_None by done.
    pose proof (inv_bound o Hinv). lia.
Qed.

Lemma handleEchoResponse_inv data receiveTime o :
  EchoInv o -> EchoInv (handleEchoResponse data receiveTime o).
Proof.
  intros Hinv. unfold handleEchoResponse.
  destruct data as [[seq sendTime]|]; [|done].
  destruct (pendingEchoes o !! seq) as [pe|] eqn:E; [|done].
  destruct (inv_keys o Hinv _ _ E) as [Hk Hid].
  split; simpl.
  - intros k pe' H. apply lookup_delete_Some in H as [Hne H].
    apply (inv_keys o Hinv _ _ H).
  - rewrite dom_delete_L, Hid. by rewrite (inv_timers o Hinv).
  - rewrite length_app. simpl. pose proof (inv_sent o Hinv). lia.
  - rewrite map_size_delete_Some by eauto.
    pose proof (inv_bound o Hinv).
    assert (size (pendingEchoes o) <> 0%nat).
    { apply map_size_non_empty_iff. intros Hemp. rewrite Hemp in E.
      by rewrite lookup_empty in E. }
    lia.
Qed.

Lemma fireTimer_inv id o : EchoInv o -> EchoInv (fireTimer id o).
Proof.
  intros Hinv. unfold fireTimer.
  destruct (decide (id ∈ timers o)) as [Hin|]; [|done].
  rewrite (inv_timers o Hinv) in Hin. apply elem_of_dom in Hin as [pe E].
  unfold echoTimeout. simpl. rewrite E.
  destruct (inv_keys o Hinv _ _ E) as [Hk Hid].
  split; simpl.
  - intros k pe' H. apply lookup_delete_Some in H as [Hne H].
    apply (inv_keys o Hinv _ _ H).
  - rewrite dom_delete_L. by rewrite (inv_timers o Hinv).
  - pose proof (inv_sent o Hinv). lia.
  - rewrite map_size_delete_Some by eauto.
    pose proof (inv_bound o Hinv).
    assert (size (pendingEchoes o) <> 0%nat).
    { apply map_size_non_empty_iff. intros Hemp. rewrite Hemp in E.
      by rewrite lookup_empty in E. }
    lia.
Qed.

Lemma cleanup_pending o :
  pendingEchoes (cleanup o) = ∅
  /\ timers (cleanup o) = timers o ∖ map_img (timeoutId <$> pendingEchoes o)
  /\ metrics (cleanup o) = metrics o
  /\ echoSeq (cleanup o) = echoSeq o
  /\ emitted (cleanup o) = emitted o
  /\ ws (cleanup o) = false
  /\ echoTimer (cleanup o) = false
  /\ abortController (cleanup o) = false
  /\ (ws o = true -> socket (cleanup o) = CLOSED)
  /\ (abortController o = true -> signalAborted (cleanup o) = true)
  /\ (signalAborted o = true -> signalAborted (cleanup o) = true).
Proof.
  unfold cleanup.
  destruct (ws o) eqn:Ews, (echoTimer o) eqn:Eet, (abortController o) eqn:Eac;
    simpl; rewrite ?Ews, ?Eet, ?Eac; simpl; rewrite ?Eet, ?Eac; simpl;
    rewrite ?Eac; simpl; repeat split; done.
Qed.

Lemma cleanup_inv o : EchoInv o -> EchoInv (cleanup o).
Proof.
  intros Hinv.
  destruct (cleanup_pending o) as (Hp & Ht & Hm & Hs & _).
  split; rewrite ?Hp, ?Ht, ?Hm, ?Hs.
  - intros k pe H. by rewrite lookup_empty in H.
  - rewrite timeout_ids_are_keys by done. rewrite (inv_timers o Hinv).
    rewrite dom_empty_L. apply difference_diag_L.
  - apply (inv_sent o Hinv).
  - rewrite map_size_empty. pose proof (inv_bound o Hinv). lia.
Qed.

Lemma echoStep_inv o e : EchoInv o -> EchoInv (echoStep o e).
Proof.
  intros Hinv. destruct e as [now|data receiveTime|id|]; simpl.
  - unfold echoTick. destruct (echoTimer o); [|done].
    destruct (ws o); [|done]. destruct (socket o); try done.
    by apply sendEcho_inv.
  - by apply handleEchoResponse_inv.
  - by apply fireTimer_inv.
  - by apply cleanup_inv.
Qed.

Lemma echoRun_inv tr o : EchoInv o -> EchoInv (echoRun o tr).
Proof.
  revert o. induction tr as [|e r IH]; intros o Hinv; [done|].
  simpl. apply IH. by apply echoStep_inv.
Qed.
End EchoFacts.

Section EchoOutcomes.
Import TestOrchestrator.

Lemma echoStep_idle seq o e :
  EchoInv o -> pendingEchoes o !! seq = None -> concerns seq e = true ->
  echoStep o e = o.
Proof.
  intros Hinv Hnone Hc.
  destruct e as [now|[[s sendTime]|] receiveTime|id|]; simpl in Hc; try done.
  - apply bool_decide_eq_true in Hc as ->. simpl. by rewrite Hnone.
  - apply bool_decide_eq_true in Hc as ->. simpl. unfold fireTimer.
    destruct (decide (seq ∈ timers o)) as [Hin|]; [|done].
    rewrite (inv_timers o Hinv) in Hin. apply elem_of_dom in Hin as [pe E].
    congruence.
Qed.

Lemma echoStep_resolved seq o e :
  EchoInv o -> pendingEchoes o !! seq = None -> seq < echoSeq o ->
  pendingEchoes (echoStep o e) !! seq = None /\ seq < echoSeq (echoStep o e).
Proof.
  intros Hinv Hnone Hlt.
  destruct e as [now|[[s sendTime]|] receiveTime|id|]; simpl; try done.
  - unfold echoTick. destruct (echoTimer o); [|done].
    destruct (ws o); [|done]. destruct (socket o); try done.
    unfold sendEcho. simpl. split; [|lia].
    rewrite lookup_insert_ne by lia. done.
  - destruct (pendingEchoes o !! s) as [pe|] eqn:E; [|done]. simpl.
    split; [|done]. apply lookup_delete_None. by right.
  - unfold fireTimer. destruct (decide (id ∈ timers o)); [|done].
    unfold echoTimeout. simpl.
    destruct (pendingEchoes o !! id) as [pe|] eqn:E; simpl; [|done].
    split; [|done]. apply lookup_delete_None. by right.
  - destruct (cleanup_pending o) as (Hp & _ & _ & Hs & _).
    rewrite Hp, Hs. split; [apply lookup_empty|done].
Qed.

Lemma outcomes_resolved seq tr o :
  EchoInv o -> pendingEchoes o !! seq = None -> seq < echoSeq o ->
  outcomes seq o tr = (0, 0).
Proof.
  revert o. induction tr as [|e r IH]; intros o Hinv Hnone Hlt; [done|].
  cbn [outcomes].
  destruct (echoStep_resolved seq o e Hinv Hnone Hlt) as [Hnone' Hlt'].
  rewrite (IH _ (echoStep_inv o e Hinv) Hnone' Hlt').
  destruct (concerns seq e) eqn:Hc; [|done].
  unfold rttDelta, lostDelta.
  rewrite (echoStep_idle seq o e Hinv Hnone Hc). f_equal; lia.
Qed.

Lemma response_resolves seq sendTime receiveTime pe o :
  EchoInv o -> pendingEchoes o !! seq = Some pe ->
  let e := Response (Some (seq, sendTime)) receiveTime in
  rttDelta o e = 1 /\ lostDelta o e = 0
  /\ pendingEchoes (echoStep o e) !! seq = None
  /\ (timeoutId pe ∉ timers (echoStep o e))
  /\ seq < echoSeq (echoStep o e).
Proof.
  intros Hinv E e. unfold rttDelta, lostDelta, e. simpl. rewrite E. simpl.
  destruct (inv_keys o Hinv _ _ E) as [Hlt Hid].
  rewrite length_app. simpl.
  repeat split; [lia|lia|apply lookup_delete_eq| |done].
  apply not_elem_of_difference. right. by apply elem_of_singleton.
Qed.

Lemma timeout_resolves seq pe o :
  EchoInv o -> pendingEchoes o !! seq = Some pe ->
  let e := TimerFires seq in
  rttDelta o e = 0 /\ lostDelta o e = 1
  /\ pendingEchoes (echoStep o e) !! seq = None
  /\ seq < echoSeq (echoStep o e).
Proof.
  intros Hinv E e. unfold rttDelta, lostDelta, e. simpl. unfold fireTimer.
  assert (seq ∈ timers o) as Hin.
  { rewrite (inv_timers o Hinv). apply elem_of_dom. eauto. }
  destruct (decide (seq ∈ timers o)); [|done].
  unfold echoTimeout. simpl. rewrite E. simpl.
  destruct (inv_keys o Hinv _ _ E) as [Hlt Hid].
  repeat split; [lia|lia|apply lookup_delete_eq|done].
Qed.

Lemma outcomes_exclusive seq tr o :
  EchoInv o ->
  outcomes seq o tr = (0, 0) \/ outcomes seq o tr = (1, 0)
  \/ outcomes seq o tr = (0, 1).
Proof.
  revert o. induction tr as [|e r IH]; intros o Hinv; [by left|].
  cbn [outcomes].
  destruct (concerns seq e) eqn:Hc.
  2:{ destruct (outcomes seq (echoStep o e) r) as [rs ls] eqn:Er.
      rewrite <- Er. apply IH. by apply echoStep_inv. }
  destruct (pendingEchoes o !! seq) as [pe|] eqn:E.
  - destruct e as [now|[[s sendTime]|] receiveTime|id|]; simpl in Hc; try done;
      apply bool_decide_eq_true in Hc as ->.
    + destruct (response_resolves seq sendTime receiveTime pe o Hinv E)
        as (Hr & Hl & Hnone & _ & Hlt).
      rewrite (outcomes_resolved seq r _ (echoStep_inv o _ Hinv) Hnone Hlt).
      rewrite Hr, Hl. right. by left.
    + destruct (timeout_resolves seq pe o Hinv E) as (Hr & Hl & Hnone & Hlt).
      rewrite (outcomes_resolved seq r _ (echoStep_inv o _ Hinv) Hnone Hlt).
      rewrite Hr, Hl. right. by right.
  - unfold rttDelta, lostDelta.
    rewrite (echoStep_idle seq o e Hinv E Hc).
    destruct (IH o Hinv) as [-> | [-> | ->]]; rewrite !Z.sub_diag; simpl; auto.
Qed.

(** C6.  Once probe [seq] is pending, a response that carries [seq]
    records exactly one RTT sample and no loss, whatever follows; the
    firing of its timer records exactly one loss and no RTT sample,
    whatever follows; a response whose sequence number is not pending
    changes nothing.  Over any run a probe never gets more than one of
    the two outcomes. *)
Theorem pendingEcho_single_outcome (tr0 : list EchoEvent) (seq : Z) (pe : PendingEcho) :
  let o := echoRun echoing tr0 in
  pendingEchoes o !! seq = Some pe ->
  (forall sendTime receiveTime tr',
      outcomes seq o (Response (Some (seq, sendTime)) receiveTime :: tr') = (1, 0)
      /\ (timeoutId pe
          ∉ timers (echoStep o (Response (Some (seq, sendTime)) receiveTime))))
  /\ (forall tr', outcomes seq o (TimerFires seq :: tr') = (0, 1))
  /\ (forall s sendTime receiveTime o',
      pendingEchoes o' !! s = None ->
      handleEchoResponse (Some (s, sendTime)) receiveTime o' = o')
  /\ (forall s tr,
      outcomes s echoing tr = (0, 0) \/ outcomes s echoing tr = (1, 0)
      \/ outcomes s echoing tr = (0, 1)).
Proof.
  intros o E.
  assert (EchoInv o) as Hinv by (apply echoRun_inv, echoing_inv).
  split; [|split; [|split]].
  - intros sendTime receiveTime tr'.
    destruct (response_resolves seq sendTime receiveTime pe o Hinv E)
      as (Hr & Hl & Hnone & Htimer & Hlt).
    split; [|exact Htimer].
    cbn [outcomes concerns]. rewrite bool_decide_eq_true_2 by done.
    rewrite (outcomes_resolved seq tr' _ (echoStep_inv o _ Hinv) Hnone Hlt).
    by rewrite Hr, Hl.
  - intros tr'.
    destruct (timeout_resolves seq pe o Hinv E) as (Hr & Hl & Hnone & Hlt).
    cbn [outcomes concerns]. rewrite bool_decide_eq_true_2 by done.
    rewrite (outcomes_resolved seq tr' _ (echoStep_inv o _ Hinv) Hnone Hlt).
    by rewrite Hr, Hl.
  - intros s sendTime receiveTime o' Hnone.
    unfold handleEchoResponse. by rewrite Hnone.
  - intros s tr. apply outcomes_exclusive, echoing_inv.
Qed.

Lemma pendingEcho_single_outcome_witness :
  (forall sendTime receiveTime tr',
      outcomes 0 (echoRun echoing [Tick 0])
        (Response (Some (0, sendTime)) receiveTime :: tr') = (1, 0)
      /\ (0 ∉ timers (echoStep (echoRun echoing [Tick 0])
                        (Response (Some (0, sendTime)) receiveTime))))
  /\ (forall tr', outcomes 0 (echoRun echoing [Tick 0]) (TimerFires 0 :: tr') = (0, 1))
  /\ (forall s sendTime receiveTime o',
      pendingEchoes o' !! s = None ->
      handleEchoResponse (Some (s, sendTime)) receiveTime o' = o')
  /\ (forall s tr,
      outcomes s echoing tr = (0, 0) \/ outcomes s echoing tr = (1, 0)
      \/ outcomes s echoing tr = (0, 1)).
Proof.
  apply (pendingEcho_single_outcome [Tick 0] 0
           {| sendTimestamp := 0; timeoutId := 0 |}).
  reflexivity.
Defined.
End EchoOutcomes.

Section PacketLoss.
Import TestOrchestrator.

Lemma size_positive {V} (m : gmap Z V) k v :
  m !! k = Some v -> (0 < size m)%nat.
Proof.
  intros E. assert (size m <> 0%nat); [|lia].
  apply map_size_non_empty_iff. intros Hemp. rewrite Hemp in E.
  by rewrite lookup_empty in E.
Qed.

Lemma echoStep_balanced o e :
  EchoInv o -> balanced o -> noCleanup e ->
  balanced (echoStep o e)
  /\ echoSeq (echoStep o e)
     = echoSeq o + (match e with Tick _ => 1 | _ => 0 end).
Proof.
  intros Hinv (Het & Hws & Hso & Hbal) Hnc. unfold balanced.
  destruct e as [now|[[s sendTime]|] receiveTime|id|]; simpl.
  - unfold echoTick. rewrite Het, Hws, Hso. unfold sendEcho. simpl.
    rewrite map_size_insert_None.
    + repeat split; try done; lia.
    + destruct (pendingEchoes o !! echoSeq o) as [pe|] eqn:E; [|done].
      destruct (inv_keys o Hinv _ _ E). lia.
  - destruct (pendingEchoes o !! s) as [pe|] eqn:E; simpl.
    + rewrite map_size_delete_Some by eauto.
      pose proof (size_positive _ _ _ E).
      repeat split; try done; lia.
    + repeat split; try done; lia.
  - repeat split; try done; lia.
  - unfold fireTimer. destruct (decide (id ∈ timers o)) as [Hin|].
    + unfold echoTimeout. simpl.
      destruct (pendingEchoes o !! id) as [pe|] eqn:E; simpl.
      * rewrite map_size_delete_Some by eauto.
        pose proof (size_positive _ _ _ E).
        repeat split; try done; lia.
      * repeat split; try done; lia.
    + repeat split; try done; lia.
  - by destruct Hnc.
Qed.

Lemma echoRun_balanced tr o :
  EchoInv o -> balanced o -> Forall noCleanup tr ->
  balanced (echoRun o tr) /\ echoSeq (echoRun o tr) = echoSeq o + ticks tr.
Proof.
  intros Hinv Hbal Hnc. revert o Hinv Hbal.
  induction Hnc as [|e r He _ IH]; intros o Hinv Hbal.
  - split; [done|]. unfold ticks. simpl. lia.
  - destruct (echoStep_balanced o e Hinv Hbal He) as [Hbal' Hseq].
    destruct (IH _ (echoStep_inv o e Hinv) Hbal') as [Hb Hs].
    split; [exact Hb|]. simpl. rewrite Hs, Hseq.
    unfold ticks. destruct e; simpl; lia.
Qed.

Lemma lostDelta_only_on_timeout o e :
  lostDelta o e = 0
  \/ (lostDelta o e = 1
      /\ exists id, e = TimerFires id /\ is_Some (pendingEchoes o !! id)).
Proof.
  unfold lostDelta.
  destruct e as [now|[[s sendTime]|] receiveTime|id|]; simpl.
  - left. unfold echoTick. destruct (echoTimer o); [|lia].
    destruct (ws o); [|lia]. destruct (socket o); simpl; lia.
  - left. destruct (pendingEchoes o !! s); simpl; lia.
  - left. lia.
  - unfold fireTimer. destruct (decide (id ∈ timers o)); [|left; lia].
    unfold echoTimeout. simpl.
    destruct (pendingEchoes o !! id) as [pe|] eqn:E; simpl.
    + right. split; [lia|]. exists id. split; [done|]. by eexists.
    + left. lia.
  - left. destruct (cleanup_pending o) as (_ & _ & -> & _). lia.
Qed.

(** C4, as stated, fails while a probe is pending: ten probes were
    sent and two were lost, yet only nine are counted as sent and the
    loss is 2/9 of 100, not 20. *)
Lemma packetLoss_pending_counterexample :
  let o := echoRun echoing tenProbes in
  ticks tenProbes = 10
  /\ echoSeq o = 10
  /\ lostEchoes (metrics o) = 2
  /\ sentEchoes (metrics o) = 9
  /\ ~ (calculatePacketLoss (metrics o) == 20)%Q.
Proof.
  vm_compute. repeat split; try reflexivity. intros H. discriminate.
Qed.

(** C4 (amended).  [sentEchoes] is incremented once for every probe
    when the probe is resolved, by its response or by its timeout, and
    [lostEchoes] only by a timeout; probes that are still pending are
    not counted, so the probes sent are the counted ones plus the
    pending ones.  The loss is [lostEchoes / sentEchoes * 100], and 0
    when nothing has been counted; 10 counted with 2 lost is 20. *)
Theorem packetLoss_counts_resolved (tr : list EchoEvent) :
  let o := echoRun echoing tr in
  let m := metrics o in
  sentEchoes m = Z.of_nat (length (rttSamples m)) + lostEchoes m
  /\ sentEchoes m + Z.of_nat (size (pendingEchoes o)) <= echoSeq o
  /\ (Forall noCleanup tr ->
      echoSeq o = ticks tr
      /\ ticks tr = sentEchoes m + Z.of_nat (size (pendingEchoes o)))
  /\ (forall e,
      lostDelta o e = 0
      \/ (lostDelta o e = 1
          /\ exists id, e = TimerFires id /\ is_Some (pendingEchoes o !! id)))
  /\ (sentEchoes m = 0 -> calculatePacketLoss m = 0%Q)
  /\ (sentEchoes m <> 0 ->
      calculatePacketLoss m
      = (inject_Z (lostEchoes m) / inject_Z (sentEchoes m) * 100)%Q)
  /\ (sentEchoes m = 10 -> lostEchoes m = 2 ->
      (calculatePacketLoss m == 20)%Q).
Proof.
  intros o m.
  assert (EchoInv o) as Hinv by (apply echoRun_inv, echoing_inv).
  split; [apply (inv_sent o Hinv)|].
  split; [apply (inv_bound o Hinv)|].
  split.
  { intros Hnc.
    destruct (echoRun_balanced tr echoing echoing_inv) as [Hb Hs];
      [by repeat split|done|].
    fold o in Hb, Hs. destruct Hb as (_ & _ & _ & Hb).
    change (echoSeq echoing) with 0 in Hs. fold m in Hb. split; lia. }
  split; [apply lostDelta_only_on_timeout|].
  unfold calculatePacketLoss.
  split; [by intros ->|].
  split.
  - intros Hne. destruct (sentEchoes m =? 0) eqn:E; [lia|done].
  - intros -> ->. reflexivity.
Qed.

Lemma packetLoss_counts_resolved_witness :
  echoSeq (echoRun echoing tenProbes) = ticks tenProbes
  /\ ticks tenProbes
     = sentEchoes (metrics (echoRun echoing tenProbes))
       + Z.of_nat (size (pendingEchoes (echoRun echoing tenProbes))).
Proof.
  apply (packetLoss_counts_resolved tenProbes).
  unfold tenProbes, noCleanup. repeat constructor; discriminate.
Defined.
End PacketLoss.

(** ** Stream tasks and the shared sample list *)

Section Streams.
Import TestOrchestrator.

Lemma readLoop_buckets reads lastSampleTime bucketBytes o :
  let r := readLoop false reads lastSampleTime bucketBytes o in
  let b := buckets reads lastSampleTime bucketBytes in
  r.1 = b.2
  /\ throughputSamples (metrics r.2) = throughputSamples (metrics o) ++ b.1
  /\ abortController r.2 = abortController o
  /\ signalAborted r.2 = signalAborted o
  /\ concurrency r.2 = concurrency o
  /\ windowSize (metrics r.2) = windowSize (metrics o).
Proof.
  revert lastSampleTime bucketBytes o.
  induction reads as [|[len now] r IH]; intros lastSampleTime bucketBytes o; simpl.
  - by rewrite List.app_nil_r.
  - destruct (SAMPLE_INTERVAL <=? now - lastSampleTime).
    + specialize (IH now 0 (emit MetricsUpdate (recordSample (bucketBytes + len) now o))).
      destruct (buckets r now 0) as [l b] eqn:Eb. simpl in *.
      destruct IH as (H1 & H2 & H3 & H4 & H5 & H6).
      rewrite H1, H2, H3, H4, H5, H6, <- List.app_assoc. simpl. done.
    + apply IH.
Qed.

Lemma readLoop_warmup reads lastSampleTime bucketBytes o :
  (readLoop true reads lastSampleTime bucketBytes o).2 = o.
Proof.
  revert lastSampleTime bucketBytes.
  induction reads as [|[len now] r IH]; intros lastSampleTime bucketBytes; simpl;
    [done|].
  destruct (SAMPLE_INTERVAL <=? now - lastSampleTime); apply IH.
Qed.

(** A download stream never rejects; outside warm-up it appends its
    buckets to the one sample list, in warm-up it appends nothing. *)
Lemma runSingleDownloadStream_appends s isWarmup o :
  abortController o = true ->
  exists o', runSingleDownloadStream s isWarmup o = (Normal, o')
    /\ throughputSamples (metrics o')
       = throughputSamples (metrics o) ++ (if isWarmup then [] else downloadSamples s)
    /\ abortController o' = abortController o
    /\ signalAborted o' = signalAborted o
    /\ concurrency o' = concurrency o
    /\ windowSize (metrics o') = windowSize (metrics o).
Proof.
  intros Hac.
  unfold runSingleDownloadStream, tryCatch, downloadBody, downloadSamples, perform.
  rewrite Hac.
  destruct (dlFetch s); simpl;
    try (eexists; split; [reflexivity|];
         destruct isWarmup; by rewrite List.app_nil_r).
  destruct isWarmup.
  - pose proof (readLoop_warmup (dlReads s) (dlStart s) 0 o) as Hw.
    destruct (readLoop true (dlReads s) (dlStart s) 0 o) as [b o1]. simpl in Hw.
    subst o1. rewrite andb_false_r.
    destruct (dlEnd s); simpl; eexists; (split; [reflexivity|]);
      by rewrite List.app_nil_r.
  - pose proof (readLoop_buckets (dlReads s) (dlStart s) 0 o) as Hb.
    destruct (readLoop false (dlReads s) (dlStart s) 0 o) as [b o1].
    destruct (buckets (dlReads s) (dlStart s) 0) as [l b'].
    simpl in Hb. destruct Hb as (-> & H2 & H3 & H4 & H5 & H6).
    rewrite andb_true_r.
    destruct (dlEnd s) as [now|e]; simpl.
    + destruct (0 <? b'); simpl; eexists; (split; [reflexivity|]); simpl;
        rewrite ?H2, ?List.app_assoc; repeat split; congruence.
    + eexists. split; [reflexivity|]. repeat split; congruence.
Qed.




End Streams.

(** ** What a run emits *)

Section Run.
Import TestOrchestrator.

Lemma extends_refl o : extends o o.
Proof. exists []. by rewrite List.app_nil_r. Qed.

Lemma extends_trans o1 o2 o3 : extends o1 o2 -> extends o2 o3 -> extends o1 o3.
Proof.
  intros (e1 & H1 & F1) (e2 & H2 & F2). exists (e1 ++ e2).
  split; [by rewrite H2, H1, List.app_assoc|]. by apply Forall_app.
Qed.

Lemma extends_same o o' : emitted o' = emitted o -> extends o o'.
Proof. intros H. exists []. by rewrite List.app_nil_r. Qed.

Lemma extends_emit e o o' :
  terminal e = false -> extends o o' -> extends o (emit e o').
Proof.
  intros He (evs & H & F). exists (evs ++ [e]). simpl.
  split; [by rewrite H, List.app_assoc|].
  apply Forall_app. split; [done|]. by constructor.
Qed.

Lemma echoStep_extends o e : extends o (echoStep o e).
Proof.
  destruct e as [now|[[s sendTime]|] receiveTime|id|]; simpl.
  - unfold echoTick. destruct (echoTimer o); [|apply extends_refl].
    destruct (ws o); [|apply extends_refl].
    destruct (socket o); try apply extends_refl. by apply extends_same.
  - destruct (pendingEchoes o !! s); [|apply extends_refl].
    apply extends_emit; [done|]. by apply extends_same.
  - apply extends_refl.
  - unfold fireTimer. destruct (decide (id ∈ timers o)); [|apply extends_refl].
    unfold echoTimeout. simpl.
    destruct (pendingEchoes o !! id); [|by apply extends_same].
    apply extends_emit; [done|]. by apply extends_same.
  - apply extends_same. by destruct (cleanup_pending o) as (_ & _ & _ & _ & -> & _).
Qed.

Lemma echoRun_extends tr o : extends o (echoRun o tr).
Proof.
  revert o. induction tr as [|e r IH]; intros o; [apply extends_refl|].
  simpl. eapply extends_trans; [apply echoStep_extends|apply IH].
Qed.

Lemma stop_emits_nothing o : emitted (stop o) = emitted o.
Proof.
  unfold stop.
  destruct (cleanup_pending (if abortController o then set_signalAborted true o else o))
    as (_ & _ & _ & _ & -> & _).
  by destruct (abortController o).
Qed.

Lemma quiet_andThen f g : quiet f -> quiet g -> quiet (andThen f g).
Proof.
  intros Hf Hg o. unfold andThen. specialize (Hf o).
  destruct (f o) as [[|e] o1]; simpl in *; [|done].
  eapply extends_trans; [exact Hf|apply Hg].
Qed.

Lemma calm_andThen f g : calm f -> calm g -> calm (andThen f g).
Proof.
  intros Hf Hg o. unfold andThen. specialize (Hf o).
  destruct (f o) as [c o1]. simpl in Hf. subst c. apply Hg.
Qed.

Lemma tame_andThen f g : tame f -> tame g -> tame (andThen f g).
Proof.
  intros Hf Hg o. unfold andThen. specialize (Hf o).
  destruct (f o) as [c o1]. simpl in Hf.
  destruct Hf as [-> | ->]; [apply Hg|by right].
Qed.

Lemma calm_tame k : calm k -> tame k.
Proof. intros H o. by left. Qed.

Lemma quiet_perform f : (forall o, extends o (f o)) -> quiet (perform f).
Proof. intros H o. apply H. Qed.

Lemma calm_perform f : calm (perform f).
Proof. by intros o. Qed.

Lemma quiet_interrupt env s : quiet (interrupt env s).
Proof.
  apply quiet_perform. intros o.
  destruct (decide (stopDuring env = Some s)); [|apply echoRun_extends].
  eapply extends_trans; [apply echoRun_extends|].
  apply extends_same, stop_emits_nothing.
Qed.

Lemma readLoop_extends isWarmup reads lastSampleTime bucketBytes o :
  extends o (readLoop isWarmup reads lastSampleTime bucketBytes o).2.
Proof.
  revert lastSampleTime bucketBytes o.
  induction reads as [|[len now] r IH]; intros lastSampleTime bucketBytes o; simpl;
    [apply extends_refl|].
  destruct (SAMPLE_INTERVAL <=? now - lastSampleTime); [|apply IH].
  eapply extends_trans; [|apply IH].
  destruct isWarmup; [apply extends_refl|].
  apply extends_emit; [done|]. by apply extends_same.
Qed.

Lemma stream_download s isWarmup :
  quiet (runSingleDownloadStream s isWarmup)
  /\ calm (runSingleDownloadStream s isWarmup).
Proof.
  split; intros o; unfold runSingleDownloadStream, tryCatch, downloadBody, perform;
    destruct (abortController o); simpl; try done; try apply extends_refl;
    destruct (dlFetch s); simpl; try done; try apply extends_refl;
    pose proof (readLoop_extends isWarmup (dlReads s) (dlStart s) 0 o) as Hx;
    destruct (readLoop isWarmup (dlReads s) (dlStart s) 0 o) as [b o1];
    simpl in Hx; destruct (dlEnd s); simpl; try done;
    destruct ((0 <? b) && negb isWarmup); simpl; done.
Qed.

Lemma uploadLoop_extends endTime turns o : extends o (uploadLoop endTime turns o).2.
Proof.
  revert o. induction turns as [|u r IH]; intros o; simpl; [apply extends_refl|].
  destruct ((ulNow u <? endTime) && _); [|apply extends_refl].
  destruct (ulFetch u); try apply extends_refl.
  eapply extends_trans; [|apply IH].
  apply extends_emit; [done|]. by apply extends_same.
Qed.

Lemma stream_upload s duration :
  quiet (runSingleUploadStream s duration) /\ calm (runSingleUploadStream s duration).
Proof.
  split; intros o; unfold runSingleUploadStream, tryCatch, perform;
    pose proof (uploadLoop_extends (ulStart s + duration) (ulTurns s) o) as Hx;
    destruct (uploadLoop (ulStart s + duration) (ulTurns s) o) as [[|e] o1];
    done.
Qed.

Lemma allOf_quiet_calm tasks :
  Forall (fun k => quiet k /\ calm k) tasks -> quiet (allOf tasks) /\ calm (allOf tasks).
Proof.
  induction 1 as [|k r [Hq Hc] _ [IHq IHc]]; simpl.
  - split; [apply quiet_perform, extends_refl|apply calm_perform].
  - split; [by apply quiet_andThen|by apply calm_andThen].
Qed.

Lemma streams_download script numStreams isWarmup :
  quiet (runDownloadStreams script numStreams isWarmup)
  /\ calm (runDownloadStreams script numStreams isWarmup).
Proof.
  apply allOf_quiet_calm, List.Forall_forall. intros k Hk.
  apply List.in_map_iff in Hk as (i & <- & _). apply stream_download.
Qed.

Lemma streams_upload script numStreams duration :
  quiet (runUploadStreams script numStreams duration)
  /\ calm (runUploadStreams script numStreams duration).
Proof.
  apply allOf_quiet_calm, List.Forall_forall. intros k Hk.
  apply List.in_map_iff in Hk as (i & <- & _). apply stream_upload.
Qed.
End Run.

Section Terminal.
Import TestOrchestrator.

Lemma quiet_tryCatch body handler :
  quiet body -> (forall e, quiet (handler e)) -> quiet (tryCatch body handler).
Proof.
  intros Hb Hh o. unfold tryCatch. specialize (Hb o).
  destruct (body o) as [[|e] o1]; simpl in *; [done|].
  eapply extends_trans; [exact Hb|apply Hh].
Qed.

Lemma tame_tryCatch body handler :
  (forall e, tame (handler e)) -> tame (tryCatch body handler).
Proof.
  intros Hh o. unfold tryCatch.
  destruct (body o) as [[|e] o1]; simpl; [by left|apply Hh].
Qed.

Lemma calm_tryCatch body handler : calm body -> calm (tryCatch body handler).
Proof.
  intros Hb o. unfold tryCatch. specialize (Hb o).
  destruct (body o) as [c o1]. simpl in Hb. by subst c.
Qed.

Lemma calm_interrupt env s : calm (interrupt env s).
Proof. apply calm_perform. Qed.

Lemma quiet_announce p :
  quiet (perform (fun o => emit (PhaseChange p) (set_phase (Some p) o))).
Proof.
  apply quiet_perform. intros o. apply extends_emit; [done|]. by apply extends_same.
Qed.

Lemma phase_discovery env :
  quiet (runDiscovery env) /\ tame (runDiscovery env)
  /\ (capsOutcome env <> None -> calm (runDiscovery env)).
Proof.
  unfold runDiscovery. split; [|split].
  - apply quiet_andThen; [apply quiet_announce|].
    apply quiet_tryCatch; [|intros e o; apply extends_refl].
    apply quiet_andThen; [apply quiet_interrupt|].
    intros o. destruct (capsOutcome env); simpl; [|apply extends_refl].
    apply extends_emit; [done|]. by apply extends_same.
  - apply tame_andThen; [apply calm_tame, calm_perform|].
    apply tame_tryCatch. intros e o. by right.
  - intros Hc. apply calm_andThen; [apply calm_perform|].
    apply calm_tryCatch, calm_andThen; [apply calm_interrupt|].
    intros o. by destruct (capsOutcome env).
Qed.

Lemma phase_connect env :
  quiet (startLatencyTest env) /\ tame (startLatencyTest env)
  /\ (wsOpens env = true -> calm (startLatencyTest env)).
Proof.
  unfold startLatencyTest. split; [|split].
  - apply quiet_andThen; [apply quiet_perform; intros o; by apply extends_same|].
    apply quiet_andThen; [apply quiet_interrupt|].
    intros o. destruct (wsOpens env); simpl; [by apply extends_same|apply extends_refl].
  - apply tame_andThen; [apply calm_tame, calm_perform|].
    apply tame_andThen; [apply calm_tame, calm_interrupt|].
    intros o. destruct (wsOpens env); [by left|by right].
  - intros Hw. apply calm_andThen; [apply calm_perform|].
    apply calm_andThen; [apply calm_interrupt|].
    intros o. by rewrite Hw.
Qed.

Lemma phase_warmup env : quiet (runWarmup env) /\ calm (runWarmup env).
Proof.
  unfold runWarmup. split.
  - apply quiet_andThen; [apply quiet_announce|]. intros o.
    apply quiet_andThen; [apply streams_download|apply quiet_interrupt].
  - apply calm_andThen; [apply calm_perform|]. intros o.
    apply calm_andThen; [apply streams_download|apply calm_interrupt].
Qed.

Lemma phase_ramp env : quiet (runRamp env) /\ calm (runRamp env).
Proof.
  unfold runRamp. split.
  - apply quiet_andThen; [apply quiet_announce|]. intros o.
    apply quiet_andThen; [apply streams_download|apply quiet_interrupt].
  - apply calm_andThen; [apply calm_perform|]. intros o.
    apply calm_andThen; [apply streams_download|apply calm_interrupt].
Qed.

Lemma phase_measure_download env d :
  quiet (runMeasureDownload env d) /\ calm (runMeasureDownload env d).
Proof.
  unfold runMeasureDownload. split.
  - apply quiet_andThen; [apply quiet_announce|]. intros o.
    apply quiet_andThen; [apply streams_download|apply quiet_interrupt].
  - apply calm_andThen; [apply calm_perform|]. intros o.
    apply calm_andThen; [apply streams_download|apply calm_interrupt].
Qed.

Lemma phase_measure_upload env d :
  quiet (runMeasureUpload env d) /\ calm (runMeasureUpload env d).
Proof.
  unfold runMeasureUpload. split.
  - apply quiet_andThen; [apply quiet_announce|]. intros o.
    apply quiet_andThen; [apply streams_upload|apply quiet_interrupt].
  - apply calm_andThen; [apply calm_perform|]. intros o.
    apply calm_andThen; [apply streams_upload|apply calm_interrupt].
Qed.

Lemma phase_cooldown env : quiet (runCooldown env) /\ calm (runCooldown env).
Proof.
  unfold runCooldown. split.
  - apply quiet_andThen; [apply quiet_announce|apply quiet_interrupt].
  - apply calm_andThen; [apply calm_perform|apply calm_interrupt].
Qed.

Lemma phases_quiet env : quiet (phases env).
Proof.
  unfold phases.
  apply quiet_andThen; [apply phase_discovery|].
  apply quiet_andThen; [apply phase_connect|].
  apply quiet_andThen; [apply phase_warmup|].
  apply quiet_andThen; [apply phase_ramp|].
  apply quiet_andThen; [apply phase_measure_download|].
  apply quiet_andThen; [apply phase_measure_upload|apply phase_cooldown].
Qed.

Lemma streaming_calm env :
  calm (andThen (runWarmup env)
       (andThen (runRamp env)
       (andThen (runMeasureDownload env (measureDuration env))
       (andThen (runMeasureUpload env (measureDuration env))
                (runCooldown env))))).
Proof.
  apply calm_andThen; [apply phase_warmup|].
  apply calm_andThen; [apply phase_ramp|].
  apply calm_andThen; [apply phase_measure_download|].
  apply calm_andThen; [apply phase_measure_upload|apply phase_cooldown].
Qed.

Lemma phases_tame env : tame (phases env).
Proof.
  unfold phases.
  apply tame_andThen; [apply phase_discovery|].
  apply tame_andThen; [apply phase_connect|].
  apply calm_tame, streaming_calm.
Qed.

Lemma phases_calm env :
  capsOutcome env <> None -> wsOpens env = true -> calm (phases env).
Proof.
  intros Hc Hw. unfold phases.
  apply calm_andThen; [by apply phase_discovery|].
  apply calm_andThen; [by apply phase_connect|].
  apply streaming_calm.
Qed.

(** [start] runs the phases, reports how they ended and cleans up. *)
Lemma start_unfold env o :
  start env o
  = cleanup
      (let r := phases env (set_signalAborted false (set_abortController true (reset o))) in
       match r.1 with
       | Normal => emit Complete r.2
       | Throw AbortError => emit Cancelled r.2
       | Throw _ => emit Error r.2
       end).
Proof.
  unfold start, phases, measureDuration, tryFinally, tryCatch, andThen, perform.
  set (o0 := set_signalAborted false _).
  destruct (runDiscovery env o0) as [[|e] o1]; simpl; [|by destruct e].
  destruct (startLatencyTest env o1) as [[|e] o2]; simpl; [|by destruct e].
  destruct (runWarmup env o2) as [[|e] o3]; simpl; [|by destruct e].
  destruct (runRamp env o3) as [[|e] o4]; simpl; [|by destruct e].
  destruct (runMeasureDownload env _ o4) as [[|e] o5]; simpl; [|by destruct e].
  destruct (runMeasureUpload env _ o5) as [[|e] o6]; simpl; [|by destruct e].
  destruct (runCooldown env o6) as [[|e] o7]; simpl; [done|by destruct e].
Qed.
End Terminal.

(** C7.  A [stop()] during any stage of a run leaves the report of the
    run unchanged: the run still ends with exactly one terminal event,
    emitted last, but that event is never [cancelled]; it is [complete]
    whenever discovery and the WebSocket connection succeeded.  Every
    stream task swallows the [AbortError] that the stop raises in it, so
    [start] never reaches the branch that emits [cancelled]. *)
Theorem stop_never_reports_cancelled
    (env : TestOrchestrator.Env) (s : TestOrchestrator.Stage) :
  TestOrchestrator.stopDuring env = Some s ->
  exists evs t,
    TestOrchestrator.emitted (TestOrchestrator.start env TestOrchestrator.new)
    = evs ++ [t]
    /\ Forall (fun e => TestOrchestrator.terminal e = false) evs
    /\ t <> TestOrchestrator.Cancelled
    /\ (TestOrchestrator.capsOutcome env <> None ->
        TestOrchestrator.wsOpens env = true -> t = TestOrchestrator.Complete).
Proof.
  intros _. rewrite start_unfold.
  destruct (cleanup_pending
    (let r := phases env
        (TestOrchestrator.set_signalAborted false
           (TestOrchestrator.set_abortController true
              (TestOrchestrator.reset TestOrchestrator.new))) in
     match r.1 with
     | TestOrchestrator.Normal => TestOrchestrator.emit TestOrchestrator.Complete r.2
     | TestOrchestrator.Throw TestOrchestrator.AbortError =>
       TestOrchestrator.emit TestOrchestrator.Cancelled r.2
     | TestOrchestrator.Throw _ => TestOrchestrator.emit TestOrchestrator.Error r.2
     end)) as (_ & _ & _ & _ & -> & _).
  set (o0 := TestOrchestrator.set_signalAborted false _).
  destruct (phases_quiet env o0) as (evs & Hev & Hnt).
  pose proof (phases_tame env o0) as Htame.
  assert (TestOrchestrator.capsOutcome env <> None ->
          TestOrchestrator.wsOpens env = true ->
          (phases env o0).1 = TestOrchestrator.Normal) as Hcalm.
  { intros Hc Hw. by apply phases_calm. }
  cbv zeta.
  destruct (phases env o0) as [c o1]. simpl in *.
  exists evs. destruct Htame as [-> | ->]; simpl; rewrite Hev.
  - exists TestOrchestrator.Complete. by repeat split.
  - exists TestOrchestrator.Error. repeat split; try done.
    intros Hc Hw. by specialize (Hcalm Hc Hw).
Qed.

Lemma stop_never_reports_cancelled_witness :
  exists evs t,
    TestOrchestrator.emitted
      (TestOrchestrator.start (healthy (Some TestOrchestrator.AtWarmup))
         TestOrchestrator.new)
    = evs ++ [t]
    /\ Forall (fun e => TestOrchestrator.terminal e = false) evs
    /\ t <> TestOrchestrator.Cancelled
    /\ (TestOrchestrator.capsOutcome (healthy (Some TestOrchestrator.AtWarmup)) <> None ->
        TestOrchestrator.wsOpens (healthy (Some TestOrchestrator.AtWarmup)) = true ->
        t = TestOrchestrator.Complete).
Proof.
  apply (stop_never_reports_cancelled (healthy (Some TestOrchestrator.AtWarmup))
           TestOrchestrator.AtWarmup).
  reflexivity.
Defined.

(** A stop during warm-up against a healthy server: the download phases
    that follow fail at once, the upload streams still run to their
    deadline and record samples, and the run reports [complete]. *)
Example stop_during_warmup :
  let o := TestOrchestrator.start (healthy (Some TestOrchestrator.AtWarmup))
             TestOrchestrator.new in
  TestOrchestrator.emitted o
  = [TestOrchestrator.PhaseChange TestOrchestrator.discovery;
     TestOrchestrator.Capabilities;
     TestOrchestrator.PhaseChange TestOrchestrator.warmup;
     TestOrchestrator.PhaseChange TestOrchestrator.ramp;
     TestOrchestrator.PhaseChange TestOrchestrator.measure_download;
     TestOrchestrator.PhaseChange TestOrchestrator.measure_upload;
     TestOrchestrator.MetricsUpdate; TestOrchestrator.MetricsUpdate;
     TestOrchestrator.MetricsUpdate; TestOrchestrator.MetricsUpdate;
     TestOrchestrator.PhaseChange TestOrchestrator.cooldown;
     TestOrchestrator.Complete]
  /\ length (throughputSamples (TestOrchestrator.metrics o)) = 4%nat.
Proof. vm_compute. done. Qed.

(** X11.  What [stop()] does do: the socket is closed and dropped, the
    echo interval and every probe timer are cleared, the pending set is
    emptied, the signal that the stream tasks hold is aborted, and
    nothing is emitted. *)
Lemma stop_releases (o : TestOrchestrator.t) :
  EchoInv o ->
  let o' := TestOrchestrator.stop o in
  TestOrchestrator.ws o' = false
  /\ (TestOrchestrator.ws o = true ->
      TestOrchestrator.socket o' = TestOrchestrator.CLOSED)
  /\ TestOrchestrator.echoTimer o' = false
  /\ TestOrchestrator.pendingEchoes o' = ∅
  /\ TestOrchestrator.timers o' = ∅
  /\ (TestOrchestrator.abortController o = true ->
      TestOrchestrator.signalAborted o' = true)
  /\ TestOrchestrator.emitted o' = TestOrchestrator.emitted o.
Proof.
  intros Hinv o'. unfold o', TestOrchestrator.stop.
  set (o1 := if TestOrchestrator.abortController o
             then TestOrchestrator.set_signalAborted true o else o).
  assert (EchoInv o1) as Hinv1.
  { unfold o1. destruct (TestOrchestrator.abortController o); [|done].
    destruct Hinv. by split. }
  pose proof (cleanup_inv o1 Hinv1) as Hinv'.
  destruct (cleanup_pending o1)
    as (Hp & Ht & Hm & Hs & He & Hws & Het & Hac & Hsock & Hsig & Hsig').
  repeat split; try done.
  - intros Hw. apply Hsock. unfold o1.
    by destruct (TestOrchestrator.abortController o).
  - rewrite (inv_timers _ Hinv'), Hp. apply dom_empty_L.
  - intros Ha. apply Hsig'. unfold o1. by rewrite Ha.
  - rewrite He. unfold o1. by destruct (TestOrchestrator.abortController o).
Qed.

Lemma stop_releases_witness :
  TestOrchestrator.timers
    (TestOrchestrator.stop (TestOrchestrator.echoRun TestOrchestrator.echoing tenProbes))
  = ∅.
Proof.
  destruct (stop_releases (TestOrchestrator.echoRun TestOrchestrator.echoing tenProbes))
    as (_ & _ & _ & _ & H & _).
  - apply echoRun_inv, echoing_inv.
  - exact H.
Defined.


(** ** One sample list for both directions *)

Section Shared.
Import TestOrchestrator.





Section Unstopped.
Variable env : Env.
Hypothesis not_stopped : stopDuring env = None.
Hypothesis echo_only : forall s, Forall noCleanup (echoDuring env s).






End Unstopped.
End Shared.

Section SharedRun.
Import TestOrchestrator.
Variable env : Env.
Variable maxConcurrency : Z.
Hypothesis not_stopped : stopDuring env = None.
Hypothesis echo_only : forall s, Forall noCleanup (echoDuring env s).
Hypothesis caps_ok : capsOutcome env = Some maxConcurrency.
Hypothesis ws_ok : wsOpens env = true.



End SharedRun.



(** ** GET /download *)

Section Download.
Import Server.

Lemma sumZ_app l1 l2 : sumZ (l1 ++ l2) = sumZ l1 + sumZ l2.
Proof. unfold sumZ. induction l1 as [|x r IH]; simpl; lia. Qed.







End Download.

(** ** POST /upload *)

Section Upload.
Import Server.

Lemma uploadBasic_within_limit (requestTime : Z) (chunks : list Z) (acc : Upload) :
  Forall (fun c => 0 <= c) chunks ->
  paused acc = false -> destroyed acc = false ->
  receivedBytes acc + sumZ chunks <= MAX_BYTES_PER_STREAM ->
  let u := fold_left (deliver onDataBasic) (map Data chunks) acc in
  receivedBytes u = receivedBytes acc + sumZ chunks
  /\ paused u = false /\ destroyed u = false
  /\ reply u = reply acc /\ startTime u = startTime acc
  /\ activeUploads u = activeUploads acc.
Proof.
  intros Hc. revert acc.
  induction Hc as [|c r Hc0 Hrest IH]; intros acc Hp Hd Hsum; simpl.
  - unfold sumZ. simpl. repeat split; try done. lia.
  - unfold sumZ in Hsum. simpl in Hsum. fold (sumZ r) in Hsum.
    assert (0 <= sumZ r) as Hr.
    { clear -Hrest. unfold sumZ. induction Hrest; simpl; lia. }
    rewrite Hp, Hd. simpl.
    destruct (IH (onDataBasic c acc)) as (H1 & H2 & H3 & H4 & H5 & H6).
    + simpl. destruct (_ <? _) eqn:E; [lia|done].
    + done.
    + simpl. lia.
    + rewrite H1, H2, H3, H4, H5, H6. simpl.
      unfold sumZ. simpl. repeat split; try done. lia.
Qed.

(** Within the ceiling the basic handler answers, at the natural end of
    the stream, with the bytes received and the time taken. *)
Lemma uploadBasic_replies (requestTime now : Z) (chunks : list Z) :
  Forall (fun c => 0 <= c) chunks ->
  sumZ chunks <= MAX_BYTES_PER_STREAM ->
  let u := uploadBasic requestTime (map Data chunks ++ [End now]) in
  reply u = Some (Json (sumZ chunks) (now - requestTime))
  /\ destroyed u = false /\ activeUploads u = 0.
Proof.
  intros Hc Hsum. unfold uploadBasic. rewrite fold_left_app.
  destruct (uploadBasic_within_limit requestTime chunks (accept requestTime) Hc)
    as (H1 & H2 & H3 & H4 & H5 & H6); [done|done|simpl; lia|].
  simpl. rewrite H2, H3. simpl. rewrite H1, H3, H5, H6. done.
Qed.

(** C9.  One byte over the ceiling on the basic server: the handler
    only pauses the request; it sends no 413 and does not destroy the
    connection, and since a paused request never delivers ['end'] it
    sends no reply at all (and were ['end'] delivered, its listener
    would answer with the byte count, not with a refusal).  The secure
    server and the limiter of the
    security middleware answer the same overrun with 413 and destroy the
    connection. *)
Theorem uploadBasic_over_limit :
  let over := [Data (MAX_BYTES_PER_STREAM + 1)] in
  let u := uploadBasic 0 over in
  paused u = true /\ reply u = None /\ destroyed u = false
  /\ (forall now more,
      reply (uploadBasic 0 (over ++ map Data more ++ [End now])) = None)
  /\ (forall now,
      reply (onEnd now u) = Some (Json (MAX_BYTES_PER_STREAM + 1) now))
  /\ (let s := uploadSecure 0 [Data (MAX_UPLOAD_SIZE + 1)] in
      paused s = true /\ reply s = Some Status413 /\ destroyed s = true)
  /\ (let l := createUploadLimiter MAX_BYTES_PER_STREAM 0 over in
      paused l = true /\ reply l = Some Status413 /\ destroyed l = true).
Proof.
  cbv zeta. repeat split; try reflexivity.
  2:{ intros now. simpl. do 2 f_equal. lia. }
  intros now more. unfold uploadBasic. cbn [app fold_left].
  set (u := deliver onDataBasic (accept 0) (Data (MAX_BYTES_PER_STREAM + 1))).
  assert (paused u = true /\ reply u = None) as Hu by (by split).
  clearbody u. rewrite fold_left_app.
  assert (forall evs v, paused v = true -> reply v = None ->
            (forall e, In e evs -> e <> Close) ->
            fold_left (deliver onDataBasic) evs v = v) as Hstuck.
  { induction evs as [|e r IH]; intros v Hp Hr Hnc; [done|]. simpl.
    assert (deliver onDataBasic v e = v) as ->.
    { destruct e; simpl; rewrite ?Hp; try done.
      exfalso. by apply (Hnc Close); [left|]. }
    apply IH; try done. intros e' He'. apply Hnc. by right. }
  destruct Hu as [Hp Hr].
  rewrite (Hstuck (map Data more) u Hp Hr).
  - simpl. rewrite Hp. done.
  - intros e He. apply List.in_map_iff in He as (c & <- & _). done.
Qed.
End Upload.

(** ** After the run *)

Section Afterwards.
Import TestOrchestrator.

Lemma echoStep_silent o e :
  pendingEchoes o = ∅ -> echoTimer o = false ->
  pendingEchoes (echoStep o e) = ∅ /\ echoTimer (echoStep o e) = false
  /\ emitted (echoStep o e) = emitted o
  /\ metrics (echoStep o e) = metrics o.
Proof.
  intros Hp Ht. destruct e as [now|[[s sendTime]|] receiveTime|id|]; simpl.
  - unfold echoTick. by rewrite Ht.
  - by rewrite Hp, lookup_empty.
  - done.
  - unfold fireTimer. destruct (decide (id ∈ timers o)); [|done].
    unfold echoTimeout. simpl. by rewrite Hp, lookup_empty.
  - destruct (cleanup_pending o) as (H1 & _ & H3 & _ & H5 & _ & H7 & _). done.
Qed.

(** Once [start] has returned, no timer or socket callback emits
    anything or records anything. *)
Lemma run_over_is_silent env tr :
  emitted (echoRun (start env new) tr) = emitted (start env new)
  /\ metrics (echoRun (start env new) tr) = metrics (start env new).
Proof.
  assert (pendingEchoes (start env new) = ∅ /\ echoTimer (start env new) = false)
    as [Hp Ht].
  { rewrite start_unfold.
    match goal with |- context [cleanup ?x] =>
      destruct (cleanup_pending x) as (H1 & _ & _ & _ & _ & _ & H7 & _) end.
    done. }
  revert Hp Ht. generalize (start env new) as o.
  induction tr as [|e r IH]; intros o Hp Ht; [done|].
  destruct (echoStep_silent o e Hp Ht) as (Hp' & Ht' & He & Hm).
  simpl. destruct (IH _ Hp' Ht') as [-> ->]. done.
Qed.
End Afterwards.

(** * Further properties of the code *)

(** ** percentile: order and range *)

Lemma nth_error_sorted (l : list Q) (i j : nat) (a b : Q) :
  StronglySorted Qle l -> (i <= j)%nat ->
  nth_error l i = Some a -> nth_error l j = Some b -> (a <= b)%Q.
Proof.
  intros Hs. revert i j.
  induction Hs as [|x r Hs IH Hall]; intros i j Hij Ha Hb.
  - by destruct i.
  - destruct i as [|i], j as [|j]; simpl in *.
    + injection Ha as <-. injection Hb as <-. apply Qle_refl.
    + injection Ha as <-. rewrite List.Forall_forall in Hall.
      apply Hall. by eapply nth_error_In.
    + lia.
    + apply (IH i j); [lia|done|done].
Qed.

Lemma aget_sorted (l : list Q) (i j : Z) (a b : Q) :
  Sorted Qle l -> i <= j ->
  Js.aget l i = Some a -> Js.aget l j = Some b -> (a <= b)%Q.
Proof.
  intros Hs Hij. unfold Js.aget.
  apply (Sorted_StronglySorted (fun x y z => Qle_trans x y z)) in Hs.
  destruct (i <? 0) eqn:Ei; [done|]. destruct (j <? 0) eqn:Ej; [done|].
  apply nth_error_sorted; [done|lia].
Qed.

Lemma ceiling_floor_succ (i : Q) : Qceiling i <= Qfloor i + 1.
Proof.
  pose proof (Qceiling_lt i) as H1. pose proof (Qlt_floor i) as H2.
  assert (inject_Z (Qceiling i - 1) < inject_Z (Qfloor i + 1))%Q as H
    by (by eapply Qlt_trans).
  rewrite <- Zlt_Qlt in H. lia.
Qed.

Lemma weight_range (i : Q) :
  (0 <= i - inject_Z (Qfloor i))%Q /\ (i - inject_Z (Qfloor i) < 1)%Q.
Proof.
  pose proof (Qfloor_le i) as H1. pose proof (Qlt_floor i) as H2.
  rewrite inject_Z_plus in H2. change (inject_Z 1) with 1%Q in H2.
  split; lra.
Qed.

Lemma weight_integral (i : Q) :
  Qceiling i = Qfloor i -> (i - inject_Z (Qfloor i) == 0)%Q.
Proof.
  intros H. pose proof (Qfloor_le i) as H1. pose proof (Qle_ceiling i) as H2.
  rewrite H in H2. lra.
Qed.

(** The value between the two elements it interpolates. *)
Lemma interpolation_between (a b w : Q) :
  (a <= b)%Q -> (0 <= w)%Q -> (w <= 1)%Q ->
  (a <= a * (1 - w) + b * w)%Q /\ (a * (1 - w) + b * w <= b)%Q.
Proof.
  intros Hab H0 H1.
  assert (0 <= (b - a) * w)%Q as Hp by (apply Qmult_le_0_compat; lra).
  assert (0 <= (b - a) * (1 - w))%Q as Hq by (apply Qmult_le_0_compat; lra).
  split; lra.
Qed.

Lemma fractionalIndex_monotone (L : nat) (p q : Q) :
  (0 < L)%nat -> (p <= q)%Q ->
  (Spec.fractionalIndex L p <= Spec.fractionalIndex L q)%Q.
Proof.
  intros HL Hpq. unfold Spec.fractionalIndex.
  apply Qmult_le_compat_r.
  - apply Qmult_le_compat_r; [done|]. discriminate.
  - assert (inject_Z 1 <= inject_Z (Z.of_nat L))%Q as H by (rewrite <- Zle_Qle; lia).
    change (inject_Z 1) with 1%Q in H. lra.
Qed.

Lemma percentile_long_sorted (l : list Q) (p : Q) :
  Sorted Qle l -> (2 <= length l)%nat -> (0 <= p <= 100)%Q ->
  let i := Spec.fractionalIndex (length l) p in
  let w := (i - inject_Z (Qfloor i))%Q in
  exists a b,
    Js.aget l (Qfloor i) = Some a /\ Js.aget l (Qceiling i) = Some b
    /\ percentile l p = Some (a * (1 - w) + b * w)%Q
    /\ (a <= a * (1 - w) + b * w)%Q /\ (a * (1 - w) + b * w <= b)%Q.
Proof.
  intros Hs HL Hp i w.
  destruct (percentile_long l p HL Hp) as (a & b & Ha & _ & Hb & _ & Hv).
  exists a, b. split; [done|]. split; [done|]. split; [done|].
  destruct (weight_range i) as [H0 H1].
  apply interpolation_between; [|done|by apply Qlt_le_weak].
  apply (aget_sorted l (Qfloor i) (Qceiling i)); try done.
  pose proof (Qle_floor_ceiling i) as H. by rewrite <- Zle_Qle in H.
Qed.

Lemma percentile_monotone_long (l : list Q) (p q : Q) :
  Sorted Qle l -> (2 <= length l)%nat ->
  (0 <= p)%Q -> (p <= q)%Q -> (q <= 100)%Q ->
  exists vp vq, percentile l p = Some vp /\ percentile l q = Some vq /\ (vp <= vq)%Q.
Proof.
  intros Hs HL Hp0 Hpq Hq1.
  assert (0 <= p <= 100)%Q as Hp by (split; [done|by eapply Qle_trans]).
  assert (0 <= q <= 100)%Q as Hq by (split; [by eapply Qle_trans|done]).
  destruct (percentile_long_sorted l p Hs HL Hp) as (a & b & Ha & Hb & Hvp & Hap & Hpb).
  destruct (percentile_long_sorted l q Hs HL Hq) as (c & d & Hc & Hd & Hvq & Hcq & Hqd).
  set (i := Spec.fractionalIndex (length l) p) in *.
  set (j := Spec.fractionalIndex (length l) q) in *.
  eexists _, _. split; [exact Hvp|]. split; [exact Hvq|].
  assert (i <= j)%Q as Hij by (apply fractionalIndex_monotone; [lia|done]).
  pose proof (Qfloor_resp_le _ _ Hij) as Hfl.
  pose proof (Qceiling_resp_le _ _ Hij) as Hcl.
  destruct (Z.eq_dec (Qfloor i) (Qfloor j)) as [Heq|Hne].
  - (* same segment *)
    rewrite <- Heq in Hc. assert (c = a) as Hca by congruence. subst c.
    destruct (Z.eq_dec (Qceiling i) (Qfloor i)) as [Hint|Hfrac].
    + pose proof (weight_integral i Hint) as Hw.
      assert (a * (1 - (i - inject_Z (Qfloor i))) + b * (i - inject_Z (Qfloor i)) == a)%Q
        as -> by (rewrite Hw; ring).
      exact Hcq.
    + pose proof (ceiling_floor_succ i) as Hi1.
      pose proof (ceiling_floor_succ j) as Hj1.
      pose proof (Qle_floor_ceiling i) as Hi2. rewrite <- Zle_Qle in Hi2.
      assert (Qceiling j = Qceiling i) as Hce by lia.
      rewrite Hce in Hd. assert (d = b) as Hdb by congruence. subst d.
      rewrite <- Heq.
      assert (a <= b)%Q as Hab.
      { apply (aget_sorted l (Qfloor i) (Qceiling i)); try done. }
      assert (0 <= (b - a) * (j - i))%Q as Hprod
        by (apply Qmult_le_0_compat; lra).
      lra.
  - (* the segment of [q] lies further right *)
    pose proof (ceiling_floor_succ i) as Hi1.
    assert (b <= c)%Q as Hbc.
    { apply (aget_sorted l (Qceiling i) (Qfloor j)); try done. lia. }
    lra.
Qed.

Lemma percentile_monotone (l : list Q) (p q : Q) :
  Sorted Qle l -> (0 <= p)%Q -> (p <= q)%Q -> (q <= 100)%Q ->
  exists vp vq, percentile l p = Some vp /\ percentile l q = Some vq /\ (vp <= vq)%Q.
Proof.
  intros Hs Hp0 Hpq Hq1. destruct l as [|x [|y r]].
  - exists 0%Q, 0%Q. repeat split; try done.
  - exists x, x. repeat split; try done. apply Qle_refl.
  - apply percentile_monotone_long; try done. simpl. lia.
Qed.

Lemma percentile_in_range (l : list Q) (p : Q) :
  Sorted Qle l -> l <> [] -> (0 <= p <= 100)%Q ->
  exists v lo hi, percentile l p = Some v /\ head l = Some lo /\ last l = Some hi
    /\ (lo <= v)%Q /\ (v <= hi)%Q.
Proof.
  intros Hs Hne Hp. destruct l as [|x [|y r]]; [done| |].
  - exists x, x, x. repeat split; try done; apply Qle_refl.
  - set (l := x :: y :: r) in *.
    assert (2 <= length l)%nat as HL by (simpl; lia).
    destruct (percentile_long_sorted l p Hs HL Hp) as (a & b & Ha & Hb & Hv & Hav & Hvb).
    set (i := Spec.fractionalIndex (length l) p) in *.
    assert (0 < length l)%nat as HL0 by lia.
    pose proof (fractionalIndex_bounds _ _ HL0 Hp) as Hi.
    destruct (floor_ceiling_in_range _ _ Hi) as [Hf Hc]. fold i in Hf, Hc.
    destruct (last l) as [hi|] eqn:Ehi.
    2:{ exfalso. clear -Ehi. subst l. revert x y Ehi.
        induction r as [|z r IH]; intros x y E; [done|]. by apply (IH y z). }
    eexists _, x, hi. split; [exact Hv|]. split; [done|]. split; [done|].
    split.
    + assert (x <= a)%Q as Hxa.
      { apply (aget_sorted l 0 (Qfloor i)); try done. lia. }
      lra.
    + assert (b <= hi)%Q as Hbh.
      { apply (aget_sorted l (Qceiling i) (Z.of_nat (length l) - 1)); try done; [lia|].
        by rewrite aget_last. }
      lra.
Qed.



(** ** The summaries are coherent *)

Lemma sort_numerically_sorted (l : list Q) : Sorted Qle (Js.sort numerically l).
Proof.
  pose proof (sort_sorted numerically numerically_total numerically_trans l) as Hs.
  apply StronglySorted_Sorted.
  induction Hs as [|x r Hs IH Hall]; constructor; [done|].
  eapply Forall_impl; [exact Hall|].
  intros y Hy. by apply Qle_bool_iff.
Qed.

Lemma fold_sum_bounds (l : list Q) (lo hi acc : Q) :
  Forall (fun x => (lo <= x)%Q /\ (x <= hi)%Q) l ->
  (acc + inject_Z (Z.of_nat (length l)) * lo <= fold_left Qplus l acc)%Q
  /\ (fold_left Qplus l acc <= acc + inject_Z (Z.of_nat (length l)) * hi)%Q.
Proof.
  intros Hl. revert acc.
  induction Hl as [|x r [Hlo Hhi] _ IH]; intros acc.
  - cbn [fold_left length]. change (inject_Z (Z.of_nat 0)) with 0%Q. split; lra.
  - cbn [fold_left length]. destruct (IH (acc + x)%Q) as [H1 H2].
    rewrite Nat2Z.inj_succ. unfold Z.succ. rewrite inject_Z_plus.
    change (inject_Z 1) with 1%Q. split; lra.
Qed.

Lemma average_bounds (l : list Q) (lo hi : Q) :
  l <> [] -> Forall (fun x => (lo <= x)%Q /\ (x <= hi)%Q) l ->
  (lo <= sumQ l / inject_Z (Z.of_nat (length l)))%Q
  /\ (sumQ l / inject_Z (Z.of_nat (length l)) <= hi)%Q.
Proof.
  intros Hne Hl. destruct (fold_sum_bounds l lo hi 0 Hl) as [H1 H2].
  assert (0 < inject_Z (Z.of_nat (length l)))%Q as Hn.
  { change 0%Q with (inject_Z 0). rewrite <- Zlt_Qlt. destruct l; [done|].
    cbn [length]. lia. }
  unfold sumQ. split.
  - apply Qle_shift_div_l; [done|]. lra.
  - apply Qle_shift_div_r; [done|]. lra.
Qed.






(** X3.  The latency summary is ordered: with at least one RTT sample,
    [minMs] is one of the RTTs and no RTT is below it, every RTT is at
    least [minMs] and at most the greatest, min <= median <= p95 <= p99
    <= the greatest RTT, and min <= average <= the greatest RTT. *)
Theorem calculateLatency_ordered (m : MetricsCalculator.t) :
  rttSamples m <> [] ->
  let rtts := map (fun s => inject_Z (rtt s)) (rttSamples m) in
  exists la hi, calculateLatency m = Some la
    /\ In (minMs la) rtts /\ In hi rtts
    /\ Forall (fun r => (minMs la <= r)%Q /\ (r <= hi)%Q) rtts
    /\ (minMs la <= medianMs la)%Q /\ (medianMs la <= p95Ms la)%Q
    /\ (p95Ms la <= p99Ms la)%Q /\ (p99Ms la <= hi)%Q
    /\ (minMs la <= avgMs la)%Q /\ (avgMs la <= hi)%Q.
Proof.
  intros Hne rtts. unfold calculateLatency.
  destruct (rttSamples m) as [|s0 rest] eqn:E; [done|]. fold rtts.
  assert (rtts <> []) as Hrne by done.
  pose proof (sort_nonempty numerically rtts Hrne) as Hsne.
  pose proof (sort_numerically_sorted rtts) as Hs.
  pose proof (sort_perm numerically rtts) as Hperm.
  set (sorted := Js.sort numerically rtts) in *.
  destruct (percentile_monotone sorted 50 95 Hs) as (v50 & v95 & H50 & H95 & Hle1);
    try discriminate.
  destruct (percentile_monotone sorted 95 99 Hs) as (v95' & v99 & H95' & H99 & Hle2);
    try discriminate.
  assert (v95' = v95) as Hsame by congruence. subst v95'.
  destruct (percentile_in_range sorted 99 Hs Hsne) as (v & lo99 & hi & Hv & _ & Hlast & _ & Hhi);
    [split; discriminate|].
  assert (v = v99) as Hsame by congruence. subst v.
  destruct (percentile_in_range sorted 50 Hs Hsne) as (v & lo & hi' & Hv' & Hhead & _ & Hlo & _);
    [split; discriminate|].
  assert (v = v50) as Hsame by congruence. subst v.
  rewrite aget_zero, Hhead, H50, H95, H99. cbn [mbind option_bind].
  eexists _, hi. split; [reflexivity|]. cbn [minMs medianMs p95Ms p99Ms avgMs].
  assert (In lo sorted) as Hinlo.
  { destruct sorted; [done|]. injection Hhead as ->. by left. }
  assert (In hi sorted) as Hinhi.
  { clear -Hlast. induction sorted as [|x [|y r] IH]; [done| |].
    - injection Hlast as ->. by left.
    - right. by apply IH. }
  assert (Forall (fun r => (lo <= r)%Q /\ (r <= hi)%Q) rtts) as Hboth.
  { pose proof (sorted_head_least sorted lo Hs Hhead) as Hleast.
    pose proof (sorted_last_greatest sorted hi Hs Hlast) as Hgreat.
    rewrite List.Forall_forall in *. intros x Hx.
    assert (In x sorted) as Hx' by (eapply Permutation_in; [exact Hperm|exact Hx]).
    split; [by apply Hleast|by apply Hgreat]. }
  destruct (average_bounds rtts lo hi Hrne Hboth) as [Havlo Havhi].
  split; [eapply Permutation_in; [symmetry; exact Hperm|exact Hinlo]|].
  split; [eapply Permutation_in; [symmetry; exact Hperm|exact Hinhi]|].
  repeat split; try done.
Qed.

Lemma calculateLatency_ordered_witness :
  exists la hi,
    calculateLatency (Snapshot.after [Snapshot.AddRttSample 30 1; Snapshot.AddRttSample 10 2])
    = Some la
    /\ (minMs la <= medianMs la)%Q /\ (p99Ms la <= hi)%Q.
Proof.
  destruct (calculateLatency_ordered
              (Snapshot.after [Snapshot.AddRttSample 30 1; Snapshot.AddRttSample 10 2]))
    as (la & hi & H & _ & _ & _ & H1 & _ & _ & H2 & _).
  - discriminate.
  - exists la, hi. by repeat split.
Defined.

(** ** The calculator over any sequence of calls *)

Lemma greatest_snoc (l : list Z) (d : Z) :
  0 <= d -> Snapshot.greatest (l ++ [d]) = Z.max (Snapshot.greatest l) d.
Proof.
  intros Hd. unfold Snapshot.greatest.
  induction l as [|x r IH]; simpl; [lia|]. rewrite IH. lia.
Qed.

Lemma greatest_bounds (l : list Z) :
  0 <= Snapshot.greatest l /\ Forall (fun d => d <= Snapshot.greatest l) l.
Proof.
  unfold Snapshot.greatest. induction l as [|x r [IH0 IH]]; simpl.
  - split; [lia|constructor].
  - split; [lia|]. constructor; [lia|].
    eapply Forall_impl; [exact IH|]. intros d Hd. simpl in Hd. lia.
Qed.

(** What every sequence of calls keeps true of the jitter state and of
    the echo counters. *)
Lemma calls_invariant (cs : list Snapshot.Call) :
  let m := Snapshot.after cs in
  (0 <= jitterEstimate m)%Q
  /\ (jitterEstimate m <= inject_Z (Snapshot.greatest (jitterSamples m)))%Q
  /\ Forall (fun d => 0 <= d) (jitterSamples m)
  /\ (length (jitterSamples m) <= Nat.pred (length (rttSamples m)))%nat
  /\ 0 <= lostEchoes m
  /\ sentEchoes m = Z.of_nat (length (rttSamples m)) + lostEchoes m
  /\ (0 < lastRtt m -> (0 < length (rttSamples m))%nat).
Proof.
  unfold Snapshot.after.
  induction cs as [|c r IH] using rev_ind.
  - simpl. repeat split; try done; try lia; try constructor.
  - rewrite fold_left_app. cbn [fold_left].
    set (m := fold_left Snapshot.call r MetricsCalculator.reset) in *.
    destruct IH as (H0 & H1 & H2 & H3 & H4 & H5 & H6).
    destruct c as [b ts|rt ts| |]; cbn [Snapshot.call].
    + by repeat split.
    + cbn [addRttSample jitterEstimate jitterSamples rttSamples lostEchoes
           sentEchoes lastRtt].
      rewrite length_app. cbn [length].
      destruct (0 <? lastRtt m) eqn:E.
      * set (D := Z.abs (rt - lastRtt m)).
        assert (0 <= D) as HD by (unfold D; lia).
        rewrite greatest_snoc by done. rewrite length_app. cbn [length].
        assert (0 <= inject_Z D)%Q as HDq
          by (change 0%Q with (inject_Z 0); by rewrite <- Zle_Qle).
        assert (inject_Z (Snapshot.greatest (jitterSamples m))
                <= inject_Z (Z.max (Snapshot.greatest (jitterSamples m)) D))%Q as Hg
          by (rewrite <- Zle_Qle; lia).
        assert (inject_Z D
                <= inject_Z (Z.max (Snapshot.greatest (jitterSamples m)) D))%Q as Hd
          by (rewrite <- Zle_Qle; lia).
        assert ((inject_Z D - jitterEstimate m) / 16
                == (inject_Z D - jitterEstimate m) * (1 # 16))%Q as Hdiv by reflexivity.
        assert (0 < length (rttSamples m))%nat as Hlen by (apply H6; lia).
        split; [rewrite Hdiv; lra|]. split; [rewrite Hdiv; lra|].
        split; [apply Forall_app; split; [done|by constructor]|].
        split; [lia|]. split; [done|]. split; lia.
      * split; [done|]. split; [done|]. split; [done|].
        split; [lia|]. split; [done|]. split; lia.
    + cbn. repeat split; try done; lia.
    + simpl. repeat split; try done; try lia; try constructor.
Qed.

(** X4.  After any sequence of calls the jitter estimate is never
    negative and never above the greatest RTT difference recorded, there
    is at most one difference per RTT sample after the first, and the
    reported mean and p95 jitter lie between 0 and that greatest
    difference. *)
Theorem jitter_bounded (cs : list Snapshot.Call) :
  let m := Snapshot.after cs in
  let top := inject_Z (Snapshot.greatest (jitterSamples m)) in
  (0 <= jitterEstimate m)%Q /\ (jitterEstimate m <= top)%Q
  /\ (length (jitterSamples m) <= Nat.pred (length (rttSamples m)))%nat
  /\ exists j, calculateJitter m = Some j
       /\ (0 <= meanMs j)%Q /\ (meanMs j <= top)%Q
       /\ (0 <= jitterP95Ms j)%Q /\ (jitterP95Ms j <= top)%Q.
Proof.
  intros m top.
  destruct (calls_invariant cs) as (H0 & H1 & H2 & H3 & _). fold m in H0, H1, H2, H3.
  split; [done|]. split; [done|]. split; [done|].
  unfold calculateJitter.
  destruct (jitterSamples m) as [|d ds] eqn:E.
  { eexists. split; [reflexivity|]. simpl. repeat split; try apply Qle_refl.
    all: unfold top; discriminate. }
  set (qs := map inject_Z (d :: ds)).
  assert (qs <> []) as Hne by done.
  pose proof (sort_nonempty numerically qs Hne) as Hsne.
  pose proof (sort_numerically_sorted qs) as Hs.
  pose proof (sort_perm numerically qs) as Hperm.
  destruct (percentile_in_range (Js.sort numerically qs) 95 Hs Hsne)
    as (v & lo & hi & Hv & Hhead & Hlast & Hlo & Hhi); [split; discriminate|].
  rewrite Hv. eexists. split; [reflexivity|]. cbn [meanMs jitterP95Ms].
  assert (forall x, In x (Js.sort numerically qs) -> (0 <= x)%Q /\ (x <= top)%Q) as Hin.
  { intros x Hx.
    assert (In x qs) as Hx' by (eapply Permutation_in; [symmetry; exact Hperm|exact Hx]).
    apply List.in_map_iff in Hx' as (z & <- & Hz).
    destruct (greatest_bounds (d :: ds)) as [_ Hg].
    rewrite List.Forall_forall in H2, Hg.
    change 0%Q with (inject_Z 0). unfold top. rewrite <- !Zle_Qle.
    split; [by apply H2|by apply Hg]. }
  assert (In lo (Js.sort numerically qs)) as Hinlo.
  { destruct (Js.sort numerically qs); [done|]. injection Hhead as ->. by left. }
  assert (In hi (Js.sort numerically qs)) as Hinhi.
  { clear -Hlast. induction (Js.sort numerically qs) as [|x [|y r] IH]; [done| |].
    - injection Hlast as ->. by left.
    - right. by apply IH. }
  destruct (Hin lo Hinlo) as [Hlo0 _]. destruct (Hin hi Hinhi) as [_ Hhitop].
  repeat split; try done; lra.
Qed.

(** X5.  After any sequence of calls [sentEchoes] is the number of RTT
    samples plus [lostEchoes], [lostEchoes] lies between 0 and
    [sentEchoes], and the packet loss lies between 0 and 100. *)
Theorem packetLoss_bounded (cs : list Snapshot.Call) :
  let m := Snapshot.after cs in
  sentEchoes m = Z.of_nat (length (rttSamples m)) + lostEchoes m
  /\ 0 <= lostEchoes m <= sentEchoes m
  /\ (0 <= calculatePacketLoss m)%Q /\ (calculatePacketLoss m <= 100)%Q.
Proof.
  intros m.
  destruct (calls_invariant cs) as (_ & _ & _ & _ & H4 & H5 & _). fold m in H4, H5.
  split; [done|]. split; [lia|].
  unfold calculatePacketLoss.
  destruct (sentEchoes m =? 0) eqn:E; [split; discriminate|].
  assert (0 < inject_Z (sentEchoes m))%Q as Hs
    by (change 0%Q with (inject_Z 0); rewrite <- Zlt_Qlt; lia).
  assert (0 <= inject_Z (lostEchoes m))%Q as Hl
    by (change 0%Q with (inject_Z 0); rewrite <- Zle_Qle; lia).
  assert (inject_Z (lostEchoes m) <= inject_Z (sentEchoes m))%Q as Hls
    by (rewrite <- Zle_Qle; lia).
  assert (0 <= inject_Z (lostEchoes m) / inject_Z (sentEchoes m))%Q as H0
    by (apply Qle_shift_div_l; [done|]; lra).
  assert (inject_Z (lostEchoes m) / inject_Z (sentEchoes m) <= 1)%Q as H1
    by (apply Qle_shift_div_r; [done|]; lra).
  split; lra.
Qed.

Lemma calculateThroughput_defined (m : MetricsCalculator.t) (warmupMs : Z) :
  exists th, calculateThroughput m warmupMs = Some th.
Proof.
  unfold calculateThroughput.
  destruct (throughputSamples m) as [|s0 rest]; [by eexists|].
  destruct (measuredOf (s0 :: rest) warmupMs) as [|a r]; [by eexists|].
  destruct (summarize_total (windowRates (windowSize m) (a :: r)))
    as (v50 & v95 & v99 & mx & Hsum); [done|].
  rewrite Hsum. by eexists.
Qed.

Lemma round_of_clamped (x : Q) : 0 <= Js.round (Qmax 0 (Qmin 100 x)) <= 100.
Proof.
  unfold Js.round.
  assert (0 <= Qmax 0 (Qmin 100 x))%Q as H0 by apply Q.le_max_l.
  assert (Qmax 0 (Qmin 100 x) <= 100)%Q as H1.
  { apply Q.max_lub; [discriminate|apply Q.le_min_l]. }
  assert (0 <= Qmax 0 (Qmin 100 x) + (1 # 2))%Q as Ha by lra.
  assert (Qmax 0 (Qmin 100 x) + (1 # 2) <= 100 + (1 # 2))%Q as Hb by lra.
  apply Qfloor_resp_le in Ha, Hb.
  change (Qfloor 0) with 0 in Ha. change (Qfloor (100 + (1 # 2))) with 100 in Hb.
  lia.
Qed.

Lemma after_windowSize (cs : list Snapshot.Call) :
  windowSize (Snapshot.after cs) = 1000.
Proof.
  unfold Snapshot.after. induction cs as [|c r IH] using rev_ind; [done|].
  rewrite fold_left_app. cbn [fold_left]. by destruct c.
Qed.

(** X6.  After any sequence of calls the rolling window is 1000 ms (so
    no rate is a division by zero) and the stability score is an integer
    between 0 and 100, whatever the warm-up. *)
Theorem calculateStability_range (cs : list Snapshot.Call) (warmupMs : Z) :
  let m := Snapshot.after cs in
  windowSize m = 1000
  /\ exists score, calculateStability m warmupMs = Some score /\ 0 <= score <= 100.
Proof.
  intros m. split; [apply after_windowSize|].
  unfold calculateStability.
  destruct (calculateThroughput_defined m warmupMs) as (th & ->).
  destruct (calculateLatency_total m) as (la & ->).
  cbn [mbind option_bind]. eexists. split; [reflexivity|].
  apply round_of_clamped.
Qed.

(** X7.  [getMetrics] never reads outside an array: after any sequence
    of calls all five metrics of the snapshot are numbers (no percentile
    is computed from a missing element), each the value of its own
    calculation, so a caller may format them without a check. *)
Theorem getMetrics_defined (cs : list Snapshot.Call) :
  let m := Snapshot.after cs in
  exists g, Snapshot.getMetrics m = Some g
    /\ calculateThroughput m defaultWarmupMs = Some (Snapshot.throughput g)
    /\ calculateLatency m = Some (Snapshot.latency g)
    /\ calculateJitter m = Some (Snapshot.jitter g)
    /\ calculateStability m defaultWarmupMs = Some (Snapshot.stability g)
    /\ Snapshot.packetLoss g = calculatePacketLoss m
    /\ 0 <= Snapshot.stability g <= 100.
Proof.
  intros m. unfold Snapshot.getMetrics.
  destruct (calculateThroughput_defined m defaultWarmupMs) as (th & Hth).
  destruct (calculateLatency_total m) as (la & Hla).
  assert (exists ji, calculateJitter m = Some ji) as (ji & Hji).
  { unfold calculateJitter. destruct (jitterSamples m) as [|d ds]; [by eexists|].
    destruct (percentile_total (Js.sort numerically (map inject_Z (d :: ds))) 95)
      as (v & -> & _); [split; discriminate|]. by eexists. }
  assert (exists st, calculateStability m defaultWarmupMs = Some st /\ 0 <= st <= 100)
    as (st & Hst & Hrange).
  { unfold calculateStability. rewrite Hth, Hla. cbn [mbind option_bind].
    eexists. split; [reflexivity|]. apply round_of_clamped. }
  rewrite Hth, Hla, Hji, Hst. cbn [mbind option_bind].
  eexists. split; [reflexivity|]. cbn. repeat split; try done; lia.
Qed.

(** ** Warm-up discard and arrival order *)

(** X8.  When every sample lies less than [warmupMs] after every other
    one (a recording shorter than the warm-up, or a single sample with a
    positive warm-up), everything is discarded and the summary is all
    zeros. *)
Theorem calculateThroughput_short_recording (m : MetricsCalculator.t) (warmupMs : Z) :
  (forall s s', In s (throughputSamples m) -> In s' (throughputSamples m) ->
                timestamp s < timestamp s' + warmupMs) ->
  calculateThroughput m warmupMs = Some zeroThroughput.
Proof.
  intros Hshort. unfold calculateThroughput.
  destruct (throughputSamples m) as [|s0 rest] eqn:E; [done|].
  destruct (measuredOf (s0 :: rest) warmupMs) as [|a r] eqn:Em; [done|].
  exfalso.
  assert (In a (measuredOf (s0 :: rest) warmupMs)) as Ha by (rewrite Em; by left).
  apply measuredOf_keeps in Ha as (Hin & first & Hfirst & _ & Hge).
  specialize (Hshort a first Hin Hfirst). lia.
Qed.

Lemma calculateThroughput_short_recording_witness :
  calculateThroughput
    (Snapshot.after [Snapshot.AddThroughputSample 65536 1000;
                     Snapshot.AddThroughputSample 65536 3500]) 3000
  = Some zeroThroughput.
Proof.
  apply calculateThroughput_short_recording.
  intros s s' Hs Hs'. simpl in Hs, Hs'.
  destruct Hs as [<-|[<-|[]]]; destruct Hs' as [<-|[<-|[]]]; simpl; lia.
Defined.

Lemma sort_unique_order (l l' : list ThroughputSample) :
  Permutation l l' -> NoDup (map timestamp l) ->
  Js.sort byTimestamp l = Js.sort byTimestamp l'.
Proof.
  intros Hperm Hnd.
  pose proof (sort_perm byTimestamp l) as P1.
  pose proof (sort_perm byTimestamp l') as P2.
  pose proof (sort_sorted byTimestamp byTimestamp_total byTimestamp_trans l) as S1.
  pose proof (sort_sorted byTimestamp byTimestamp_total byTimestamp_trans l') as S2.
  assert (NoDup (map timestamp (Js.sort byTimestamp l))) as N1
    by (by rewrite <- (Permutation_map timestamp P1)).
  assert (NoDup (map timestamp (Js.sort byTimestamp l'))) as N2.
  { rewrite <- (Permutation_map timestamp P2).
    by rewrite <- (Permutation_map timestamp Hperm). }
  apply (sorted_nodup_strict _ S1) in N1. apply (sorted_nodup_strict _ S2) in N2.
  apply (StronglySorted_unique_strong tsLt); try done.
  - intros x1 x2 _ _ H1 H2. unfold tsLt in *. lia.
  - by rewrite <- P1, <- P2.
Qed.

(** X9.  When the timestamps are pairwise distinct the throughput
    summary does not depend on the order in which the samples arrived:
    two calculators (with the window of 1000 ms that [reset] sets) whose
    sample lists are permutations of each other report the same summary. *)
Theorem calculateThroughput_any_order (m m' : MetricsCalculator.t) (warmupMs : Z) :
  Permutation (throughputSamples m) (throughputSamples m') ->
  NoDup (map timestamp (throughputSamples m)) ->
  windowSize m = 1000 -> windowSize m' = 1000 ->
  calculateThroughput m warmupMs = calculateThroughput m' warmupMs.
Proof.
  intros Hperm Hnd Hw Hw'. unfold calculateThroughput, measuredOf.
  rewrite Hw, Hw', <- (sort_unique_order _ _ Hperm Hnd).
  destruct (throughputSamples m) as [|s0 rest] eqn:E.
  - apply Permutation_nil in Hperm. by rewrite Hperm.
  - destruct (throughputSamples m') as [|s0' rest'] eqn:E'; [|done].
    by apply Permutation_nil_r in Hperm.
Qed.

Lemma calculateThroughput_any_order_witness :
  calculateThroughput
    (Snapshot.after [Snapshot.AddThroughputSample 100 3000;
                     Snapshot.AddThroughputSample 50 0;
                     Snapshot.AddThroughputSample 200 3250]) 3000
  = calculateThroughput spacedSamples 3000.
Proof.
  apply calculateThroughput_any_order.
  - unfold spacedSamples. simpl. apply perm_swap.
  - apply (bool_decide_unpack _). vm_compute. exact I.
  - reflexivity.
  - reflexivity.
Defined.

(** ** Echo probes and their timers *)

Section EchoTimers.
Import TestOrchestrator.

Lemma cleanup_frame o :
  phase (cleanup o) = phase o /\ concurrency (cleanup o) = concurrency o.
Proof.
  unfold cleanup.
  destruct (ws o) eqn:Ews, (echoTimer o) eqn:Eet, (abortController o) eqn:Eac;
    simpl; rewrite ?Ews, ?Eet, ?Eac; simpl; rewrite ?Eet, ?Eac; simpl;
    rewrite ?Eac; simpl; done.
Qed.

Lemma echoStep_seq o e :
  echoSeq o <= echoSeq (echoStep o e)
  <= echoSeq o + match e with Tick _ => 1 | _ => 0 end.
Proof.
  destruct e as [now|[[s sendTime]|] receiveTime|id|]; simpl.
  - unfold echoTick. destruct (echoTimer o); [|lia].
    destruct (ws o); [|lia]. destruct (socket o); simpl; lia.
  - destruct (pendingEchoes o !! s); simpl; lia.
  - lia.
  - unfold fireTimer. destruct (decide (id ∈ timers o)); [|lia].
    unfold echoTimeout. simpl. destruct (pendingEchoes o !! id); simpl; lia.
  - destruct (cleanup_pending o) as (_ & _ & _ & -> & _). lia.
Qed.

Lemma ticks_cons e r :
  ticks (e :: r) = match e with Tick _ => 1 | _ => 0 end + ticks r.
Proof. unfold ticks. destruct e; cbn [List.filter length]; lia. Qed.

Lemma echoRun_seq tr o :
  echoSeq o <= echoSeq (echoRun o tr) <= echoSeq o + ticks tr.
Proof.
  revert o. induction tr as [|e r IH]; intros o.
  - unfold ticks. simpl. lia.
  - rewrite ticks_cons. cbn [echoRun fold_left].
    pose proof (echoStep_seq o e). specialize (IH (echoStep o e)).
    unfold echoRun in IH. lia.
Qed.

Lemma echoStep_keys o e :
  0 <= echoSeq o ->
  (forall k pe, pendingEchoes o !! k = Some pe -> 0 <= k) ->
  forall k pe, pendingEchoes (echoStep o e) !! k = Some pe -> 0 <= k.
Proof.
  intros Hseq Hkeys k pe.
  destruct e as [now|[[s sendTime]|] receiveTime|id|]; simpl.
  - unfold echoTick. destruct (echoTimer o); [|apply Hkeys].
    destruct (ws o); [|apply Hkeys]. destruct (socket o); try apply Hkeys.
    unfold sendEcho. simpl. intros H.
    apply lookup_insert_Some in H as [[<- _]|[_ H]]; [done|by eapply Hkeys].
  - destruct (pendingEchoes o !! s); [|apply Hkeys]. simpl. intros H.
    apply lookup_delete_Some in H as [_ H]. by eapply Hkeys.
  - apply Hkeys.
  - unfold fireTimer. destruct (decide (id ∈ timers o)); [|apply Hkeys].
    unfold echoTimeout. simpl. destruct (pendingEchoes o !! id); [|apply Hkeys].
    simpl. intros H. apply lookup_delete_Some in H as [_ H]. by eapply Hkeys.
  - destruct (cleanup_pending o) as (-> & _). by rewrite lookup_empty.
Qed.

Lemma echoRun_keys tr o :
  0 <= echoSeq o ->
  (forall k pe, pendingEchoes o !! k = Some pe -> 0 <= k) ->
  forall k pe, pendingEchoes (echoRun o tr) !! k = Some pe -> 0 <= k.
Proof.
  revert o. induction tr as [|e r IH]; intros o Hseq Hkeys; [exact Hkeys|].
  cbn [echoRun fold_left]. apply IH.
  - pose proof (echoStep_seq o e). lia.
  - by apply echoStep_keys.
Qed.

(** X10.  For every sequence of interval ticks, echo responses
    (well-formed or not), probe timeouts and cleanups that follows the
    start of the echo loop: the armed probe timers are
    exactly those of the pending probes (none is leaked, none is missing),
    every pending probe carries a sequence number already handed out and
    owns the timer of that number, the echoes counted and the probes
    pending never exceed the probes sent, and no more probes are sent
    than the interval has ticked. *)
Theorem echo_timers_match_pending (tr : list EchoEvent) :
  let o := echoRun echoing tr in
  timers o = dom (pendingEchoes o)
  /\ (forall k pe, pendingEchoes o !! k = Some pe ->
                   timeoutId pe = k /\ 0 <= k < echoSeq o)
  /\ MetricsCalculator.sentEchoes (metrics o) + Z.of_nat (size (pendingEchoes o))
     <= echoSeq o
  /\ 0 <= echoSeq o <= ticks tr.
Proof.
  intros o. pose proof (echoRun_inv tr echoing echoing_inv) as Hinv.
  fold o in Hinv. split; [apply (inv_timers o Hinv)|]. split.
  - intros k pe H. destruct (inv_keys o Hinv k pe H) as [Hlt Hid].
    split; [done|]. split; [|done].
    apply (echoRun_keys tr echoing) with (pe := pe); [done| |exact H].
    intros k' pe' H'. simpl in H'. by rewrite lookup_empty in H'.
  - split; [apply (inv_bound o Hinv)|].
    pose proof (echoRun_seq tr echoing) as Hs. simpl in Hs. unfold o. lia.
Qed.

Lemma cleanup_fields o :
  cleanup o
  = {| phase := phase o;
       abortController := false;
       signalAborted := if abortController o then true else signalAborted o;
       metrics := metrics o;
       concurrency := concurrency o;
       ws := false;
       socket := if ws o then CLOSED else socket o;
       echoTimer := false;
       echoSeq := echoSeq o;
       pendingEchoes := ∅;
       timers := timers o ∖ map_img (timeoutId <$> pendingEchoes o);
       emitted := emitted o |}.
Proof.
  destruct o as [ph ac sa m c w so et es pe ti em].
  unfold cleanup. simpl. destruct w, et, ac; reflexivity.
Qed.

Lemma cleanup_idempotent o : cleanup (cleanup o) = cleanup o.
Proof.
  rewrite (cleanup_fields (cleanup o)). rewrite (cleanup_fields o). simpl.
  by rewrite fmap_empty, map_img_empty_L, difference_empty_L.
Qed.

(** X12.  [stop()] and [cleanup()] are idempotent, and the [cleanup()]
    that [start] runs in its [finally] changes nothing after a
    [stop()]: a second call finds no socket, no interval, no pending
    probe and no abort controller. *)
Theorem stop_idempotent (o : TestOrchestrator.t) :
  stop (stop o) = stop o
  /\ cleanup (stop o) = stop o
  /\ cleanup (cleanup o) = cleanup o.
Proof.
  assert (cleanup (stop o) = stop o) as Hcs by apply cleanup_idempotent.
  split; [|split; [exact Hcs|apply cleanup_idempotent]].
  unfold stop at 1.
  assert (abortController (stop o) = false) as ->; [|exact Hcs].
  unfold stop.
  match goal with |- context [cleanup ?x] =>
    destruct (cleanup_pending x) as (_ & _ & _ & _ & _ & _ & _ & H & _) end.
  exact H.
Qed.
End EchoTimers.

(** ** The report of a run *)

Section RunReports.
Import TestOrchestrator.
Import Reports.

Lemma phaseChanges_app a b : phaseChanges (a ++ b) = phaseChanges a ++ phaseChanges b.
Proof. unfold phaseChanges. apply omap_app. Qed.

Lemma advances_refl o : advances [] o o.
Proof. split; [done|by rewrite List.app_nil_r]. Qed.

Lemma advances_trans a b o1 o2 o3 :
  advances a o1 o2 -> advances b o2 o3 -> advances (a ++ b) o1 o3.
Proof.
  intros [H1 E1] [H2 E2]. split; [auto|]. by rewrite E2, E1, List.app_assoc.
Qed.

Lemma advances_steady o1 o2 o3 :
  advances [] o1 o2 -> advances [] o2 o3 -> advances [] o1 o3.
Proof. apply (advances_trans [] []). Qed.

Lemma advances_update o o' :
  (EchoInv o -> EchoInv o') ->
  emitted o' = emitted o \/ emitted o' = emitted o ++ [MetricsUpdate]
  \/ emitted o' = emitted o ++ [Capabilities] ->
  advances [] o o'.
Proof.
  intros Hinv He. split; [exact Hinv|].
  destruct He as [-> | [-> | ->]]; rewrite ?phaseChanges_app; simpl;
    by rewrite ?List.app_nil_r.
Qed.

Lemma echoStep_emitted o e :
  emitted (echoStep o e) = emitted o
  \/ emitted (echoStep o e) = emitted o ++ [MetricsUpdate].
Proof.
  destruct e as [now|[[s sendTime]|] receiveTime|id|]; simpl.
  - unfold echoTick. destruct (echoTimer o); [|by left].
    destruct (ws o); [|by left]. destruct (socket o); by left.
  - destruct (pendingEchoes o !! s); [by right|by left].
  - by left.
  - unfold fireTimer. destruct (decide (id ∈ timers o)); [|by left].
    unfold echoTimeout. simpl. destruct (pendingEchoes o !! id); [by right|by left].
  - left. by rewrite cleanup_fields.
Qed.

Lemma echoStep_steady o e : advances [] o (echoStep o e).
Proof.
  apply advances_update; [apply echoStep_inv|].
  destruct (echoStep_emitted o e); auto.
Qed.

Lemma echoRun_steady tr o : advances [] o (echoRun o tr).
Proof.
  revert o. induction tr as [|e r IH]; intros o; [apply advances_refl|].
  cbn [echoRun fold_left]. eapply advances_steady; [apply echoStep_steady|apply IH].
Qed.

Lemma stop_steady o : advances [] o (stop o).
Proof.
  apply advances_update.
  - intros Hinv. unfold stop. apply cleanup_inv.
    destruct (abortController o); [|done]. destruct Hinv. by split.
  - left. apply stop_emits_nothing.
Qed.

Lemma marks_perform ps f : (forall o, advances ps o (f o)) -> marks ps (perform f).
Proof. intros H o. apply H. Qed.

Lemma marks_steady f g : marks [] f -> marks [] g -> marks [] (andThen f g).
Proof.
  intros Hf Hg o. unfold andThen. specialize (Hf o).
  destruct (f o) as [[|e] o1]; simpl in *; [|done].
  eapply advances_steady; [exact Hf|apply Hg].
Qed.

Lemma marks_andThen a b f g :
  calm f -> marks a f -> marks b g -> marks (a ++ b) (andThen f g).
Proof.
  intros Hc Hf Hg o. unfold andThen. specialize (Hf o). specialize (Hc o).
  destruct (f o) as [c o1]. simpl in *. subst c.
  eapply advances_trans; [exact Hf|apply Hg].
Qed.

Lemma marks_tryCatch body handler :
  marks [] body -> (forall e, marks [] (handler e)) -> marks [] (tryCatch body handler).
Proof.
  intros Hb Hh o. unfold tryCatch. specialize (Hb o).
  destruct (body o) as [[|e] o1]; simpl in *; [done|].
  eapply advances_steady; [exact Hb|apply Hh].
Qed.

Lemma marks_interrupt env s : marks [] (interrupt env s).
Proof.
  apply marks_perform. intros o.
  destruct (decide (stopDuring env = Some s)).
  - eapply advances_steady; [apply echoRun_steady|apply stop_steady].
  - apply echoRun_steady.
Qed.

Lemma sample_steady b now o : advances [] o (emit MetricsUpdate (recordSample b now o)).
Proof.
  apply advances_update; [|by right; left].
  intros Hinv. destruct Hinv. by split.
Qed.

Lemma sample_silent_steady b now o : advances [] o (recordSample b now o).
Proof.
  apply advances_update; [|by left].
  intros Hinv. destruct Hinv. by split.
Qed.

Lemma readLoop_steady isWarmup reads lastSampleTime bucketBytes o :
  advances [] o (readLoop isWarmup reads lastSampleTime bucketBytes o).2.
Proof.
  revert lastSampleTime bucketBytes o.
  induction reads as [|[len now] r IH]; intros lastSampleTime bucketBytes o; simpl;
    [apply advances_refl|].
  destruct (SAMPLE_INTERVAL <=? now - lastSampleTime); [|apply IH].
  destruct isWarmup; [apply IH|].
  eapply advances_steady; [apply sample_steady|apply IH].
Qed.

Lemma download_steady s isWarmup : marks [] (runSingleDownloadStream s isWarmup).
Proof.
  apply marks_tryCatch; [|intros e o; apply advances_refl].
  intros o. unfold downloadBody.
  destruct (abortController o); [|apply advances_refl].
  destruct (dlFetch s); try apply advances_refl.
  pose proof (readLoop_steady isWarmup (dlReads s) (dlStart s) 0 o) as Hr.
  destruct (readLoop isWarmup (dlReads s) (dlStart s) 0 o) as [b o1]. simpl in Hr.
  destruct (dlEnd s); [|exact Hr].
  destruct ((0 <? b) && negb isWarmup); [|exact Hr].
  eapply advances_steady; [exact Hr|apply sample_silent_steady].
Qed.

Lemma uploadLoop_steady endTime turns o : advances [] o (uploadLoop endTime turns o).2.
Proof.
  revert o. induction turns as [|u r IH]; intros o; simpl; [apply advances_refl|].
  destruct ((ulNow u <? endTime) && _); [|apply advances_refl].
  destruct (ulFetch u); try apply advances_refl.
  eapply advances_steady; [apply sample_steady|apply IH].
Qed.

Lemma upload_steady s duration : marks [] (runSingleUploadStream s duration).
Proof.
  apply marks_tryCatch; [|intros e o; apply advances_refl].
  intros o. apply uploadLoop_steady.
Qed.

Lemma allOf_steady tasks : Forall (marks []) tasks -> marks [] (allOf tasks).
Proof.
  induction 1 as [|k r Hk Hr IH]; simpl.
  - intros o. apply advances_refl.
  - by apply marks_steady.
Qed.

Lemma downloads_steady script numStreams isWarmup :
  marks [] (runDownloadStreams script numStreams isWarmup).
Proof.
  apply allOf_steady, List.Forall_forall. intros k Hk.
  apply List.in_map_iff in Hk as (i & <- & _). apply download_steady.
Qed.

Lemma uploads_steady script numStreams duration :
  marks [] (runUploadStreams script numStreams duration).
Proof.
  apply allOf_steady, List.Forall_forall. intros k Hk.
  apply List.in_map_iff in Hk as (i & <- & _). apply upload_steady.
Qed.

Lemma marks_announce p :
  marks [p] (perform (fun o => emit (PhaseChange p) (set_phase (Some p) o))).
Proof.
  apply marks_perform. intros o. split.
  - intros Hinv. destruct Hinv. by split.
  - simpl. by rewrite phaseChanges_app.
Qed.

Lemma marks_phase p (rest : Task) :
  marks [] rest ->
  marks [p] (andThen (perform (fun o => emit (PhaseChange p) (set_phase (Some p) o)))
               rest).
Proof.
  intros Hr. apply (marks_andThen [p] []); [apply calm_perform|apply marks_announce|done].
Qed.

Lemma discovery_marks env : marks [discovery] (runDiscovery env).
Proof.
  apply marks_phase, marks_tryCatch; [|intros e o; apply advances_refl].
  apply marks_steady; [apply marks_interrupt|].
  intros o. destruct (capsOutcome env); [|apply advances_refl].
  apply advances_update; [|by right; right].
  intros Hinv. destruct Hinv. by split.
Qed.

Lemma connect_marks env : marks [] (startLatencyTest env).
Proof.
  apply marks_steady.
  { apply marks_perform. intros o. apply advances_update; [|by left].
    intros Hinv. destruct Hinv. by split. }
  apply marks_steady; [apply marks_interrupt|].
  intros o. destruct (wsOpens env); [|apply advances_refl].
  apply advances_update; [|by left].
  intros Hinv. destruct Hinv. by split.
Qed.

Lemma warmup_marks env : marks [warmup] (runWarmup env).
Proof.
  apply marks_phase. intros o.
  apply marks_steady; [apply downloads_steady|apply marks_interrupt].
Qed.

Lemma ramp_marks env : marks [ramp] (runRamp env).
Proof.
  apply marks_phase. intros o.
  apply marks_steady; [apply downloads_steady|apply marks_interrupt].
Qed.

Lemma measure_download_marks env d : marks [measure_download] (runMeasureDownload env d).
Proof.
  apply marks_phase. intros o.
  apply marks_steady; [apply downloads_steady|apply marks_interrupt].
Qed.

Lemma measure_upload_marks env d : marks [measure_upload] (runMeasureUpload env d).
Proof.
  apply marks_phase. intros o.
  apply marks_steady; [apply uploads_steady|apply marks_interrupt].
Qed.

Lemma cooldown_marks env : marks [cooldown] (runCooldown env).
Proof. apply marks_phase, marks_interrupt. Qed.

Lemma streaming_marks env :
  marks [warmup; ramp; measure_download; measure_upload; cooldown]
    (andThen (runWarmup env)
    (andThen (runRamp env)
    (andThen (runMeasureDownload env (measureDuration env))
    (andThen (runMeasureUpload env (measureDuration env))
             (runCooldown env))))).
Proof.
  apply (marks_andThen [warmup] [ramp; measure_download; measure_upload; cooldown]);
    [apply phase_warmup|apply warmup_marks|].
  apply (marks_andThen [ramp] [measure_download; measure_upload; cooldown]);
    [apply phase_ramp|apply ramp_marks|].
  apply (marks_andThen [measure_download] [measure_upload; cooldown]);
    [apply phase_measure_download|apply measure_download_marks|].
  apply (marks_andThen [measure_upload] [cooldown]);
    [apply phase_measure_upload|apply measure_upload_marks|apply cooldown_marks].
Qed.

Lemma discovery_outcome env o :
  (runDiscovery env o).1
  = match capsOutcome env with Some _ => Normal | None => Throw OtherError end.
Proof.
  unfold runDiscovery, andThen, tryCatch, perform, interrupt. simpl.
  by destruct (capsOutcome env).
Qed.

Lemma connect_outcome env o :
  (startLatencyTest env o).1 = if wsOpens env then Normal else Throw OtherError.
Proof.
  unfold startLatencyTest, andThen, perform, interrupt. simpl.
  by destruct (wsOpens env).
Qed.

Lemma andThen_run (f g : Task) o :
  andThen f g o
  = match f o with (Normal, o') => g o' | (Throw e, o') => (Throw e, o') end.
Proof. reflexivity. Qed.

(** The phases end normally exactly when discovery and the connection
    succeed; otherwise they throw an ordinary error with only
    [discovery] announced. *)
Lemma phases_report env o :
  (phases env o).1 = (if connected env then Normal else Throw OtherError)
  /\ advances (if connected env then allPhases else [discovery]) o (phases env o).2.
Proof.
  unfold phases, connected.
  pose proof (discovery_outcome env o) as Hd.
  pose proof (discovery_marks env o) as Md.
  rewrite (andThen_run (runDiscovery env)).
  destruct (runDiscovery env o) as [c1 o1]. simpl in Hd, Md. subst c1.
  destruct (capsOutcome env) as [c|]; [|split; [done|exact Md]].
  pose proof (connect_outcome env o1) as Hc.
  pose proof (connect_marks env o1) as Mc.
  rewrite (andThen_run (startLatencyTest env)).
  destruct (startLatencyTest env o1) as [c2 o2]. simpl in Hc, Mc. subst c2.
  destruct (wsOpens env).
  - split; [apply streaming_calm|].
    apply (advances_trans [discovery] _ o o1); [exact Md|].
    apply (advances_trans [] _ o1 o2); [exact Mc|]. apply streaming_marks.
  - split; [done|]. simpl.
    apply (advances_trans [discovery] [] o o1) in Mc; [|exact Md]. exact Mc.
Qed.

(** X15.  Every run announces [discovery] first; when discovery and
    the WebSocket connection succeed it goes on to announce warm-up,
    ramp, download measurement, upload measurement and cooldown, each
    once and in this order, and ends with [complete]; otherwise it
    announces no further phase and ends with [error].  The terminal event
    is the last one emitted.  A [stop()], a failing stream or an echo
    callback changes none of this. *)
Theorem start_announces_phases (env : Env) (o : TestOrchestrator.t) :
  phaseChanges (emitted (start env o))
  = phaseChanges (emitted o) ++ (if connected env then allPhases else [discovery])
  /\ last (emitted (start env o)) = Some (if connected env then Complete else Error).
Proof.
  rewrite start_unfold.
  set (o0 := set_signalAborted false _).
  destruct (phases_report env o0) as [Hc [_ Hp]].
  cbv zeta. rewrite cleanup_fields. cbn [emitted].
  destruct (phases env o0) as [c o1]. simpl in Hc, Hp. subst c. cbn [fst snd].
  change (emitted o0) with (emitted o) in Hp.
  destruct (connected env); cbn [emit set_emitted emitted];
    rewrite phaseChanges_app, Hp, last_snoc; simpl; by rewrite List.app_nil_r.
Qed.

Lemma start_inv env : EchoInv (start env new).
Proof.
  rewrite start_unfold. apply cleanup_inv.
  set (o0 := set_signalAborted false _).
  assert (EchoInv o0) as H0.
  { split; simpl.
    - intros k pe H. by rewrite lookup_empty in H.
    - by rewrite dom_empty_L.
    - done.
    - rewrite map_size_empty. done. }
  destruct (phases_report env o0) as [_ [Hinv _]]. specialize (Hinv H0).
  cbv zeta. destruct (phases env o0) as [c o1]. simpl in *.
  destruct c as [|[]]; destruct Hinv; by split.
Qed.

(** X13.  When [start] returns, the socket is dropped, the echo
    interval is cleared, no probe is pending, no probe timer is armed and
    the abort controller is released; and no interval tick, echo response
    or probe timeout that still fires afterwards emits or records
    anything.  (The five second connection timer of [startLatencyTest] is
    not part of the model.) *)
Theorem run_leaves_nothing_behind (env : Env) (tr : list EchoEvent) :
  let o := start env new in
  ws o = false /\ echoTimer o = false /\ abortController o = false
  /\ pendingEchoes o = ∅ /\ timers o = ∅
  /\ emitted (echoRun o tr) = emitted o
  /\ metrics (echoRun o tr) = metrics o.
Proof.
  intros o. pose proof (start_inv env) as Hinv. fold o in Hinv.
  assert (ws o = false /\ echoTimer o = false /\ abortController o = false
          /\ pendingEchoes o = ∅) as (Hw & Ht & Ha & Hp).
  { unfold o. rewrite start_unfold, cleanup_fields. done. }
  repeat split; try done.
  - rewrite (inv_timers o Hinv), Hp. apply dom_empty_L.
  - apply run_over_is_silent.
  - apply run_over_is_silent.
Qed.
End RunReports.

(** ** Runs that fail, warm-up traffic and the bytes of a stream *)

Section RunDetails.
Import TestOrchestrator.
Import Reports.

Lemma echoStep_phase o e : phase (echoStep o e) = phase o.
Proof.
  destruct e as [now|[[s sendTime]|] receiveTime|id|]; simpl.
  - unfold echoTick. destruct (echoTimer o); [|done].
    destruct (ws o); [|done]. by destruct (socket o).
  - by destruct (pendingEchoes o !! s).
  - done.
  - unfold fireTimer. destruct (decide (id ∈ timers o)); [|done].
    unfold echoTimeout. simpl. by destruct (pendingEchoes o !! id).
  - by rewrite cleanup_fields.
Qed.

Lemma echoRun_idle tr o :
  idle o ->
  idle (echoRun o tr) /\ emitted (echoRun o tr) = emitted o
  /\ metrics (echoRun o tr) = metrics o /\ phase (echoRun o tr) = phase o.
Proof.
  revert o. induction tr as [|e r IH]; intros o [Hp Ht]; [done|].
  destruct (echoStep_silent o e Hp Ht) as (Hp' & Ht' & He & Hm).
  cbn [echoRun fold_left]. destruct (IH (echoStep o e)) as (Hi & He' & Hm' & Hph).
  { by split. }
  unfold echoRun in *. rewrite He', Hm', Hph, He, Hm, echoStep_phase. done.
Qed.

Lemma stop_idle o :
  idle (stop o) /\ emitted (stop o) = emitted o
  /\ metrics (stop o) = metrics o /\ phase (stop o) = phase o.
Proof.
  unfold stop, idle. rewrite cleanup_fields. simpl.
  by destruct (abortController o).
Qed.

Lemma interrupt_idle env s o :
  idle o ->
  let o' := (interrupt env s o).2 in
  idle o' /\ emitted o' = emitted o /\ metrics o' = metrics o /\ phase o' = phase o.
Proof.
  intros Hidle. unfold interrupt, perform. cbn [snd].
  destruct (echoRun_idle (echoDuring env s) o Hidle) as (Hi & He & Hm & Hph).
  destruct (decide (stopDuring env = Some s)); [|done].
  destruct (stop_idle (echoRun o (echoDuring env s))) as (Hi' & He' & Hm' & Hph').
  rewrite He', Hm', Hph'. done.
Qed.

Lemma discovery_unfold env o :
  runDiscovery env o
  = let o2 := (interrupt env AtDiscovery
                 (emit (PhaseChange discovery) (set_phase (Some discovery) o))).2 in
    match capsOutcome env with
    | None => (Throw OtherError, o2)
    | Some maxConcurrency =>
      (Normal,
       emit Capabilities
         (set_concurrency
            (Z.min (if maxConcurrency =? 0 then DEFAULT_CONCURRENCY else maxConcurrency)
               MAX_CONCURRENCY) o2))
    end.
Proof.
  unfold runDiscovery, andThen, tryCatch, perform, interrupt. simpl.
  by destruct (capsOutcome env).
Qed.

Lemma connect_unfold env o :
  startLatencyTest env o
  = let o2 := (interrupt env AtConnect (set_socket CONNECTING (set_ws true o))).2 in
    if wsOpens env
    then (Normal, set_echoTimer true (set_socket OPEN o2))
    else (Throw OtherError, o2).
Proof.
  unfold startLatencyTest, andThen, perform, interrupt. simpl.
  by destruct (wsOpens env).
Qed.

(** X14.  A run whose discovery request fails, or whose WebSocket
    does not open, reports exactly [discovery] (then [capabilities], when
    discovery itself succeeded) and [error]; it records no sample and no
    echo, and its phase stays [discovery].  Timer and socket callbacks
    and a [stop()] during these stages change nothing of this. *)
Theorem failed_run_report (env : Env) (o : TestOrchestrator.t) :
  connected env = false ->
  emitted (start env o)
  = emitted o
    ++ PhaseChange discovery
       :: match capsOutcome env with Some _ => [Capabilities] | None => [] end
       ++ [Error]
  /\ metrics (start env o) = MetricsCalculator.reset
  /\ phase (start env o) = Some discovery.
Proof.
  intros Hconn. rewrite start_unfold, cleanup_fields. cbn [emitted metrics phase].
  set (o0 := set_signalAborted false _).
  set (o1 := emit (PhaseChange discovery) (set_phase (Some discovery) o0)).
  assert (idle o1) as Hidle1 by done.
  destruct (interrupt_idle env AtDiscovery o1 Hidle1) as (Hi2 & He2 & Hm2 & Hph2).
  unfold phases, connected in *.
  rewrite (andThen_run (runDiscovery env)), discovery_unfold. fold o1. cbv zeta.
  set (o2 := (interrupt env AtDiscovery o1).2) in *.
  destruct (capsOutcome env) as [c|].
  - set (o3 := emit Capabilities _).
    set (o4 := set_socket CONNECTING (set_ws true o3)).
    assert (idle o4) as Hidle4 by (destruct Hi2; by split).
    destruct (interrupt_idle env AtConnect o4 Hidle4) as (Hi5 & He5 & Hm5 & Hph5).
    rewrite (andThen_run (startLatencyTest env)), connect_unfold. fold o4. cbv zeta.
    rewrite Hconn. cbn [fst snd emit set_emitted emitted metrics phase].
    rewrite He5, Hm5, Hph5. cbn [o4 o3 emit set_emitted set_socket set_ws
      set_concurrency emitted metrics phase].
    rewrite He2, Hm2, Hph2. simpl. by rewrite <- !List.app_assoc.
  - cbn [fst snd emit set_emitted emitted metrics phase].
    rewrite He2, Hm2, Hph2. simpl. by rewrite <- !List.app_assoc.
Qed.

Lemma failed_run_report_witness :
  emitted (start (Build_Env None true (fun _ => steadyDownload 0)
                    (fun _ => steadyDownload 0) (fun _ => steadyDownload 0)
                    (fun _ => steadyUpload 0) 0 (fun _ => [Tick 5; TimerFires 0])
                    (Some AtDiscovery)) new)
  = [PhaseChange discovery; Error].
Proof.
  set (env := Build_Env _ _ _ _ _ _ _ _ _).
  destruct (failed_run_report env new) as [H _]; [reflexivity|].
  exact H.
Defined.

Lemma warmup_stream_inert s o : runSingleDownloadStream s true o = (Normal, o).
Proof.
  unfold runSingleDownloadStream, tryCatch, downloadBody, perform.
  destruct (abortController o); [|done].
  destruct (dlFetch s); try done.
  pose proof (readLoop_warmup (dlReads s) (dlStart s) 0 o) as Hw.
  destruct (readLoop true (dlReads s) (dlStart s) 0 o) as [b o1]. simpl in Hw.
  subst o1. rewrite andb_false_r. by destruct (dlEnd s).
Qed.

(** X16.  Warm-up streams leave the orchestrator exactly as it was:
    whatever the network delivers, and whether [fetch] succeeds, fails or
    is aborted, they record no sample, emit nothing and never reject. *)
Theorem warmup_streams_inert (script : nat -> DownloadScript) (numStreams : Z)
    (o : TestOrchestrator.t) :
  runDownloadStreams script numStreams true o = (Normal, o).
Proof.
  unfold runDownloadStreams. generalize (streamIds numStreams) as ids.
  induction ids as [|i r IH]; [done|].
  cbn [map allOf]. by rewrite andThen_run, warmup_stream_inert.
Qed.

Lemma buckets_sum reads lastSampleTime bucketBytes :
  0 <= bucketBytes ->
  Forall (fun r => 0 <= r.1) reads ->
  let b := buckets reads lastSampleTime bucketBytes in
  sumZ (map bytes b.1) + b.2 = bucketBytes + sumZ (map fst reads)
  /\ 0 <= b.2
  /\ 0 <= sumZ (map bytes b.1).
Proof.
  intros Hb Hreads. revert lastSampleTime bucketBytes Hb.
  induction Hreads as [|[len now] r Hlen Hrest IH]; intros lastSampleTime bucketBytes Hb.
  - unfold sumZ. simpl. lia.
  - cbn [buckets]. simpl in Hlen.
    destruct (SAMPLE_INTERVAL <=? now - lastSampleTime).
    + specialize (IH now 0 ltac:(lia)).
      destruct (buckets r now 0) as [l b]. unfold sumZ in *. simpl in *. lia.
    + specialize (IH lastSampleTime (bucketBytes + len) ltac:(lia)).
      destruct (buckets r lastSampleTime (bucketBytes + len)) as [l b].
      unfold sumZ in *. simpl in *. lia.
Qed.

(** X17.  A download stream outside warm-up accounts for every byte
    it reads exactly once: when the stream ends normally the bytes of the
    samples it recorded add up to the bytes it read, and when reading
    fails they add up to no more than that (the bucket still open is
    dropped). *)
Theorem download_stream_counts_bytes (s : DownloadScript) (o : TestOrchestrator.t) :
  abortController o = true ->
  dlFetch s = FetchOk ->
  Forall (fun r => 0 <= r.1) (dlReads s) ->
  let o' := (runSingleDownloadStream s false o).2 in
  let read := sumZ (map fst (dlReads s)) in
  match dlEnd s with
  | ReadDone _ => recordedBytes o' = recordedBytes o + read
  | ReadFail _ => recordedBytes o <= recordedBytes o' <= recordedBytes o + read
  end.
Proof.
  intros Hac Hfetch Hreads o' read.
  destruct (runSingleDownloadStream_appends s false o Hac) as (o1 & Hrun & Hs & _).
  unfold o'. rewrite Hrun. cbn [snd]. unfold recordedBytes. rewrite Hs.
  rewrite map_app, sumZ_app. unfold downloadSamples. rewrite Hfetch.
  destruct (buckets_sum (dlReads s) (dlStart s) 0 ltac:(lia) Hreads) as (Hsum & Hrest & Hpos).
  destruct (buckets (dlReads s) (dlStart s) 0) as [l b]. simpl in Hsum, Hrest, Hpos.
  fold read in Hsum.
  destruct (dlEnd s) as [now|e]; [|lia].
  destruct (0 <? b) eqn:E.
  - rewrite map_app, sumZ_app. unfold sumZ at 3. simpl. lia.
  - apply Z.ltb_ge in E. lia.
Qed.

Lemma download_stream_counts_bytes_witness :
  recordedBytes (runSingleDownloadStream (steadyDownload 1000) false echoing).2
  = recordedBytes echoing + 524288.
Proof.
  apply (download_stream_counts_bytes (steadyDownload 1000) echoing).
  - reflexivity.
  - reflexivity.
  - repeat constructor; simpl; lia.
Defined.
End RunDetails.

(** ** Progress of a run *)

Section ProgressFacts.
Import Progress.

Lemma totalDuration_value : totalDuration = 16000.
Proof. reflexivity. Qed.

Lemma progress_fraction (z : Z) :
  (inject_Z z / inject_Z totalDuration * 100 == z # 160)%Q.
Proof.
  rewrite totalDuration_value. unfold Qeq, Qdiv, Qmult, Qinv, inject_Z. simpl. lia.
Qed.

(** X18.  Once a run has started (at a time other than 0) the progress
    is a percentage of a 16 second scale: the five phase durations and
    the measuring duration once more.  It starts at 0, never decreases
    with time, never exceeds 100, and reaches 100 exactly when 16 seconds
    have passed. *)
Theorem getProgress_range (startTime now now' : Z) :
  startTime <> 0 -> startTime <= now <= now' ->
  (getProgress (Some startTime) startTime == 0)%Q
  /\ (0 <= getProgress (Some startTime) now)%Q
  /\ (getProgress (Some startTime) now <= getProgress (Some startTime) now')%Q
  /\ (getProgress (Some startTime) now' <= 100)%Q
  /\ ((getProgress (Some startTime) now == 100)%Q <-> startTime + 16000 <= now).
Proof.
  intros Hst Hnow. unfold getProgress.
  destruct (startTime =? 0) eqn:E; [lia|]. clear E.
  rewrite !progress_fraction.
  assert (forall z, (Qmin 100 (z # 160) == if 16000 <=? z then 100 else z # 160)%Q)
    as Hmin.
  { intros z. destruct (16000 <=? z) eqn:E.
    - apply Q.min_l. unfold Qle. simpl. lia.
    - apply Q.min_r. unfold Qle. simpl. lia. }
  rewrite !Hmin. replace (startTime - startTime) with 0 by lia.
  split; [reflexivity|]. split.
  { destruct (16000 <=? now - startTime); unfold Qle; simpl; lia. }
  split.
  { destruct (16000 <=? now - startTime) eqn:E1, (16000 <=? now' - startTime) eqn:E2;
      unfold Qle; simpl; lia. }
  split.
  { destruct (16000 <=? now' - startTime) eqn:E2; unfold Qle; simpl; lia. }
  destruct (16000 <=? now - startTime) eqn:E1; unfold Qeq; simpl; lia.
Qed.

Lemma getProgress_range_witness :
  (getProgress (Some 1700000000000%Z) 1700000004000%Z
   <= getProgress (Some 1700000000000%Z) 1700000008000%Z)%Q.
Proof.
  destruct (getProgress_range 1700000000000 1700000004000 1700000008000)
    as (_ & _ & H & _); [lia|lia|exact H].
Defined.
End ProgressFacts.

(** ** Connection tracking *)

Section ConnectionFacts.
Import Connections.

Lemma total_insert_fresh (m : gmap string Z) ip n :
  m !! ip = None ->
  map_fold (fun _ n acc => n + acc) 0 (<[ip := n]> m)
  = n + map_fold (fun _ n acc => n + acc) 0 m.
Proof.
  intros H.
  apply (map_fold_insert_L (fun (_ : string) (n acc : Z) => n + acc) 0 ip n m);
    [intros; lia|exact H].
Qed.

Lemma total_delete (m : gmap string Z) ip n :
  m !! ip = Some n ->
  map_fold (fun _ n acc => n + acc) 0 m
  = n + map_fold (fun _ n acc => n + acc) 0 (delete ip m).
Proof.
  intros H. rewrite <- (total_insert_fresh (delete ip m) ip n) by apply lookup_delete_eq.
  by rewrite insert_delete_id.
Qed.

Lemma total_insert (m : gmap string Z) ip n :
  map_fold (fun _ n acc => n + acc) 0 (<[ip := n]> m)
  = n + map_fold (fun _ n acc => n + acc) 0 (delete ip m).
Proof.
  rewrite <- (insert_delete_eq m). apply total_insert_fresh, lookup_delete_eq.
Qed.

Lemma total_nonneg (m : gmap string Z) :
  map_Forall (fun _ n => 1 <= n) m -> 0 <= map_fold (fun _ n acc => n + acc) 0 m.
Proof.
  apply (map_fold_weak_ind
           (fun r (m : gmap string Z) => map_Forall (fun _ n => 1 <= n) m -> 0 <= r)).
  - done.
  - intros i x m' r Hfresh IH Hall.
    apply map_Forall_insert in Hall as [Hx Hall]; [|done].
    specialize (IH Hall). lia.
Qed.

Lemma countOf_spec ip c :
  countOf ip c = default 0 (ipConnections c !! ip).
Proof.
  unfold countOf. destruct (ipConnections c !! ip) as [n|]; [|done].
  simpl. destruct (n =? 0) eqn:E; lia.
Qed.

Lemma countOf_sound ip c :
  sound c ->
  (ipConnections c !! ip = None /\ countOf ip c = 0)
  \/ (ipConnections c !! ip = Some (countOf ip c) /\ 1 <= countOf ip c).
Proof.
  intros [Hall _]. rewrite countOf_spec.
  destruct (ipConnections c !! ip) as [n|] eqn:E; [right|by left].
  split; [done|]. apply (Hall ip n E).
Qed.

Lemma increment_sound ip c :
  sound c ->
  sound (incrementConnection ip c)
  /\ countOf ip (incrementConnection ip c) = countOf ip c + 1
  /\ (forall ip', ip' <> ip ->
        countOf ip' (incrementConnection ip c) = countOf ip' c).
Proof.
  intros Hs. pose proof (countOf_sound ip c Hs) as Hc. destruct Hs as [Hall Htot].
  split; [split|split].
  - simpl. apply map_Forall_insert_2; [|done]. destruct Hc as [[_ ->]|[_ H]]; lia.
  - simpl. rewrite total_insert, Htot.
    destruct Hc as [[Hn ->]|[Hsome _]].
    + rewrite delete_id by done. lia.
    + rewrite (total_delete _ _ _ Hsome). lia.
  - rewrite (countOf_spec ip (incrementConnection ip c)). simpl.
    by rewrite lookup_insert_eq.
  - intros ip' Hne. rewrite !countOf_spec. simpl. by rewrite lookup_insert_ne.
Qed.

Lemma decrement_sound ip c :
  sound c -> 0 < countOf ip c ->
  sound (decrementConnection ip c)
  /\ countOf ip (decrementConnection ip c) = countOf ip c - 1
  /\ (forall ip', ip' <> ip ->
        countOf ip' (decrementConnection ip c) = countOf ip' c).
Proof.
  intros Hs Hpos. pose proof (countOf_sound ip c Hs) as Hc. destruct Hs as [Hall Htot].
  destruct Hc as [[_ H0]|[Hsome Hone]]; [lia|].
  unfold decrementConnection.
  destruct (countOf ip c <=? 1) eqn:E.
  - assert (countOf ip c = 1) as H1 by lia.
    split; [split|split].
    + simpl. by apply map_Forall_delete.
    + simpl. rewrite Htot, (total_delete _ _ _ Hsome). lia.
    + rewrite (countOf_spec ip). simpl. rewrite lookup_delete_eq. simpl. lia.
    + intros ip' Hne. rewrite !countOf_spec. simpl. by rewrite lookup_delete_ne.
  - split; [split|split].
    + simpl. apply map_Forall_insert_2; [lia|done].
    + simpl. rewrite total_insert, Htot, (total_delete _ _ _ Hsome). lia.
    + rewrite (countOf_spec ip). simpl. by rewrite lookup_insert_eq.
    + intros ip' Hne. rewrite !countOf_spec. simpl. by rewrite lookup_insert_ne.
Qed.

Lemma run_sound_from maxConcurrency tr c :
  sound c -> (forall ip, countOf ip c <= Z.max 0 maxConcurrency) ->
  orderlyFrom maxConcurrency c tr = true ->
  sound (fold_left (step maxConcurrency) tr c)
  /\ (forall ip, countOf ip (fold_left (step maxConcurrency) tr c)
                 <= Z.max 0 maxConcurrency).
Proof.
  revert c. induction tr as [|e r IH]; intros c Hs Hb Ho; [done|].
  destruct e as [ip|ip]; cbn [fold_left orderlyFrom] in *.
  - apply IH; [| |exact Ho]; unfold step, checkRateLimit in *;
      destruct (countOf ip c <? maxConcurrency) eqn:E; try done.
    + by apply increment_sound.
    + intros ip'. destruct (increment_sound ip c Hs) as (_ & Hsame & Hother).
      destruct (decide (ip' = ip)) as [->|Hne].
      * rewrite Hsame. lia.
      * rewrite (Hother ip' Hne). apply Hb.
  - apply andb_true_iff in Ho as [Hpos Ho]. apply Z.ltb_lt in Hpos.
    destruct (decrement_sound ip c Hs Hpos) as (Hs' & Hsame & Hother).
    apply IH; [exact Hs'| |exact Ho].
    intros ip'. cbn [step]. destruct (decide (ip' = ip)) as [->|Hne].
    + rewrite Hsame. specialize (Hb ip). lia.
    + rewrite (Hother ip' Hne). apply Hb.
Qed.

(** X19.  As long as only counted requests finish, the tracker stays
    consistent whatever the order of arrivals and departures: the total
    [activeConnections] is the sum of the per-address counts and is never
    negative, no address is stored with a count below 1 (an address that
    reaches 0 is deleted), and no address ever holds more than the limit
    at once, because a request beyond the limit is refused and not
    counted. *)
Theorem tracker_consistent (maxConcurrency : Z) (tr : list Event) :
  orderlyFrom maxConcurrency empty tr = true ->
  let c := run maxConcurrency tr in
  sound c
  /\ 0 <= activeConnections c
  /\ (forall ip, 0 <= countOf ip c <= Z.max 0 maxConcurrency)
  /\ (forall ip, countOf ip c = 0 <-> ipConnections c !! ip = None).
Proof.
  intros Ho c.
  destruct (run_sound_from maxConcurrency tr empty) as [Hs Hb];
    [by split| |exact Ho|].
  { intros ip. rewrite countOf_spec. simpl. rewrite lookup_empty. simpl. lia. }
  fold (run maxConcurrency tr) in Hs, Hb. fold c in Hs, Hb.
  split; [exact Hs|]. split.
  { destruct Hs as [Hall ->]. by apply total_nonneg. }
  split.
  - intros ip. split; [|apply Hb].
    destruct (countOf_sound ip c Hs) as [[_ ->]|[_ H]]; lia.
  - intros ip. destruct (countOf_sound ip c Hs) as [[Hn ->]|[Hsome H]]; [done|].
    split; [lia|]. rewrite Hsome. done.
Qed.

Lemma tracker_consistent_witness :
  0 <= activeConnections
         (run 2 [Arrives "10.0.0.1"; Arrives "10.0.0.1"; Arrives "10.0.0.1";
                 Arrives "10.0.0.2"; Finishes "10.0.0.1"]).
Proof.
  destruct (tracker_consistent 2
              [Arrives "10.0.0.1"; Arrives "10.0.0.1"; Arrives "10.0.0.1";
               Arrives "10.0.0.2"; Finishes "10.0.0.1"]) as (_ & H & _).
  - vm_compute. reflexivity.
  - exact H.
Defined.

(** X20.  Counting a request and then releasing it restores the
    tracker exactly, map entry included; so does releasing a counted
    request and counting it again. *)
Theorem increment_decrement_inverse (ip : string) (c : Connections.t) :
  sound c ->
  decrementConnection ip (incrementConnection ip c) = c
  /\ (0 < countOf ip c ->
      incrementConnection ip (decrementConnection ip c) = c).
Proof.
  intros Hs. pose proof (countOf_sound ip c Hs) as Hc.
  destruct c as [active m].
  unfold decrementConnection, incrementConnection.
  rewrite !countOf_spec in *. cbn [ipConnections activeConnections] in *.
  split.
  - rewrite lookup_insert_eq. cbn [default from_option id].
    destruct (m !! ip) as [n|] eqn:E; cbn [default from_option id] in *.
    + destruct Hc as [[Hn _]|[_ Hone]]; [done|].
      destruct (n + 1 <=? 1) eqn:E1; [lia|]. f_equal; [lia|].
      rewrite insert_insert_eq. replace (n + 1 - 1) with n by lia.
      by apply insert_id.
    + cbn [Z.add Z.leb Z.compare Pos.compare Pos.compare_cont]. f_equal; [lia|].
      rewrite delete_insert_eq. by apply delete_id.
  - intros Hpos.
    destruct (m !! ip) as [n|] eqn:E; cbn [default from_option id] in *; [|lia].
    destruct (n <=? 1) eqn:E1; cbn [ipConnections].
    + rewrite lookup_delete_eq. cbn [default from_option id]. f_equal; [lia|].
      rewrite insert_delete_eq. replace (0 + 1) with n by lia.
      by apply insert_id.
    + rewrite lookup_insert_eq. cbn [default from_option id]. f_equal; [lia|].
      rewrite insert_insert_eq. replace (n - 1 + 1) with n by lia.
      by apply insert_id.
Qed.

Lemma increment_decrement_inverse_witness :
  decrementConnection "10.0.0.1" (incrementConnection "10.0.0.1" empty) = empty.
Proof.
  destruct (increment_decrement_inverse "10.0.0.1" empty) as [H _].
  - split; [apply map_Forall_empty|reflexivity].
  - exact H.
Defined.
End ConnectionFacts.

(** ** The servers: chunks, upload slots and validated requests *)

Section ServerFacts.
Import Server.
Import Requests.

Lemma sendChunk_whole endTime ticks (n : nat) :
  (n <= 100)%nat ->
  exists m : nat,
    (n <= m <= 100)%nat /\ (m <= n + length ticks)%nat
    /\ loopBytes (sendChunk endTime ticks (CHUNK_SIZE * Z.of_nat n)
                    (replicate n CHUNK_SIZE)) = CHUNK_SIZE * Z.of_nat m
    /\ loopWrites (sendChunk endTime ticks (CHUNK_SIZE * Z.of_nat n)
                     (replicate n CHUNK_SIZE)) = replicate m CHUNK_SIZE
    /\ (unimpeded endTime ticks ->
        m = Nat.min 100 (n + length ticks)
        /\ loopStopped (sendChunk endTime ticks (CHUNK_SIZE * Z.of_nat n)
                          (replicate n CHUNK_SIZE))
           = bool_decide (100 < n + length ticks)%nat).
Proof.
  revert n. induction ticks as [|k r IH]; intros n Hn.
  - exists n. cbn [sendChunk loopBytes loopWrites loopStopped length].
    repeat split; try lia.
    rewrite bool_decide_eq_false_2; [done|lia].
  - cbn [sendChunk]. destruct (stopTest endTime k (CHUNK_SIZE * Z.of_nat n)) eqn:E.
    + exists n. cbn [loopBytes loopWrites loopStopped length].
      split; [lia|]. split; [lia|]. split; [done|]. split; [done|].
      intros Hun. inversion Hun as [|? ? [Hk1 Hk2] Hr]; subst.
      unfold stopTest in E. rewrite Hk2, orb_false_r in E.
      assert (n = 100)%nat as ->.
      { apply orb_true_iff in E as [E|E];
          unfold MAX_BYTES_PER_STREAM, CHUNK_SIZE in *; lia. }
      split; [lia|]. rewrite bool_decide_eq_true_2; [done|lia].
    + assert (n < 100)%nat as Hlt.
      { unfold stopTest in E. apply orb_false_iff in E as [E _].
        apply orb_false_iff in E as [_ E].
        unfold MAX_BYTES_PER_STREAM, CHUNK_SIZE in *. lia. }
      assert ((MAX_BYTES_PER_STREAM <? CHUNK_SIZE * Z.of_nat n + CHUNK_SIZE) = false)
        as ->.
      { unfold MAX_BYTES_PER_STREAM, CHUNK_SIZE. lia. }
      replace (CHUNK_SIZE * Z.of_nat n + CHUNK_SIZE) with (CHUNK_SIZE * Z.of_nat (S n))
        by lia.
      rewrite <- replicate_S_end.
      destruct (IH (S n)) as (m & Hm & Hlen & Hb & Hw & Hun); [lia|].
      exists m. cbn [length]. split; [lia|]. split; [lia|].
      split; [exact Hb|]. split; [exact Hw|].
      intros Hall. inversion Hall as [|? ? _ Hr]; subst.
      destruct (Hun Hr) as [-> ->]. split; [lia|].
      apply bool_decide_ext. lia.
Qed.

(** X21.  The basic download handler only ever writes the whole
    256 KiB buffer: the ceiling of 25 MiB is a whole number of buffers, so
    the branch that cuts the last chunk to size is never taken.  A stream
    writes at most 100 chunks; while the time is not up and the client
    stays connected it writes one chunk per call, and it stops at the
    101st call with exactly 25 MiB sent. *)
Theorem download_whole_chunks (parsed : option Z) (requestTime : Z) (ticks : list Tick) :
  let endTime := requestTime + downloadSeconds parsed * 1000 in
  let r := download parsed requestTime ticks in
  exists m : nat,
    (m <= 100)%nat /\ (m <= length ticks)%nat
    /\ loopWrites r = replicate m CHUNK_SIZE
    /\ loopBytes r = CHUNK_SIZE * Z.of_nat m
    /\ (unimpeded endTime ticks ->
        m = Nat.min 100 (length ticks)
        /\ loopStopped r = bool_decide (100 < length ticks)%nat).
Proof.
  intros endTime r.
  destruct (sendChunk_whole endTime ticks 0) as (m & Hm & Hlen & Hb & Hw & Hun); [lia|].
  exists m. split; [lia|]. split; [lia|]. split; [exact Hw|]. split; [exact Hb|].
  exact Hun.
Qed.

Lemma download_whole_chunks_witness :
  exists m : nat,
    loopBytes (download (Some 5) 0
                 (map (fun i => {| now := Z.of_nat i; writableEnded := false |})
                    (seq 0 150)))
    = CHUNK_SIZE * Z.of_nat m
    /\ m = 100%nat.
Proof.
  destruct (download_whole_chunks (Some 5) 0
              (map (fun i => {| now := Z.of_nat i; writableEnded := false |})
                 (seq 0 150)))
    as (m & _ & _ & _ & Hb & Hun).
  exists m. split; [exact Hb|].
  destruct Hun as [-> _]; [|reflexivity].
  apply List.Forall_forall. intros k Hk.
  apply List.in_map_iff in Hk as (i & <- & Hi). apply List.in_seq in Hi.
  split; [|reflexivity]. cbn [now]. unfold downloadSeconds. simpl. lia.
Defined.

Lemma basic_data (chunks : list Z) (acc : Upload) :
  reply acc = None ->
  let u := fold_left (deliver onDataBasic) (map Data chunks) acc in
  reply u = None /\ destroyed u = destroyed acc
  /\ activeUploads u = activeUploads acc /\ startTime u = startTime acc
  /\ (destroyed acc = false ->
      paused u = paused acc || overruns MAX_BYTES_PER_STREAM (receivedBytes acc) chunks)
  /\ (paused u = false -> destroyed acc = false ->
      receivedBytes u = receivedBytes acc + sumZ chunks).
Proof.
  revert acc. induction chunks as [|c r IH]; intros acc Hr; cbn [map fold_left].
  - cbn [overruns]. rewrite orb_false_r. unfold sumZ. simpl.
    repeat split; try done. intros; lia.
  - cbn [deliver].
    destruct (paused acc || destroyed acc) eqn:E.
    + destruct (IH acc Hr) as (H1 & H2 & H3 & H4 & H5 & H6).
      repeat split; try done.
      * intros Hd. rewrite (H5 Hd). rewrite Hd, orb_false_r in E. by rewrite E.
      * intros Hp Hd. rewrite Hd, orb_false_r in E.
        specialize (H5 Hd). rewrite E in H5. simpl in H5. congruence.
    + apply orb_false_iff in E as [Ep Ed].
      destruct (IH (onDataBasic c acc)) as (H1 & H2 & H3 & H4 & H5 & H6); [done|].
      cbn [onDataBasic destroyed activeUploads startTime paused receivedBytes] in *.
      repeat split; try done.
      * intros _. rewrite (H5 Ed), Ep. cbn [overruns orb].
        by destruct (MAX_BYTES_PER_STREAM <? receivedBytes acc + c).
      * intros Hp _. rewrite (H6 Hp Ed). unfold sumZ. simpl. lia.
Qed.

(** X22.  On the basic server every upload releases its slot exactly
    once, however it ends: after ['close'] the request no longer counts
    as an active upload, whether its body was received in full, the
    client went away, or the body overran the ceiling.  The reply is the
    byte count when the body arrived in full within the ceiling, and
    nothing otherwise. *)
Theorem uploadBasic_releases_slot (requestTime : Z) (chunks : list Z) (e : Ending) :
  let u := uploadBasic requestTime (lifecycle chunks e) in
  activeUploads u = 0
  /\ destroyed u = false
  /\ reply u
     = match e with
       | Completes now =>
         if overruns MAX_BYTES_PER_STREAM 0 chunks then None
         else Some (Json (sumZ chunks) (now - requestTime))
       | Aborts => None
       end.
Proof.
  intros u. unfold u, uploadBasic, lifecycle. rewrite fold_left_app.
  destruct (basic_data chunks (accept requestTime)) as (H1 & H2 & H3 & H4 & H5 & H6);
    [done|].
  specialize (H5 eq_refl). cbn [accept paused receivedBytes orb] in H5, H6.
  set (v := fold_left (deliver onDataBasic) (map Data chunks) (accept requestTime)) in *.
  destruct e as [now|]; cbn [fold_left deliver].
  - cbn [accept destroyed] in H2. rewrite H2, orb_false_r, H5.
    destruct (overruns MAX_BYTES_PER_STREAM 0 chunks) eqn:E.
    + unfold onClose. rewrite H1. cbn. rewrite H3, H2. done.
    + cbn [onClose onEnd reply activeUploads destroyed].
      rewrite H3, H2, H4, H6 by (rewrite ?H5; done). cbn. repeat split.
  - unfold onClose. rewrite H1. cbn. rewrite H3, H2. done.
Qed.

Lemma limited_stuck maxBytes (chunks : list Z) (u : Upload) :
  destroyed u = true ->
  fold_left (deliver (onDataLimited maxBytes)) (map Data chunks) u = u.
Proof.
  intros Hd. induction chunks as [|c r IH]; [done|].
  cbn [map fold_left deliver]. by rewrite Hd, orb_true_r.
Qed.

Lemma limited_data maxBytes (chunks : list Z) (acc : Upload) :
  reply acc = None -> paused acc = false -> destroyed acc = false ->
  let u := fold_left (deliver (onDataLimited maxBytes)) (map Data chunks) acc in
  activeUploads u = activeUploads acc /\ startTime u = startTime acc
  /\ if overruns maxBytes (receivedBytes acc) chunks
     then reply u = Some Status413 /\ destroyed u = true /\ paused u = true
     else reply u = None /\ destroyed u = false /\ paused u = false
          /\ receivedBytes u = receivedBytes acc + sumZ chunks.
Proof.
  revert acc. induction chunks as [|c r IH]; intros acc Hr Hp Hd; cbn [map fold_left].
  - cbn [overruns]. unfold sumZ. simpl. repeat split; try done. lia.
  - cbn [deliver overruns]. rewrite Hp, Hd. cbn [orb].
    set (f := deliver (onDataLimited maxBytes)). unfold onDataLimited.
    destruct (maxBytes <? receivedBytes acc + c) eqn:E; cbn [orb]; unfold f.
    + rewrite limited_stuck by done. done.
    + destruct (IH {| startTime := startTime acc;
                      receivedBytes := receivedBytes acc + c;
                      paused := paused acc; destroyed := destroyed acc;
                      reply := reply acc; activeUploads := activeUploads acc |})
        as (H1 & H2 & H3); [done..|].
      cbn [receivedBytes activeUploads startTime] in *.
      split; [done|]. split; [done|].
      destruct (overruns maxBytes (receivedBytes acc + c) r); [done|].
      destruct H3 as (K1 & K2 & K3 & K4). repeat split; try done.
      rewrite K4. unfold sumZ. simpl. lia.
Qed.

(** X23.  On the secure server an upload within the limit releases
    its slot exactly once, however it ends.  An upload that overruns the
    limit is answered with 413 and its connection is destroyed, but its
    slot is not released: the ['data'] listener releases nothing,
    ['end'] is never delivered, and the ['close'] listener finds the
    response already ended; the request keeps counting as an active
    upload after it is gone. *)
Theorem uploadSecure_slot (requestTime : Z) (chunks : list Z) (e : Ending) :
  let u := uploadSecure requestTime (lifecycle chunks e) in
  if overruns MAX_UPLOAD_SIZE 0 chunks
  then reply u = Some Status413 /\ destroyed u = true /\ activeUploads u = 1
  else activeUploads u = 0 /\ destroyed u = false
       /\ reply u = match e with
                    | Completes now => Some (Json (sumZ chunks) (now - requestTime))
                    | Aborts => None
                    end.
Proof.
  intros u. unfold u, uploadSecure, lifecycle. rewrite fold_left_app.
  destruct (limited_data MAX_UPLOAD_SIZE chunks (accept requestTime))
    as (H1 & H2 & H3); [done..|].
  cbn [accept receivedBytes activeUploads startTime] in H1, H2, H3.
  set (v := fold_left _ (map Data chunks) (accept requestTime)) in *.
  destruct (overruns MAX_UPLOAD_SIZE 0 chunks).
  - destruct H3 as (K1 & K2 & K3).
    destruct e as [now|]; cbn [fold_left deliver]; rewrite ?K2, ?K3; cbn [orb];
      unfold onClose; rewrite K1; done.
  - destruct H3 as (K1 & K2 & K3 & K4).
    destruct e as [now|]; cbn [fold_left deliver]; rewrite ?K2, ?K3; cbn [orb].
    + cbn [onClose onEnd reply activeUploads destroyed]. rewrite H1, H2, K2, K4.
      repeat split.
    + unfold onClose. rewrite K1. cbn. rewrite H1, K2. done.
Qed.

Lemma secure_sendChunk_linear endTime ticks bytesSent writes :
  unimpeded endTime ticks ->
  SecureServer.sendChunk endTime ticks bytesSent writes
  = Running (bytesSent + CHUNK_SIZE * Z.of_nat (length ticks))
      (writes ++ replicate (length ticks) CHUNK_SIZE).
Proof.
  intros Hun. revert bytesSent writes.
  induction Hun as [|k r [Hk1 Hk2] Hr IH]; intros bytesSent writes.
  - cbn. by rewrite Z.add_0_r, List.app_nil_r.
  - cbn [SecureServer.sendChunk length replicate]. rewrite Hk2, orb_false_r.
    destruct (endTime <=? now k) eqn:E; [lia|].
    rewrite IH, <- List.app_assoc. cbn [app]. f_equal. lia.
Qed.

(** X24.  What the secure server lets through.  A request that
    passes [validateTestParams] runs for a duration between 1 and 120
    seconds: the requested number when there is one, 15 otherwise; the
    cap and the default of the handler never change a validated request.
    Its stream id, when there is one, is 1 to 50 letters, digits and
    hyphens.  The handler then writes one whole buffer per call for as
    long as the time is not up and the client stays connected: unlike the
    basic server it has no byte ceiling. *)
Theorem secure_download_validated (seconds : SecureServer.Seconds)
    (streamId : option string) (requestTime : Z) (ticks : list Tick) :
  SecureServer.validateTestParams seconds streamId = SecureServer.Next ->
  let duration := downloadSeconds (SecureServer.parsedSeconds seconds) in
  1 <= duration <= 120
  /\ duration = match seconds with
                | SecureServer.Present (Some n) => n
                | _ => 15
                end
  /\ (forall id, streamId = Some id ->
        (1 <= String.length id <= 50)%nat
        /\ forallb SecureServer.alphanumericOrHyphen (String.list_ascii_of_string id) = true)
  /\ (unimpeded (requestTime + duration * 1000) ticks ->
      SecureServer.download seconds streamId requestTime ticks
      = Some (Running (CHUNK_SIZE * Z.of_nat (length ticks))
                (replicate (length ticks) CHUNK_SIZE))).
Proof.
  intros Hv duration.
  assert (1 <= duration <= 120
          /\ duration = match seconds with
                        | SecureServer.Present (Some n) => n
                        | _ => 15
                        end) as [Hrange Hval].
  { unfold duration, downloadSeconds, SecureServer.validateTestParams in *.
    destruct seconds as [|[n|]]; cbn in *; try done.
    destruct ((n <? 1) || (120 <? n)) eqn:E; [done|].
    apply orb_false_iff in E as [E1 E2].
    destruct (n =? 0) eqn:E0; lia. }
  split; [exact Hrange|]. split; [exact Hval|]. split.
  - intros id ->. unfold SecureServer.validateTestParams in Hv.
    destruct (match seconds with
              | SecureServer.Absent => true
              | SecureServer.Present None => false
              | SecureServer.Present (Some sec) => negb ((sec <? 1) || (120 <? sec))
              end); [|done].
    unfold SecureServer.streamIdMatches in Hv.
    destruct (_ && forallb _ _) eqn:E; [|done].
    apply andb_true_iff in E as [E1 E2]. apply andb_true_iff in E1 as [E1 E3].
    apply Nat.leb_le in E1, E3.
    assert (String.length id = length (String.list_ascii_of_string id)) as ->.
    { clear. induction id as [|a r IH]; simpl; congruence. }
    done.
  - intros Hun. unfold SecureServer.download. rewrite Hv. fold duration.
    by rewrite secure_sendChunk_linear.
Qed.

Lemma secure_download_validated_witness :
  1 <= downloadSeconds (SecureServer.parsedSeconds (SecureServer.Present (Some 5))) <= 120.
Proof.
  destruct (secure_download_validated (SecureServer.Present (Some 5)) (Some "3") 0 [])
    as [H _]; [reflexivity|exact H].
Defined.

(** X25.  What the orchestrator asks for is what the servers stream.
    For a phase of up to two minutes the client asks for the duration
    rounded up to whole seconds, and names its streams by their index;
    the secure server's validation accepts this request for each of the
    at most 12 streams, and both servers then run for exactly the seconds
    asked: at least the duration of the phase, and less than one second
    more. *)
Theorem client_request_served (duration : Z) (streamId : nat) :
  0 < duration <= 120000 -> (streamId < 12)%nat ->
  let q := Api.downloadQuery duration streamId in
  SecureServer.validateTestParams q.1 q.2 = SecureServer.Next
  /\ downloadSeconds (SecureServer.parsedSeconds q.1) = Api.durationSec duration
  /\ duration <= Api.durationSec duration * 1000 < duration + 1000.
Proof.
  intros Hd Hs q.
  assert (duration <= Api.durationSec duration * 1000 < duration + 1000) as Hceil.
  { unfold Api.durationSec, Qceiling, Qfloor, Qdiv, Qmult, Qinv, Qopp, inject_Z.
    simpl. Z.div_mod_to_equations. lia. }
  assert (SecureServer.streamIdMatches (pretty streamId) = true) as Hid.
  { do 12 (destruct streamId as [|streamId]; [vm_compute; reflexivity|]). lia. }
  unfold q, Api.downloadQuery. cbn [fst snd SecureServer.parsedSeconds].
  unfold SecureServer.validateTestParams, downloadSeconds. rewrite Hid.
  destruct (Api.durationSec duration <? 1) eqn:E1; [lia|].
  destruct (120 <? Api.durationSec duration) eqn:E2; [lia|].
  destruct (Api.durationSec duration =? 0) eqn:E3; [lia|].
  cbn. repeat split; lia.
Qed.

Lemma client_request_served_witness :
  downloadSeconds
    (SecureServer.parsedSeconds (Api.downloadQuery TestOrchestrator.MEASURE_DURATION 0).1)
  = Api.durationSec TestOrchestrator.MEASURE_DURATION.
Proof.
  destruct (client_request_served TestOrchestrator.MEASURE_DURATION 0) as (_ & H & _).
  - unfold TestOrchestrator.MEASURE_DURATION. lia.
  - lia.
  - exact H.
Defined.
End ServerFacts.

(** ** The payload generator *)

Section PRNGFacts.
Import FastPRNG.

















End PRNGFacts.
